(** * The signal dispatcher of [dispatch/dispatcher.py]

    A shallow embedding of the [Signal] class: the receiver table, the
    weak handles and their lazy compaction, the per-sender cache, and the
    two dispatch loops [send] and [send_robust].

    Python objects are identified by their address; what a dictionary
    sees of them (their hash and [==]) is part of the object.  Operations of the
    class are functions in a state-and-exception monad over a [World]
    (the signal object together with the part of the heap the class
    observes); every operation also produces a trace of the lock
    acquisitions and receiver invocations it performed itself. *)

From stdpp Require Import gmap strings list.

#[local] Open Scope Z_scope.

(** ** Python values and objects *)

(** Hashable values, as they occur as [dispatch_uid] and as the results of
    [id] and [_make_id]. *)
Inductive pyval :=
| PNone
| PInt (n : Z)
| PStr (s : string)
| PTuple (items : list Z).

#[global] Instance pyval_eq_dec : EqDecision pyval.
Proof. solve_decision. Defined.

#[global] Instance pyval_countable : Countable pyval.
Proof.
  refine (inj_countable'
    (fun v => match v with
              | PNone => inl ()
              | PInt n => inr (inl n)
              | PStr s => inr (inr (inl s))
              | PTuple items => inr (inr (inr items))
              end)
    (fun c => match c with
              | inl _ => PNone
              | inr (inl n) => PInt n
              | inr (inr (inl s)) => PStr s
              | inr (inr (inr items)) => PTuple items
              end) _).
  by intros [].
Defined.

(** Truth value of a value in a condition ([if dispatch_uid:]). *)
Definition truthy (v : pyval) : bool :=
  match v with
  | PNone => false
  | PInt n => negb (n =? 0)
  | PStr s => negb (String.eqb s EmptyString)
  | PTuple items => negb (bool_decide (items = []))
  end.

(** How the instances of a class compare and hash. *)
Inductive equality :=
| ById                 (* the defaults of [object]: [==] is [is] *)
| ByValue (v : pyval)  (* [__eq__] and [__hash__] computed from a value *)
| NoHash.              (* [__eq__] without [__hash__]: [hash] raises *)

#[global] Instance equality_eq_dec : EqDecision equality.
Proof. solve_decision. Defined.

#[global] Instance equality_countable : Countable equality.
Proof.
  refine (inj_countable'
    (fun e => match e with
              | ById => inl ()
              | ByValue v => inr (inl v)
              | NoHash => inr (inr ())
              end)
    (fun c => match c with
              | inl _ => ById
              | inr (inl v) => ByValue v
              | inr (inr _) => NoHash
              end) _).
  by intros [].
Defined.

(** What a dictionary and [weakref.ref] see of the class of an object. *)
Record pyclass := {
  class_eq : equality;
  class_weakref : bool
}.

#[global] Instance pyclass_eq_dec : EqDecision pyclass.
Proof. solve_decision. Defined.

#[global] Instance pyclass_countable : Countable pyclass.
Proof.
  refine (inj_countable'
    (fun c => (class_eq c, class_weakref c))
    (fun p => {| class_eq := p.1; class_weakref := p.2 |}) _).
  by intros [].
Defined.

(** Objects that are passed as receivers and senders.  [ONone] is the
    [None] singleton; [OObj a] is an object with the defaults of
    [object] (a function, a class, an instance: compared by identity,
    hashable, weakly referenceable); [OMethod s f] is the bound method
    of the function at [f] on the object at [s] (it has [__self__] and
    [__func__]); [OData a c] is an object of a class that departs from
    the defaults: an [int], a [str] or a [tuple] (compared by value, no
    weak reference), a [list] (no hash, no weak reference), an instance
    of a class that defines [__eq__] with or without [__hash__], an
    instance of [object] itself (no weak reference). *)
Inductive pyobj :=
| ONone
| OObj (addr : positive)
| OMethod (self func : positive)
| OData (addr : positive) (cls : pyclass).

#[global] Instance pyobj_eq_dec : EqDecision pyobj.
Proof. solve_decision. Defined.

#[global] Instance pyobj_countable : Countable pyobj.
Proof.
  refine (inj_countable'
    (fun o => match o with
              | ONone => inl ()
              | OObj a => inr (inl a)
              | OMethod s f => inr (inr (inl (s, f)))
              | OData a c => inr (inr (inr (a, c)))
              end)
    (fun c => match c with
              | inl _ => ONone
              | inr (inl a) => OObj a
              | inr (inr (inl (s, f))) => OMethod s f
              | inr (inr (inr (a, c))) => OData a c
              end) _).
  by intros [].
Defined.

(** [id(None)]; objects with the defaults live at the positive
    addresses. *)
Definition id_None : Z := 0.

(** The other objects are given the addresses of a region of their own,
    so that an object is known by its [id]; of an [id] only its equality
    with another is ever observed. *)
Definition data_id (addr : positive) (cls : pyclass) : Z :=
  Z.neg (encode (addr, cls)).

Definition _make_id (target : pyobj) : pyval :=
  match target with
  | OMethod self func => PTuple [Z.pos self; Z.pos func]
  | OObj addr => PInt (Z.pos addr)
  | OData addr cls => PInt (data_id addr cls)
  | ONone => PInt id_None
  end.

Definition NONE_ID : pyval := _make_id ONone.

(** [weakref.ref] and [WeakMethod] accept an object or raise
    [TypeError]. *)
Definition weakly_referenceable (o : pyobj) : bool :=
  match o with
  | ONone => false
  | OData _ cls => class_weakref cls
  | _ => true
  end.

(** ** Dictionary keys *)

(** What a dictionary knows a key by: its hash and [==].  Objects that
    compare by identity are keys of their own; objects that compare by
    value share the key of their value. *)
Inductive dict_key :=
| KeyId (o : pyobj)
| KeyValue (v : pyval).

#[global] Instance dict_key_eq_dec : EqDecision dict_key.
Proof. solve_decision. Defined.

#[global] Instance dict_key_countable : Countable dict_key.
Proof.
  refine (inj_countable'
    (fun k => match k with KeyId o => inl o | KeyValue v => inr v end)
    (fun c => match c with inl o => KeyId o | inr v => KeyValue v end) _).
  by intros [].
Defined.

(** [hash(o)], with what [==] adds to it: the key, or nothing when
    [hash] raises [TypeError]. *)
Definition key_of (o : pyobj) : option dict_key :=
  match o with
  | OData _ cls =>
      match class_eq cls with
      | ById => Some (KeyId o)
      | ByValue v => Some (KeyValue v)
      | NoHash => None
      end
  | _ => Some (KeyId o)
  end.

Definition hashable (o : pyobj) : bool :=
  match key_of o with Some _ => true | None => false end.

(** [==] is [is] for the object. *)
Definition compared_by_identity (o : pyobj) : bool :=
  bool_decide (key_of o = Some (KeyId o)).

(** ** Exceptions and results *)

Definition traceback := list string.

(** An exception instance.  [exc_is_Exception] tells whether its class
    derives from [Exception] (the class named by the handler of
    [send_robust]); [__traceback__] is the attribute of that name, absent
    on interpreters that do not set it. *)
Record exception := {
  exc_class : string;
  exc_is_Exception : bool;
  __traceback__ : option traceback
}.

#[global] Instance exception_eq_dec : EqDecision exception.
Proof. solve_decision. Defined.

(** Outcome of a computation: a value, or a raised exception together with
    the traceback the interpreter reports for it ([sys.exc_info()[2]]). *)
Inductive Res (A : Type) :=
| Ok (a : A)
| Raise (err : exception) (tb : traceback).
Arguments Ok {A} a.
Arguments Raise {A} err tb.

Definition TypeError : exception :=
  {| exc_class := "TypeError"; exc_is_Exception := true; __traceback__ := None |}.

(** ** The signal *)

Definition lookup_key : Type := pyval * pyval.

(** What the table stores for a receiver: the receiver itself, or a weak
    reference to it (an instance of [weakref.ReferenceType]). *)
Inductive handle :=
| Strong (o : pyobj)
| Weak (o : pyobj).

#[global] Instance handle_eq_dec : EqDecision handle.
Proof. solve_decision. Defined.

Definition is_weak (h : handle) : bool :=
  match h with Weak _ => true | Strong _ => false end.

(** A value of the sender cache: the sentinel or a list of handles. *)
Inductive cache_entry :=
| NO_RECEIVERS
| Cached (handles : list handle).

#[global] Instance cache_entry_eq_dec : EqDecision cache_entry.
Proof. solve_decision. Defined.

Definition entry : Type := lookup_key * handle.

(** The sender cache, a [dict] or a [weakref.WeakKeyDictionary]: under
    the key of a sender, the sender that was first stored with that key
    and the value stored last. *)
Abbreviation cache := (gmap dict_key (pyobj * cache_entry)).

Record Signal := {
  receivers : list entry;
  providing_args : gset string;
  use_caching : bool;
  sender_receivers_cache : cache;
  _dead_receivers : bool
}.

(** The signal and what it observes of the heap: which addresses have been
    collected, and which objects carry a finalizer that calls
    [_remove_receiver]. *)
Record World := {
  sig : Signal;
  dead : gset positive;
  finalizers : gset positive
}.

Definition set_sig (s : Signal) (w : World) : World :=
  {| sig := s; dead := dead w; finalizers := finalizers w |}.

(** [Signal(providing_args, use_caching)]; [providing_args] is a list or
    [None]. *)
Definition __init__ (providing_args : option (list string))
    (use_caching : bool) : Signal :=
  let providing_args :=
    match providing_args with None => [] | Some l => l end in
  {| receivers := [];
     providing_args := list_to_set providing_args;
     use_caching := use_caching;
     sender_receivers_cache := ∅;
     _dead_receivers := false |}.

(** ** Weak references *)

Definition obj_alive (d : gset positive) (o : pyobj) : bool :=
  match o with
  | ONone => true
  | OObj a => bool_decide (a ∉ d)
  | OMethod s f => bool_decide (s ∉ d) && bool_decide (f ∉ d)
  | OData a _ => bool_decide (a ∉ d)
  end.

(** Calling a weak reference: the referent, or [None] once it is gone. *)
Definition deref (d : gset positive) (h : handle) : option pyobj :=
  match h with
  | Strong o => Some o
  | Weak o => if obj_alive d o then Some o else None
  end.

(** [isinstance(h, weakref.ReferenceType) and h() is None] *)
Definition is_dead_ref (d : gset positive) (h : handle) : bool :=
  match h with
  | Strong _ => false
  | Weak o => negb (obj_alive d o)
  end.

(** ** The monad of operations *)

Inductive event :=
| EvLock                      (* [with self.lock:] entered *)
| EvCall (receiver : pyobj).  (* [receiver(signal=self, sender=sender, **named)] *)

#[global] Instance event_eq_dec : EqDecision event.
Proof. solve_decision. Defined.

Definition M (A : Type) : Type := World → Res A * World * list event.

Definition ret {A} (a : A) : M A := fun w => (Ok a, w, []).

Definition raise {A} (err : exception) (tb : traceback) : M A :=
  fun w => (Raise err tb, w, []).

Definition bind {A B} (m : M A) (k : A → M B) : M B := fun w =>
  match m w with
  | (Ok a, w1, t1) =>
      match k a w1 with
      | (r, w2, t2) => (r, w2, t1 ++ t2)
      end
  | (Raise err tb, w1, t1) => (Raise err tb, w1, t1)
  end.

Declare Scope py_scope.
Delimit Scope py_scope with py.
Notation "x <- m ;; k" := (bind m (fun x => k))
  (at level 100, m at next level, right associativity) : py_scope.
Notation "m ;;; k" := (bind m (fun _ => k))
  (at level 100, right associativity) : py_scope.

Definition get_sig : M Signal := fun w => (Ok (sig w), w, []).
Definition put_sig (s : Signal) : M unit := fun w => (Ok tt, set_sig s w, []).
Definition get_dead : M (gset positive) := fun w => (Ok (dead w), w, []).

(** [with self.lock: body] *)
Definition with_lock {A} (body : M A) : M A := fun w =>
  match body w with
  | (r, w1, t) => (r, w1, EvLock :: t)
  end.

Definition result {A} (x : Res A * World * list event) : Res A := x.1.1.
Definition final {A} (x : Res A * World * list event) : World := x.1.2.
Definition trace {A} (x : Res A * World * list event) : list event := x.2.

(** The receivers an operation invoked, in order. *)
Definition calls (t : list event) : list pyobj :=
  omap (fun e => match e with EvCall r => Some r | EvLock => None end) t.

(** The number of times an operation took the lock. *)
Definition locks (t : list event) : nat :=
  length (filter (fun e => e = EvLock) t).

#[local] Open Scope py_scope.

(** ** The sender cache *)

(** The cache of a caching signal is a [weakref.WeakKeyDictionary]:
    reading or writing a key first builds a weak reference to it, which
    raises [TypeError] for an object that has none, and then hashes it.
    Without caching it is a plain dictionary, which hashes the key.
    Either way [hash] raises [TypeError] for an unhashable object, and a
    key is found under every key that is equal to it. *)
Definition cache_key_ok (s : Signal) (sender : pyobj) : bool :=
  (negb (use_caching s) || weakly_referenceable sender) && hashable sender.

(** What the dictionary holds for a key equal to [sender]. *)
Definition cache_lookup (c : cache) (sender : pyobj) : option cache_entry :=
  match key_of sender with
  | Some k => snd <$> c !! k
  | None => None
  end.

(** [self.sender_receivers_cache.get(sender)] *)
Definition cache_get (sender : pyobj) : M (option cache_entry) :=
  s <- get_sig ;;
  if use_caching s && negb (weakly_referenceable sender)
  then raise TypeError []
  else
    match key_of sender with
    | Some k => ret (snd <$> sender_receivers_cache s !! k)
    | None => raise TypeError []
    end.

(** The dictionary after [d[sender] = value]: a key that is equal to one
    already there keeps the object stored first. *)
Definition cache_store (sender : pyobj) (value : cache_entry) (c : cache)
  : cache :=
  match key_of sender with
  | Some k =>
      <[k := (match c !! k with Some (o, _) => o | None => sender end, value)]> c
  | None => c
  end.

Definition with_cache (c : cache) (s : Signal) : Signal :=
  {| receivers := receivers s;
     providing_args := providing_args s;
     use_caching := use_caching s;
     sender_receivers_cache := c;
     _dead_receivers := _dead_receivers s |}.

(** [self.sender_receivers_cache[sender] = value] *)
Definition cache_set (sender : pyobj) (value : cache_entry) : M unit :=
  s <- get_sig ;;
  if use_caching s && negb (weakly_referenceable sender)
  then raise TypeError []
  else
    match key_of sender with
    | Some k =>
        put_sig (with_cache (cache_store sender value (sender_receivers_cache s)) s)
    | None => raise TypeError []
    end.

(** [self.sender_receivers_cache.clear()] *)
Definition cache_clear : M unit :=
  s <- get_sig ;;
  put_sig (with_cache ∅ s).

(** ** Compaction *)

Definition with_receivers (l : list entry) (s : Signal) : Signal :=
  {| receivers := l;
     providing_args := providing_args s;
     use_caching := use_caching s;
     sender_receivers_cache := sender_receivers_cache s;
     _dead_receivers := _dead_receivers s |}.

Definition with_flag (b : bool) (s : Signal) : Signal :=
  {| receivers := receivers s;
     providing_args := providing_args s;
     use_caching := use_caching s;
     sender_receivers_cache := sender_receivers_cache s;
     _dead_receivers := b |}.

(** The loop of [_clear_dead_receivers]: keep every entry but those whose
    handle is a weak reference that is gone. *)
Fixpoint new_receivers (d : gset positive) (l : list entry) : list entry :=
  match l with
  | [] => []
  | r :: rest =>
      if is_dead_ref d r.2 then new_receivers d rest
      else r :: new_receivers d rest
  end.

Definition _clear_dead_receivers : M unit :=
  s <- get_sig ;;
  if _dead_receivers s then
    d <- get_dead ;;
    put_sig (with_receivers (new_receivers d (receivers s)) (with_flag false s))
  else ret tt.

(** [_remove_receiver], the callback run when a weakly held receiver goes. *)
Definition _remove_receiver : M unit :=
  s <- get_sig ;;
  put_sig (with_flag true s).

(** ** connect and disconnect *)

Definition make_lookup_key (receiver sender : pyobj) (dispatch_uid : pyval)
  : lookup_key :=
  if truthy dispatch_uid
  then (dispatch_uid, _make_id sender)
  else (_make_id receiver, _make_id sender).

(** The object whose collection triggers the callback: the receiver, or
    the owner of a bound method. *)
Definition receiver_object (receiver : pyobj) : option positive :=
  match receiver with
  | ONone => None
  | OObj a => Some a
  | OMethod self _ => Some self
  | OData a _ => Some a
  end.

(** [receiver = ref(receiver); weakref.finalize(receiver_object,
    self._remove_receiver)] *)
Definition make_weak (receiver : pyobj) : M handle := fun w =>
  if weakly_referenceable receiver
  then
    match receiver_object receiver with
    | Some a =>
        (Ok (Weak receiver),
         {| sig := sig w; dead := dead w; finalizers := {[a]} ∪ finalizers w |},
         [])
    | None => (Raise TypeError [], w, [])
    end
  else (Raise TypeError [], w, []).

(** [for r_key, _ in self.receivers: if r_key == lookup_key: break] *)
Fixpoint key_connected (key : lookup_key) (l : list entry) : bool :=
  match l with
  | [] => false
  | (r_key, _) :: rest =>
      if bool_decide (r_key = key) then true else key_connected key rest
  end.

(** The validation done under [settings.DEBUG] is not part of the model:
    receivers are callables that accept keyword arguments. *)
Definition connect (receiver sender : pyobj) (weak : bool)
    (dispatch_uid : pyval) : M unit :=
  let lookup_key := make_lookup_key receiver sender dispatch_uid in
  receiver <- (if weak then make_weak receiver else ret (Strong receiver)) ;;
  with_lock (
    _clear_dead_receivers ;;;
    s <- get_sig ;;
    (if key_connected lookup_key (receivers s) then ret tt
     else put_sig (with_receivers (receivers s ++ [(lookup_key, receiver)]) s)) ;;;
    cache_clear).

(** [disconnect]; the [weak] argument is accepted and not used. *)
Definition disconnect (receiver sender : pyobj) (weak : bool)
    (dispatch_uid : pyval) : M bool :=
  let lookup_key := make_lookup_key receiver sender dispatch_uid in
  with_lock (
    _clear_dead_receivers ;;;
    s <- get_sig ;;
    disconnected <-
      (match list_find (fun r => r.1 = lookup_key) (receivers s) with
       | Some (index, _) =>
           put_sig (with_receivers (delete index (receivers s)) s) ;;;
           ret true
       | None => ret false
       end) ;;
    cache_clear ;;;
    ret disconnected).

(** ** Resolution *)

(** The scan of [_live_receivers]: the handles of the entries registered
    for every sender or for this one, in table order. *)
Fixpoint scan (senderkey : pyval) (l : list entry) : list handle :=
  match l with
  | [] => []
  | ((receiverkey, r_senderkey), receiver) :: rest =>
      if bool_decide (r_senderkey = NONE_ID) || bool_decide (r_senderkey = senderkey)
      then receiver :: scan senderkey rest
      else scan senderkey rest
  end.

(** The last loop of [_live_receivers]. *)
Fixpoint non_weak_receivers (d : gset positive) (l : list handle) : list pyobj :=
  match l with
  | [] => []
  | receiver :: rest =>
      match receiver with
      | Weak o =>
          if obj_alive d o then o :: non_weak_receivers d rest
          else non_weak_receivers d rest
      | Strong o => o :: non_weak_receivers d rest
      end
  end.

Definition _live_receivers (sender : pyobj) : M (list pyobj) :=
  s <- get_sig ;;
  found <- (if use_caching s && negb (_dead_receivers s)
            then cache_get sender else ret None) ;;
  match found with
  | Some NO_RECEIVERS => ret []
  | _ =>
      handles <-
        (match found with
         | Some (Cached handles) => ret handles
         | _ =>
             with_lock (
               _clear_dead_receivers ;;;
               s <- get_sig ;;
               let senderkey := _make_id sender in
               let handles := scan senderkey (receivers s) in
               (if use_caching s then
                  match handles with
                  | [] => cache_set sender NO_RECEIVERS
                  | _ => cache_set sender (Cached handles)
                  end
                else ret tt) ;;;
               ret handles)
         end) ;;
      d <- get_dead ;;
      ret (non_weak_receivers d handles)
  end.

Definition has_listeners (sender : pyobj) : M bool :=
  l <- _live_receivers sender ;;
  ret (negb (bool_decide (l = []))).

(** ** Dispatch *)

Definition kwargs : Type := list (string * pyval).

(** A response recorded by [send_robust]: the returned value or the error
    instance. *)
Inductive response :=
| Returned (v : pyval)
| Caught (err : exception).

Section Dispatch.

(** The behaviour of the receivers: what calling a receiver with
    [signal=self, sender=sender, **named] returns or raises, and how it
    leaves the world (a receiver may itself use the signal). *)
Variable call : pyobj → pyobj → kwargs → World → Res pyval * World.

Definition invoke (receiver sender : pyobj) (named : kwargs) : M pyval :=
  fun w =>
    match call receiver sender named w with
    | (r, w1) => (r, w1, [EvCall receiver])
    end.

(** [not self.receivers or self.sender_receivers_cache.get(sender) is
    NO_RECEIVERS] *)
Definition nothing_to_send (sender : pyobj) : M bool :=
  s <- get_sig ;;
  match receivers s with
  | [] => ret true
  | _ =>
      found <- cache_get sender ;;
      ret (bool_decide (found = Some NO_RECEIVERS))
  end.

(** The loop of [send]. *)
Fixpoint send_loop (sender : pyobj) (named : kwargs) (l : list pyobj)
    (responses : list (pyobj * pyval)) : M (list (pyobj * pyval)) :=
  match l with
  | [] => ret responses
  | receiver :: rest =>
      response <- invoke receiver sender named ;;
      send_loop sender named rest (responses ++ [(receiver, response)])
  end.

Definition send (sender : pyobj) (named : kwargs)
  : M (list (pyobj * pyval)) :=
  empty <- nothing_to_send sender ;;
  if empty then ret []
  else
    l <- _live_receivers sender ;;
    send_loop sender named l [].

(** [if not hasattr(err, '__traceback__'): err.__traceback__ =
    sys.exc_info()[2]] *)
Definition attach_traceback (err : exception) (tb : traceback) : exception :=
  match __traceback__ err with
  | Some _ => err
  | None =>
      {| exc_class := exc_class err;
         exc_is_Exception := exc_is_Exception err;
         __traceback__ := Some tb |}
  end.

(** [try: response = receiver(...) except Exception as err: ...] *)
Definition try_invoke (receiver sender : pyobj) (named : kwargs)
  : M response := fun w =>
  match invoke receiver sender named w with
  | (Ok v, w1, t) => (Ok (Returned v), w1, t)
  | (Raise err tb, w1, t) =>
      if exc_is_Exception err
      then (Ok (Caught (attach_traceback err tb)), w1, t)
      else (Raise err tb, w1, t)
  end.

(** The loop of [send_robust]. *)
Fixpoint send_robust_loop (sender : pyobj) (named : kwargs) (l : list pyobj)
    (responses : list (pyobj * response)) : M (list (pyobj * response)) :=
  match l with
  | [] => ret responses
  | receiver :: rest =>
      r <- try_invoke receiver sender named ;;
      send_robust_loop sender named rest (responses ++ [(receiver, r)])
  end.

Definition send_robust (sender : pyobj) (named : kwargs)
  : M (list (pyobj * response)) :=
  empty <- nothing_to_send sender ;;
  if empty then ret []
  else
    l <- _live_receivers sender ;;
    send_robust_loop sender named l [].

End Dispatch.

(** * Specification *)

(** ** The operations as transformations of the world *)

(** An entry is registered for every sender or for the sender whose
    identity is [senderkey]. *)
Definition matches (senderkey : pyval) (e : entry) : Prop :=
  e.1.2 = NONE_ID ∨ e.1.2 = senderkey.

#[global] Instance matches_dec senderkey e : Decision (matches senderkey e).
Proof. unfold matches. apply _. Defined.

(** The signal after [_clear_dead_receivers]. *)
Definition compacted (w : World) : Signal :=
  if _dead_receivers (sig w)
  then with_receivers (new_receivers (dead w) (receivers (sig w)))
         (with_flag false (sig w))
  else sig w.

(** The world in which a weak [connect] takes the lock. *)
Definition with_finalizer (receiver : pyobj) (w : World) : World :=
  match receiver_object receiver with
  | Some a =>
      {| sig := sig w; dead := dead w; finalizers := {[a]} ∪ finalizers w |}
  | None => w
  end.

(** What [connect] stores for the receiver. *)
Definition connect_handle (receiver : pyobj) (weak : bool) : handle :=
  if weak then Weak receiver else Strong receiver.

(** The table after the loop of [connect]. *)
Definition connect_table (key : lookup_key) (h : handle) (l : list entry)
  : list entry :=
  if key_connected key l then l else l ++ [(key, h)].

(** The world after a [connect] that returns. *)
Definition connected (receiver sender : pyobj) (weak : bool)
    (dispatch_uid : pyval) (w : World) : World :=
  let w1 := if weak then with_finalizer receiver w else w in
  let s := compacted w1 in
  set_sig
    (with_cache ∅
       (with_receivers
          (connect_table (make_lookup_key receiver sender dispatch_uid)
             (connect_handle receiver weak) (receivers s)) s)) w1.

(** The table after the loop of [disconnect]. *)
Definition remove_first (key : lookup_key) (l : list entry) : list entry :=
  match list_find (fun r => r.1 = key) l with
  | Some (index, _) => delete index l
  | None => l
  end.

(** The world after [disconnect]. *)
Definition disconnected (receiver sender : pyobj) (dispatch_uid : pyval)
    (w : World) : World :=
  let s := compacted w in
  set_sig
    (with_cache ∅
       (with_receivers
          (remove_first (make_lookup_key receiver sender dispatch_uid)
             (receivers s)) s)) w.

(** What a caching signal stores for the handles it scanned. *)
Definition cached_value (handles : list handle) : cache_entry :=
  match handles with
  | [] => NO_RECEIVERS
  | _ => Cached handles
  end.

(** The world after the locked part of [_live_receivers]. *)
Definition rescanned (sender : pyobj) (w : World) : World :=
  let s := compacted w in
  if use_caching s
  then set_sig
         (with_cache
            (cache_store sender
               (cached_value (scan (_make_id sender) (receivers s)))
               (sender_receivers_cache s)) s) w
  else set_sig s w.

(** What the first lines of [_live_receivers] find in the cache. *)
Definition cache_hit (w : World) (sender : pyobj) : option cache_entry :=
  if use_caching (sig w) && negb (_dead_receivers (sig w))
  then cache_lookup (sender_receivers_cache (sig w)) sender
  else None.

(** The object a handle refers to. *)
Definition handle_obj (h : handle) : pyobj :=
  match h with Strong o | Weak o => o end.

(** ** Dispatch, in the words of the specification *)

Section DispatchSpec.

Variable call : pyobj → pyobj → kwargs → World → Res pyval * World.
Variable sender : pyobj.
Variable named : kwargs.

(** How the outcome of one receiver is treated by a loop: [send] lets an
    error through, [send_robust] records it when it is an [Exception]. *)
Definition propagate (x : Res pyval) : Res pyval := x.

Definition capture (x : Res pyval) : Res response :=
  match x with
  | Ok v => Ok (Returned v)
  | Raise err tb =>
      if exc_is_Exception err
      then Ok (Caught (attach_traceback err tb))
      else Raise err tb
  end.

(** A dispatch over the receivers [l] from world [w]: the receivers are
    called one after the other, each in the world left by the one
    before; the dispatch stops at the first call whose outcome the
    policy turns into a raise, and otherwise pairs every receiver with
    what the policy makes of its outcome.  The third argument lists the
    receivers that were called. *)
Inductive dispatch {R} (policy : Res pyval → Res R)
  : World → list pyobj → list pyobj → Res (list (pyobj * R)) → World → Prop :=
| dispatch_done w :
    dispatch policy w [] [] (Ok []) w
| dispatch_stop w receiver rest x w1 err tb :
    call receiver sender named w = (x, w1) →
    policy x = Raise err tb →
    dispatch policy w (receiver :: rest) [receiver] (Raise err tb) w1
| dispatch_next w receiver rest x w1 v called responses w2 :
    call receiver sender named w = (x, w1) →
    policy x = Ok v →
    dispatch policy w1 rest called (Ok responses) w2 →
    dispatch policy w (receiver :: rest) (receiver :: called)
      (Ok ((receiver, v) :: responses)) w2
| dispatch_abort w receiver rest x w1 v called err tb w2 :
    call receiver sender named w = (x, w1) →
    policy x = Ok v →
    dispatch policy w1 rest called (Raise err tb) w2 →
    dispatch policy w (receiver :: rest) (receiver :: called)
      (Raise err tb) w2.

(** The responses collected before a loop is entered only prefix its
    result. *)
Definition prefixed {R} (acc : list R) (x : Res (list R) * World * list event)
  : Res (list R) * World * list event :=
  match x with
  | (Ok l, w, t) => (Ok (acc ++ l), w, t)
  | (Raise err tb, w, t) => (Raise err tb, w, t)
  end.

End DispatchSpec.

(** An error among the responses of [send_robust] is an [Exception] that
    has its traceback. *)
Definition recorded (p : pyobj * response) : Prop :=
  match p.2 with
  | Returned _ => True
  | Caught err => exc_is_Exception err = true ∧ is_Some (__traceback__ err)
  end.

(** ** Resolution and the cache *)

(** The handles that still resolve. *)
Definition live_handles (d : gset positive) (l : list handle) : list handle :=
  filter (fun h => is_dead_ref d h = false) l.

Definition entry_handles (e : cache_entry) : list handle :=
  match e with
  | NO_RECEIVERS => []
  | Cached handles => handles
  end.

(** The live receivers currently connected for every sender or for
    [sender], in table order. *)
Definition matching_live (w : World) (sender : pyobj) : list pyobj :=
  non_weak_receivers (dead w) (scan (_make_id sender) (receivers (sig w))).

(** What the cache holds under a key agrees with the table, up to
    handles that no longer resolve, for a sender that has this key: the
    one the value was stored for. *)
Definition cache_consistent (w : World) : Prop :=
  ∀ k o e, sender_receivers_cache (sig w) !! k = Some (o, e) →
    ∃ s, key_of s = Some k
         ∧ live_handles (dead w) (entry_handles e)
           = live_handles (dead w) (scan (_make_id s) (receivers (sig w))).

(** What the cache holds under the key of [sender] agrees with the
    table for [sender] itself. *)
Definition cache_agrees (w : World) (sender : pyobj) : Prop :=
  ∀ e, cache_lookup (sender_receivers_cache (sig w)) sender = Some e →
    live_handles (dead w) (entry_handles e)
    = live_handles (dead w) (scan (_make_id sender) (receivers (sig w))).

(** The lines [send] and [send_robust] share: the quick exit, then
    [_live_receivers]. *)
Definition resolution (sender : pyobj) : M (list pyobj) :=
  empty <- nothing_to_send sender ;;
  if empty then ret [] else _live_receivers sender.

(** The world a resolution leaves: the one it found, or that one with
    the table compacted and possibly the scan cached. *)
Definition resolved (w w1 : World) : Prop :=
  w1 = w ∨ w1 = set_sig (compacted w) w ∨ ∃ sender, w1 = rescanned sender w.

(** C3 as stated: the receivers [send] invokes are, as a multiset, the
    live receivers connected for every sender or for this one. *)
Definition invokes_the_connected
    (call : pyobj → pyobj → kwargs → World → Res pyval * World)
    (sender : pyobj) (named : kwargs) (w : World) : Prop :=
  calls (trace (send call sender named w)) ≡ₚ matching_live w sender.

(** ** Sequences of operations *)

(** A freshly created signal in a heap where nothing has been collected. *)
Definition boot (args : list string) (caching : bool) : World :=
  {| sig := __init__ (Some args) caching; dead := ∅; finalizers := ∅ |}.

(** The heap once the object at [a] is gone: weak references to it are
    cleared, and the [WeakKeyDictionary] of a caching signal loses the
    entries whose stored key is gone. *)
Definition reclaimed (a : positive) (w : World) : World :=
  let s := sig w in
  let d := {[a]} ∪ dead w in
  {| sig :=
       with_cache
         (if use_caching s
          then filter (fun kv => obj_alive d kv.2.1 = true)
                 (sender_receivers_cache s)
          else sender_receivers_cache s) s;
     dead := d;
     finalizers := finalizers w |}.

(** The object at [a] is collected: if [connect] registered a finalizer
    on it, the finalizer calls [_remove_receiver]. *)
Definition collect (a : positive) (w : World) : World :=
  if bool_decide (a ∈ finalizers w)
  then final (_remove_receiver (reclaimed a w))
  else reclaimed a w.

(** A sender that was a temporary object (a bound method) is released: a
    caching signal drops the entry it is the stored key of. *)
Definition expire (sender : pyobj) (w : World) : World :=
  if use_caching (sig w)
  then set_sig
         (with_cache
            (filter (fun kv => kv.2.1 ≠ sender) (sender_receivers_cache (sig w)))
            (sig w)) w
  else w.

(** What happens to a signal: calls of its methods, and the two events of
    the heap above. *)
Inductive op :=
| Connect (receiver sender : pyobj) (weak : bool) (dispatch_uid : pyval)
| Disconnect (receiver sender : pyobj) (weak : bool) (dispatch_uid : pyval)
| HasListeners (sender : pyobj)
| Send (sender : pyobj) (named : kwargs)
| SendRobust (sender : pyobj) (named : kwargs)
| Collect (a : positive)
| Expire (sender : pyobj).

Section Runs.

Variable call : pyobj → pyobj → kwargs → World → Res pyval * World.

(** The world after one operation, whether it returned or raised. *)
Definition step (w : World) (o : op) : World :=
  match o with
  | Connect receiver sender weak dispatch_uid =>
      final (connect receiver sender weak dispatch_uid w)
  | Disconnect receiver sender weak dispatch_uid =>
      final (disconnect receiver sender weak dispatch_uid w)
  | HasListeners sender => final (has_listeners sender w)
  | Send sender named => final (send call sender named w)
  | SendRobust sender named => final (send_robust call sender named w)
  | Collect a => collect a w
  | Expire sender => expire sender w
  end.

Definition run (ops : list op) (w : World) : World := foldl step w ops.

(** A property of worlds that every elementary change of the world keeps,
    and that the receivers keep too. *)
Record invariant (P : World → Prop) : Prop := {
  inv_connected receiver sender weak dispatch_uid w :
    P w → P (connected receiver sender weak dispatch_uid w);
  inv_disconnected receiver sender dispatch_uid w :
    P w → P (disconnected receiver sender dispatch_uid w);
  inv_compacted w : P w → P (set_sig (compacted w) w);
  inv_rescanned sender w : P w → P (rescanned sender w);
  inv_collect a w : P w → P (collect a w);
  inv_expire sender w : P w → P (expire sender w);
  inv_call receiver sender named w :
    P w → P (call receiver sender named w).2
}.

End Runs.

(** No two entries of the table have the same lookup key. *)
Definition unique_keys (w : World) : Prop := NoDup (receivers (sig w)).*1.

(** A signal without caching whose cache holds nothing. *)
Definition cache_unused (w : World) : Prop :=
  use_caching (sig w) = false ∧ sender_receivers_cache (sig w) = ∅.

(** ** Concrete receivers, senders and worlds *)

Definition rA : pyobj := OObj 1.
Definition rB : pyobj := OObj 2.
Definition rC : pyobj := OObj 3.
Definition S1 : pyobj := OObj 10.
Definition S2 : pyobj := OObj 11.

Definition errB : exception :=
  {| exc_class := "ValueError"; exc_is_Exception := true; __traceback__ := None |}.

(** An error that is not an [Exception]. *)
Definition errK : exception :=
  {| exc_class := "KeyboardInterrupt"; exc_is_Exception := false;
     __traceback__ := None |}.

(** Two instances of a class that defines [__eq__] and [__hash__] from a
    field: they are equal and are not the same object. *)
Definition keyed : pyclass :=
  {| class_eq := ByValue (PInt 7); class_weakref := true |}.
Definition E1 : pyobj := OData 20 keyed.
Definition E2 : pyobj := OData 21 keyed.

(** A list, and a string. *)
Definition L1 : pyobj :=
  OData 30 {| class_eq := NoHash; class_weakref := false |}.
Definition T1 : pyobj :=
  OData 31 {| class_eq := ByValue (PStr "post_save"); class_weakref := false |}.

(** Every receiver returns its own identity. *)
Definition call_ok (receiver sender : pyobj) (named : kwargs) (w : World)
  : Res pyval * World :=
  (Ok (_make_id receiver), w).

(** As [call_ok], but [rB] raises. *)
Definition call_B_raises (receiver sender : pyobj) (named : kwargs) (w : World)
  : Res pyval * World :=
  if bool_decide (receiver = rB) then (Raise errB ["rB"], w)
  else (Ok (_make_id receiver), w).

(** As [call_ok], but [rB] is interrupted. *)
Definition call_B_interrupted (receiver sender : pyobj) (named : kwargs)
    (w : World) : Res pyval * World :=
  if bool_decide (receiver = rB) then (Raise errK ["rB"], w)
  else (Ok (_make_id receiver), w).

(** [rA], [rB], [rC] connected in that order for every sender, the first
    two weakly. *)
Definition world_ABC (caching : bool) : World :=
  run call_ok
    [Connect rA ONone true PNone; Connect rB ONone true PNone;
     Connect rC ONone false PNone]
    (boot [] caching).

(** [rA] connected for every sender, held strongly. *)
Definition world_A (caching : bool) : World :=
  run call_ok [Connect rA ONone false PNone] (boot [] caching).

(** [rA] connected for every sender, held weakly. *)
Definition world_A_weak (caching : bool) : World :=
  run call_ok [Connect rA ONone true PNone] (boot [] caching).

(** [rA] connected for [E1] only, held strongly. *)
Definition world_E1 (caching : bool) : World :=
  run call_ok [Connect rA E1 false PNone] (boot [] caching).

(** [rA] connected for [S1] only, [rB] for every sender. *)
Definition world_scoped (caching : bool) : World :=
  run call_ok
    [Connect rA S1 true PNone; Connect rB ONone true PNone]
    (boot [] caching).

(** A caching signal with [rA] connected that has cached the receivers of
    [S1]. *)
Definition world_cached : World :=
  run call_ok [Connect rA ONone true PNone; Send S1 []] (boot ["val"] true).

(** A caching signal with a bound method connected weakly and [rC] held
    strongly; the function of the method has been collected, which no
    finalizer reports. *)
Definition world_stale : World :=
  run call_ok
    [Connect (OMethod 5 6) ONone true PNone; Connect rC ONone false PNone;
     Collect 6]
    (boot [] true).

(** ** Collected receivers *)

(** The handle is a weak reference whose finalized object (the receiver,
    or the owner of a bound method) has been collected. *)
Definition owner_collected (d : gset positive) (h : handle) : bool :=
  match h with
  | Strong _ => false
  | Weak o =>
      match receiver_object o with
      | Some a => bool_decide (a ∈ d)
      | None => false
      end
  end.

(** Every weakly held receiver carries the finalizer [connect] gave it,
    and a collected one has raised the flag. *)
Definition deaths_flagged (w : World) : Prop :=
  (∀ e a, e ∈ receivers (sig w) → is_weak e.2 = true →
          receiver_object (handle_obj e.2) = Some a → a ∈ finalizers w)
  ∧ (∀ e, e ∈ receivers (sig w) → owner_collected (dead w) e.2 = true →
          _dead_receivers (sig w) = true).

(** An object that is passed to [connect] is alive. *)
Definition op_live (w : World) (o : op) : Prop :=
  match o with
  | Connect receiver _ _ _ => obj_alive (dead w) receiver = true
  | _ => True
  end.

Section LiveRuns.

Variable call : pyobj → pyobj → kwargs → World → Res pyval * World.

(** Every operation of the sequence is given live objects. *)
Fixpoint run_live (ops : list op) (w : World) : Prop :=
  match ops with
  | [] => True
  | o :: rest => op_live w o ∧ run_live rest (step call w o)
  end.

End LiveRuns.

(** ** Several signals, and the [receiver] decorator *)

(** Signal objects are numbered.  They share the heap; each has its own
    finalizers, which call its own [_remove_receiver]. *)
Record Store := {
  signal_at : nat → Signal;
  finalizers_at : nat → gset positive;
  collected : gset positive
}.

Definition world_of (st : Store) (s : nat) : World :=
  {| sig := signal_at st s;
     dead := collected st;
     finalizers := finalizers_at st s |}.

Definition store_put (s : nat) (w : World) (st : Store) : Store :=
  {| signal_at := fun i => if decide (i = s) then sig w else signal_at st i;
     finalizers_at :=
       fun i => if decide (i = s) then finalizers w else finalizers_at st i;
     collected := dead w |}.

(** A method call on the signal numbered [s]. *)
Definition on_signal {A} (s : nat) (m : M A) (st : Store)
  : Res A * Store * list event :=
  match m (world_of st s) with
  | (r, w, t) => (r, store_put s w st, t)
  end.

(** The keyword arguments handed on to [connect], with its defaults
    [sender=None, weak=True, dispatch_uid=None]. *)
Record connect_kwargs := {
  kw_sender : pyobj;
  kw_weak : bool;
  kw_dispatch_uid : pyval
}.

Definition default_kwargs : connect_kwargs :=
  {| kw_sender := ONone; kw_weak := true; kw_dispatch_uid := PNone |}.

(** The first argument of the decorator: a signal, or a list or tuple of
    signals. *)
Inductive signals_arg :=
| OneSignal (s : nat)
| SignalList (l : list nat).

(** [for s in signal: s.connect(func, **kwargs)] *)
Fixpoint connect_each (l : list nat) (func : pyobj) (kw : connect_kwargs)
    (st : Store) : Res unit * Store * list event :=
  match l with
  | [] => (Ok tt, st, [])
  | s :: rest =>
      match on_signal s
              (connect func (kw_sender kw) (kw_weak kw) (kw_dispatch_uid kw)) st
      with
      | (Ok _, st1, t1) =>
          match connect_each rest func kw st1 with
          | (r, st2, t2) => (r, st2, t1 ++ t2)
          end
      | (Raise err tb, st1, t1) => (Raise err tb, st1, t1)
      end
  end.

(** [receiver(signal, **kwargs)(func)], the decorator [receiver] of the
    module applied to a function. *)
Definition receiver_decorator (signal : signals_arg) (kw : connect_kwargs)
    (func : pyobj) (st : Store) : Res pyobj * Store * list event :=
  match
    match signal with
    | SignalList l => connect_each l func kw st
    | OneSignal s =>
        on_signal s
          (connect func (kw_sender kw) (kw_weak kw) (kw_dispatch_uid kw)) st
    end
  with
  | (Ok _, st1, t) => (Ok func, st1, t)
  | (Raise err tb, st1, t) => (Raise err tb, st1, t)
  end.

(** New signals, each created by [Signal(use_caching=caching s)], in a
    heap where nothing has been collected. *)
Definition new_store (caching : nat → bool) : Store :=
  {| signal_at := fun s => __init__ None (caching s);
     finalizers_at := fun _ => ∅;
     collected := ∅ |}.

(** ** What the decorator leaves *)

(** The signal numbered [s] holds an entry under the key that [connect]
    builds for [func], and is as a [connect] leaves it. *)
Definition decorated (func : pyobj) (kw : connect_kwargs) (st : Store)
    (s : nat) : Prop :=
  make_lookup_key func (kw_sender kw) (kw_dispatch_uid kw)
    ∈ (receivers (signal_at st s)).*1
  ∧ sender_receivers_cache (signal_at st s) = ∅
  ∧ _dead_receivers (signal_at st s) = false.

(** The signal numbered [s] holds the entry of [func] and no other. *)
Definition only_func (func : pyobj) (kw : connect_kwargs) (st : Store)
    (s : nat) : Prop :=
  receivers (signal_at st s)
  = [(make_lookup_key func (kw_sender kw) (kw_dispatch_uid kw),
      connect_handle func (kw_weak kw))]
  ∧ _dead_receivers (signal_at st s) = false.

(** * Properties *)

(** ** The loops as filters *)

Lemma scan_filter senderkey l :
  scan senderkey l = (filter (matches senderkey) l).*2.
Proof.
  induction l as [|[[receiverkey r_senderkey] h] l IH]; [done|].
  cbn [scan]. rewrite filter_cons. unfold matches at 1. cbn [fst snd].
  destruct (decide (r_senderkey = NONE_ID ∨ r_senderkey = senderkey)) as [Hm|Hm].
  - assert (bool_decide (r_senderkey = NONE_ID)
            || bool_decide (r_senderkey = senderkey) = true) as ->.
    { destruct Hm as [->| ->].
      - by rewrite bool_decide_eq_true_2.
      - rewrite (bool_decide_eq_true_2 (_ = senderkey)) by done.
        by rewrite orb_true_r. }
    cbn. by rewrite IH.
  - assert (bool_decide (r_senderkey = NONE_ID)
            || bool_decide (r_senderkey = senderkey) = false) as ->; [|done].
    apply orb_false_iff. split; apply bool_decide_eq_false_2; tauto.
Qed.

Lemma new_receivers_filter d l :
  new_receivers d l = filter (fun e => is_dead_ref d e.2 = false) l.
Proof.
  induction l as [|e l IH]; [done|].
  cbn [new_receivers]. rewrite filter_cons.
  destruct (is_dead_ref d e.2) eqn:E.
  - rewrite decide_False by done. done.
  - rewrite decide_True by done. by rewrite IH.
Qed.

Lemma non_weak_receivers_omap d l :
  non_weak_receivers d l = omap (deref d) l.
Proof.
  induction l as [|[o|o] l IH]; [done| |]; cbn.
  - by rewrite IH.
  - destruct (obj_alive d o); by rewrite IH.
Qed.

Lemma non_weak_receivers_app d l1 l2 :
  non_weak_receivers d (l1 ++ l2)
  = non_weak_receivers d l1 ++ non_weak_receivers d l2.
Proof. rewrite !non_weak_receivers_omap. apply omap_app. Qed.

Lemma scan_app k l1 l2 : scan k (l1 ++ l2) = scan k l1 ++ scan k l2.
Proof. rewrite !scan_filter, filter_app. apply fmap_app. Qed.

Lemma key_connected_elem key l :
  key_connected key l = true ↔ key ∈ l.*1.
Proof.
  induction l as [|[r_key h] l IH]; cbn.
  - split; [done|]. by intros ?%elem_of_nil.
  - rewrite elem_of_cons. case_bool_decide as E.
    + split; [by left|done].
    + rewrite IH. split; [by right|]. intros [?|?]; [congruence|done].
Qed.

(** Dropping the entries whose weak reference is gone does not change what
    a scan resolves to. *)
Lemma non_weak_scan_new_receivers d k l :
  non_weak_receivers d (scan k (new_receivers d l))
  = non_weak_receivers d (scan k l).
Proof.
  induction l as [|[[rk sk] h] l IH]; [done|].
  cbn [new_receivers snd]. destruct (is_dead_ref d h) eqn:E.
  - rewrite IH. cbn [scan].
    destruct (_ || _); [|done].
    destruct h as [o|o]; [done|]. cbn in E. cbn.
    by destruct (obj_alive d o).
  - cbn [scan]. destruct (_ || _); [|done].
    destruct h as [o|o]; cbn; rewrite IH; done.
Qed.

(** [_make_id] tells objects apart. *)
Lemma _make_id_inj o1 o2 : _make_id o1 = _make_id o2 → o1 = o2.
Proof.
  destruct o1 as [|a1|s1 f1|a1 c1], o2 as [|a2|s2 f2|a2 c2]; cbn;
    unfold id_None, data_id; intros H; inversion H as [E]; try done.
  apply (inj encode) in E. by simplify_eq.
Qed.

Lemma _make_id_NONE_ID o : _make_id o = NONE_ID ↔ o = ONone.
Proof.
  split; [|by intros ->]. unfold NONE_ID. apply _make_id_inj.
Qed.

(** ** The operations as transformations of the world *)

Lemma set_sig_sig w : set_sig (sig w) w = w.
Proof. by destruct w. Qed.

Lemma _clear_dead_receivers_run w :
  _clear_dead_receivers w = (Ok tt, set_sig (compacted w) w, []).
Proof.
  unfold _clear_dead_receivers, compacted, bind, get_sig, get_dead, put_sig, ret.
  destruct (_dead_receivers (sig w)); cbn; [done|]. by rewrite set_sig_sig.
Qed.

Lemma compacted_flag w : _dead_receivers (compacted w) = false.
Proof.
  unfold compacted. destruct (_dead_receivers (sig w)) eqn:E; done.
Qed.

Lemma compacted_use_caching w : use_caching (compacted w) = use_caching (sig w).
Proof. unfold compacted. by destruct (_dead_receivers (sig w)). Qed.

Lemma compacted_providing_args w :
  providing_args (compacted w) = providing_args (sig w).
Proof. unfold compacted. by destruct (_dead_receivers (sig w)). Qed.

Lemma compacted_cache w :
  sender_receivers_cache (compacted w) = sender_receivers_cache (sig w).
Proof. unfold compacted. by destruct (_dead_receivers (sig w)). Qed.

Lemma compacted_receivers w :
  receivers (compacted w)
  = if _dead_receivers (sig w)
    then new_receivers (dead w) (receivers (sig w))
    else receivers (sig w).
Proof. unfold compacted. by destruct (_dead_receivers (sig w)). Qed.

Lemma compacted_idem w s :
  _dead_receivers s = false →
  compacted (set_sig s w) = s.
Proof. intros H. unfold compacted. cbn. by rewrite H. Qed.

Lemma with_receivers_id s : with_receivers (receivers s) s = s.
Proof. by destruct s. Qed.

Lemma set_sig_twice s1 s2 w : set_sig s1 (set_sig s2 w) = set_sig s1 w.
Proof. done. Qed.

Lemma connect_run receiver sender weak dispatch_uid w :
  connect receiver sender weak dispatch_uid w =
  if weak && negb (weakly_referenceable receiver)
  then (Raise TypeError [], w, [])
  else (Ok tt, connected receiver sender weak dispatch_uid w, [EvLock]).
Proof.
  unfold connect, connected, connect_table, connect_handle.
  destruct weak; cbn [andb].
  - unfold bind at 1. unfold make_weak, with_finalizer.
    destruct (weakly_referenceable receiver) eqn:W; cbn [negb]; [|done].
    destruct (receiver_object receiver) as [a|] eqn:Ro;
      [|by destruct receiver].
    unfold with_lock, bind. rewrite _clear_dead_receivers_run.
    unfold get_sig. cbn [sig set_sig].
    destruct (key_connected _ _); cbn;
      rewrite ?with_receivers_id; done.
  - unfold bind at 1. unfold ret at 1.
    unfold with_lock, bind. rewrite _clear_dead_receivers_run.
    unfold get_sig. cbn [sig set_sig].
    destruct (key_connected _ _); cbn;
      rewrite ?with_receivers_id; done.
Qed.

Lemma list_find_key_connected key l :
  is_Some (list_find (fun r : entry => r.1 = key) l) ↔ key_connected key l = true.
Proof.
  rewrite key_connected_elem. split.
  - intros [[i e] H]. apply list_find_Some in H as (H & <- & _).
    apply list_elem_of_fmap. exists e. split; [done|].
    by eapply list_elem_of_lookup_2.
  - intros (e & -> & He)%list_elem_of_fmap.
    by eapply list_find_elem_of.
Qed.

Lemma disconnect_run receiver sender weak dispatch_uid w :
  disconnect receiver sender weak dispatch_uid w =
  (Ok (key_connected (make_lookup_key receiver sender dispatch_uid)
         (receivers (compacted w))),
   disconnected receiver sender dispatch_uid w, [EvLock]).
Proof.
  unfold disconnect, disconnected, remove_first.
  unfold with_lock, bind. rewrite _clear_dead_receivers_run.
  unfold get_sig. cbn [sig set_sig].
  pose proof (list_find_key_connected
    (make_lookup_key receiver sender dispatch_uid) (receivers (compacted w))) as H.
  destruct (list_find _ _) as [[index e]|] eqn:E; cbn.
  - assert (key_connected (make_lookup_key receiver sender dispatch_uid)
              (receivers (compacted w)) = true) as -> by (apply H; eauto).
    done.
  - destruct (key_connected _ _) eqn:K.
    + destruct H as [_ H]. destruct (H eq_refl) as [? ?]. done.
    + by rewrite with_receivers_id.
Qed.

Lemma cache_get_run sender w :
  cache_get sender w
  = if cache_key_ok (sig w) sender
    then (Ok (cache_lookup (sender_receivers_cache (sig w)) sender), w, [])
    else (Raise TypeError [], w, []).
Proof.
  unfold cache_get, cache_key_ok, cache_lookup, hashable, bind, get_sig, ret,
    raise.
  by destruct (use_caching (sig w)), (weakly_referenceable sender),
    (key_of sender).
Qed.

Lemma cache_set_run sender value w :
  cache_set sender value w
  = if cache_key_ok (sig w) sender
    then (Ok tt,
          set_sig
            (with_cache
               (cache_store sender value (sender_receivers_cache (sig w)))
               (sig w)) w, [])
    else (Raise TypeError [], w, []).
Proof.
  unfold cache_set, cache_key_ok, hashable, bind, get_sig, put_sig, raise.
  by destruct (use_caching (sig w)), (weakly_referenceable sender),
    (key_of sender).
Qed.

Lemma cache_key_ok_compacted w sender :
  cache_key_ok (compacted w) sender = cache_key_ok (sig w) sender.
Proof. unfold cache_key_ok. by rewrite compacted_use_caching. Qed.

Lemma _live_receivers_run sender w :
  _live_receivers sender w =
  if use_caching (sig w) && negb (_dead_receivers (sig w))
     && negb (cache_key_ok (sig w) sender)
  then (Raise TypeError [], w, [])
  else
    match cache_hit w sender with
    | Some NO_RECEIVERS => (Ok [], w, [])
    | Some (Cached handles) => (Ok (non_weak_receivers (dead w) handles), w, [])
    | None =>
        if negb (use_caching (sig w)) || cache_key_ok (sig w) sender
        then (Ok (non_weak_receivers (dead w)
                    (scan (_make_id sender) (receivers (compacted w)))),
              rescanned sender w, [EvLock])
        else (Raise TypeError [], set_sig (compacted w) w, [EvLock])
    end.
Proof.
  unfold _live_receivers, cache_hit, rescanned.
  pose proof (compacted_use_caching w) as CU.
  pose proof (cache_key_ok_compacted w sender) as CK.
  unfold bind at 1. unfold get_sig at 1.
  destruct (use_caching (sig w)) eqn:C; cbn [andb negb orb].
  - destruct (_dead_receivers (sig w)) eqn:D; cbn [andb negb].
    + unfold bind at 1. unfold ret at 1. cbn [app].
      unfold bind at 1. unfold with_lock, bind at 1.
      rewrite _clear_dead_receivers_run. unfold bind at 1, get_sig at 1.
      cbn [sig set_sig]. rewrite ?CU.
      destruct (scan _ _) eqn:S; unfold bind at 1; rewrite cache_set_run;
        cbn [sig set_sig]; rewrite CK;
        destruct (cache_key_ok (sig w) sender); cbn;
        unfold bind, ret, get_dead; cbn; done.
    + unfold bind at 1. rewrite cache_get_run.
      destruct (cache_key_ok (sig w) sender) eqn:K; cbn [negb]; [|done].
      cbn [app].
      destruct (cache_lookup (sender_receivers_cache (sig w)) sender)
        as [[|handles]|] eqn:L.
      * done.
      * unfold bind, ret, get_dead. done.
      * unfold bind at 1. unfold with_lock, bind at 1.
        rewrite _clear_dead_receivers_run. unfold bind at 1, get_sig at 1.
        cbn [sig set_sig]. rewrite ?CU.
        destruct (scan _ _) eqn:S; unfold bind at 1; rewrite cache_set_run;
          cbn [sig set_sig]; rewrite CK; cbn;
          unfold bind, ret, get_dead; cbn; done.
  - unfold bind at 1. unfold ret at 1. cbn [app].
    unfold bind at 1. unfold with_lock, bind at 1.
    rewrite _clear_dead_receivers_run. unfold bind at 1, get_sig at 1.
    cbn [sig set_sig]. rewrite ?CU.
    unfold bind, ret, get_dead. done.
Qed.

(** ** Dispatch loops *)

Section DispatchFacts.

Variable call : pyobj → pyobj → kwargs → World → Res pyval * World.
Variable sender : pyobj.
Variable named : kwargs.

Lemma nothing_to_send_run w :
  nothing_to_send sender w =
  match receivers (sig w) with
  | [] => (Ok true, w, [])
  | _ =>
      if cache_key_ok (sig w) sender
      then (Ok (bool_decide
                  (cache_lookup (sender_receivers_cache (sig w)) sender
                   = Some NO_RECEIVERS)),
            w, [])
      else (Raise TypeError [], w, [])
  end.
Proof.
  unfold nothing_to_send. unfold bind at 1. unfold get_sig at 1.
  destruct (receivers (sig w)); [done|].
  unfold bind. rewrite cache_get_run.
  destruct (cache_key_ok (sig w) sender); done.
Qed.

Lemma send_loop_acc l acc w :
  send_loop call sender named l acc w
  = prefixed acc (send_loop call sender named l [] w).
Proof.
  revert acc w. induction l as [|receiver rest IH]; intros acc w.
  - cbn. unfold ret. by rewrite app_nil_r.
  - cbn [send_loop]. unfold bind, invoke.
    destruct (call receiver sender named w) as [[v|err tb] w1]; [|done].
    rewrite (IH (acc ++ _)), (IH ([] ++ _)).
    destruct (send_loop call sender named rest [] w1) as [[[rs|err tb] w2] t2];
      cbn; [|done].
    by rewrite <- app_assoc.
Qed.

Lemma send_robust_loop_acc l acc w :
  send_robust_loop call sender named l acc w
  = prefixed acc (send_robust_loop call sender named l [] w).
Proof.
  revert acc w. induction l as [|receiver rest IH]; intros acc w.
  - cbn. unfold ret. by rewrite app_nil_r.
  - cbn [send_robust_loop]. unfold bind, try_invoke, invoke.
    destruct (call receiver sender named w) as [[v|err tb] w1].
    + rewrite (IH (acc ++ _)), (IH ([] ++ _)).
      destruct (send_robust_loop call sender named rest [] w1)
        as [[[rs|err tb] w2] t2]; cbn; [|done].
      by rewrite <- app_assoc.
    + destruct (exc_is_Exception err); [|done].
      rewrite (IH (acc ++ _)), (IH ([] ++ _)).
      destruct (send_robust_loop call sender named rest [] w1)
        as [[[rs|err' tb'] w2] t2]; cbn; [|done].
      by rewrite <- app_assoc.
Qed.

(** The loop of [send] is a dispatch that lets errors through. *)
Lemma send_loop_dispatch l w :
  let x := send_loop call sender named l [] w in
  dispatch call sender named propagate w l (calls (trace x)) (result x) (final x)
  ∧ locks (trace x) = 0%nat.
Proof.
  revert w. induction l as [|receiver rest IH]; intros w.
  - cbn. split; [constructor|done].
  - cbn zeta. cbn [send_loop]. unfold bind, invoke.
    destruct (call receiver sender named w) as [[v|err tb] w1] eqn:E.
    + rewrite send_loop_acc. specialize (IH w1). cbn zeta in IH.
      destruct (send_loop call sender named rest [] w1)
        as [[[rs|err tb] w2] t2]; cbn in *; destruct IH as [IH ?].
      * split; [|done]. by eapply dispatch_next.
      * split; [|done]. by eapply dispatch_abort.
    + cbn. split; [|done]. by eapply dispatch_stop.
Qed.

(** The loop of [send_robust] is a dispatch that captures errors. *)
Lemma send_robust_loop_dispatch l w :
  let x := send_robust_loop call sender named l [] w in
  dispatch call sender named capture w l (calls (trace x)) (result x) (final x)
  ∧ locks (trace x) = 0%nat.
Proof.
  revert w. induction l as [|receiver rest IH]; intros w.
  - cbn. split; [constructor|done].
  - cbn zeta. cbn [send_robust_loop]. unfold bind, try_invoke, invoke.
    specialize (IH).
    destruct (call receiver sender named w) as [[v|err tb] w1] eqn:E.
    + rewrite send_robust_loop_acc. specialize (IH w1). cbn zeta in IH.
      destruct (send_robust_loop call sender named rest [] w1)
        as [[[rs|err tb] w2] t2]; cbn in *; destruct IH as [IH ?].
      * split; [|done]. by eapply dispatch_next.
      * split; [|done]. by eapply dispatch_abort.
    + destruct (exc_is_Exception err) eqn:X.
      * rewrite send_robust_loop_acc. specialize (IH w1). cbn zeta in IH.
        destruct (send_robust_loop call sender named rest [] w1)
          as [[[rs|err' tb'] w2] t2]; cbn in *; destruct IH as [IH ?].
        -- split; [|done]. eapply dispatch_next; [done| |done].
           cbn. by rewrite X.
        -- split; [|done]. eapply dispatch_abort; [done| |done].
           cbn. by rewrite X.
      * cbn. split; [|done]. eapply dispatch_stop; [done|]. cbn. by rewrite X.
Qed.

(** What a dispatch guarantees, whatever the policy. *)
Lemma dispatch_called_prefix {R} (policy : Res pyval → Res R)
    w l called res w' :
  dispatch call sender named policy w l called res w' → called `prefix_of` l.
Proof.
  induction 1.
  - done.
  - by apply prefix_cons, prefix_nil.
  - by apply prefix_cons.
  - by apply prefix_cons.
Qed.

Lemma dispatch_ok_all {R} (policy : Res pyval → Res R)
    w l called responses w' :
  dispatch call sender named policy w l called (Ok responses) w' →
  called = l ∧ responses.*1 = l.
Proof.
  intros H. remember (Ok responses) as res eqn:E. revert responses E.
  induction H; intros rs E; try discriminate.
  - by inversion E.
  - inversion E; subst. destruct (IHdispatch _ eq_refl) as [-> <-]. done.
Qed.

(** A dispatch that raises stopped at the receiver called last, whose
    own outcome the policy did not absorb. *)
Lemma dispatch_raise_last {R} (policy : Res pyval → Res R)
    w l called err tb w' :
  dispatch call sender named policy w l called (Raise err tb) w' →
  ∃ before receiver after wr x,
    l = before ++ receiver :: after
    ∧ called = before ++ [receiver]
    ∧ call receiver sender named wr = (x, w')
    ∧ policy x = Raise err tb.
Proof.
  intros H. remember (Raise err tb) as res eqn:E.
  induction H; try discriminate.
  - inversion E; subst. exists [], receiver, rest, w, x. done.
  - destruct (IHdispatch E) as (before & r & after & wr & x' & -> & -> & ? & ?).
    exists (receiver :: before), r, after, wr, x'. done.
Qed.

Lemma capture_raise x err tb :
  capture x = Raise err tb → x = Raise err tb ∧ exc_is_Exception err = false.
Proof.
  destruct x as [v|e t]; cbn; [done|].
  destruct (exc_is_Exception e) eqn:X; [done|].
  intros H. inversion H; subst. done.
Qed.

(** The errors [send_robust] records carry a traceback. *)
Lemma attach_traceback_some err tb :
  is_Some (__traceback__ (attach_traceback err tb)).
Proof.
  unfold attach_traceback. destruct (__traceback__ err) eqn:E; cbn; eauto.
Qed.

Lemma attach_traceback_keeps err tb tb0 :
  __traceback__ err = Some tb0 →
  attach_traceback err tb = err.
Proof. unfold attach_traceback. by intros ->. Qed.

Lemma attach_traceback_sets err tb :
  __traceback__ err = None →
  __traceback__ (attach_traceback err tb) = Some tb
  ∧ exc_class (attach_traceback err tb) = exc_class err.
Proof. unfold attach_traceback. by intros ->. Qed.

End DispatchFacts.

(** ** Resolution and the cache *)

Lemma non_weak_receivers_live d l :
  non_weak_receivers d (live_handles d l) = non_weak_receivers d l.
Proof.
  unfold live_handles. induction l as [|[o|o] l IH]; [done| |].
  - rewrite filter_cons, decide_True by done.
    cbn [non_weak_receivers]. by rewrite IH.
  - rewrite filter_cons. cbn [is_dead_ref non_weak_receivers].
    destruct (obj_alive d o) eqn:E; cbn [negb].
    + rewrite decide_True by done. cbn [non_weak_receivers]. by rewrite E, IH.
    + rewrite decide_False by done. done.
Qed.

Lemma live_handles_resolve d l1 l2 :
  live_handles d l1 = live_handles d l2 →
  non_weak_receivers d l1 = non_weak_receivers d l2.
Proof.
  intros H. by rewrite <- (non_weak_receivers_live d l1), H,
    non_weak_receivers_live.
Qed.

Lemma live_scan_new_receivers d k l :
  live_handles d (scan k (new_receivers d l)) = live_handles d (scan k l).
Proof.
  unfold live_handles.
  induction l as [|[[rk sk] h] l IH]; [done|].
  cbn [new_receivers snd]. destruct (is_dead_ref d h) eqn:E.
  - rewrite IH. cbn [scan]. destruct (_ || _); [|done].
    rewrite filter_cons. rewrite decide_False; [done|]. by rewrite E.
  - cbn [scan]. destruct (_ || _); [|done].
    rewrite !filter_cons, IH. done.
Qed.

Lemma live_scan_compacted w k :
  live_handles (dead w) (scan k (receivers (compacted w)))
  = live_handles (dead w) (scan k (receivers (sig w))).
Proof.
  rewrite compacted_receivers. destruct (_dead_receivers (sig w)); [|done].
  apply live_scan_new_receivers.
Qed.

Lemma entry_handles_cached_value l : entry_handles (cached_value l) = l.
Proof. by destruct l. Qed.

Lemma obj_alive_mono d d' o :
  d ⊆ d' → obj_alive d' o = true → obj_alive d o = true.
Proof.
  intros Hd. destruct o as [|a|s f|a c]; cbn; [done| | |].
  - rewrite !bool_decide_eq_true. intros Ha Hin. apply Ha, Hd, Hin.
  - rewrite !andb_true_iff, !bool_decide_eq_true.
    intros [Hs Hf]. split; intros Hin; [apply Hs|apply Hf]; apply Hd, Hin.
  - rewrite !bool_decide_eq_true. intros Ha Hin. apply Ha, Hd, Hin.
Qed.

Lemma live_handles_mono d d' l :
  d ⊆ d' → live_handles d' (live_handles d l) = live_handles d' l.
Proof.
  intros Hd. unfold live_handles. induction l as [|h l IH]; [done|].
  rewrite !filter_cons. destruct (decide (is_dead_ref d h = false)) as [E|E].
  - rewrite filter_cons, IH. done.
  - rewrite IH. rewrite decide_False; [done|].
    destruct h as [o|o]; cbn in *; [done|].
    destruct (obj_alive d o) eqn:A; [done|].
    destruct (obj_alive d' o) eqn:A'; [|done].
    by rewrite (obj_alive_mono d d' o Hd A') in A.
Qed.

Lemma matching_live_compacted w sender :
  non_weak_receivers (dead w)
    (scan (_make_id sender) (receivers (compacted w)))
  = matching_live w sender.
Proof. apply live_handles_resolve, live_scan_compacted. Qed.

(** Compaction and rescanning keep the cache consistent. *)
Lemma cache_consistent_compacted w :
  cache_consistent w → cache_consistent (set_sig (compacted w) w).
Proof.
  intros H k o e. cbn [set_sig sig dead]. rewrite compacted_cache. intros L.
  destruct (H k o e L) as (s & Hk & E). exists s. split; [done|].
  by rewrite live_scan_compacted.
Qed.

Lemma cache_consistent_rescanned sender w :
  cache_consistent w → cache_consistent (rescanned sender w).
Proof.
  intros H. unfold rescanned.
  destruct (use_caching (compacted w)); [|by apply cache_consistent_compacted].
  intros k o e. cbn [set_sig sig dead with_cache sender_receivers_cache receivers].
  unfold cache_store. destruct (key_of sender) as [ks|] eqn:Ks.
  - rewrite lookup_insert. case_decide as E.
    + subst k. intros [= _ <-]. exists sender. split; [done|].
      by rewrite entry_handles_cached_value.
    + rewrite compacted_cache. intros L.
      destruct (H k o e L) as (s & Hk & Hs). exists s. split; [done|].
      by rewrite live_scan_compacted.
  - rewrite compacted_cache. intros L.
    destruct (H k o e L) as (s & Hk & Hs). exists s. split; [done|].
    by rewrite live_scan_compacted.
Qed.

Lemma cache_consistent_empty w :
  sender_receivers_cache (sig w) = ∅ → cache_consistent w.
Proof. intros E k o e. by rewrite E, lookup_empty. Qed.

(** For a sender that is compared by identity the value under its key
    was stored for it. *)
Lemma key_of_identity sender s :
  compared_by_identity sender = true →
  key_of s = key_of sender → s = sender.
Proof.
  unfold compared_by_identity. intros H%bool_decide_eq_true. rewrite H.
  destruct s as [| | |a c]; cbn; try by intros [= <-].
  destruct (class_eq c); by intros [= <-].
Qed.

Lemma cache_agrees_identity w sender :
  cache_consistent w →
  compared_by_identity sender = true →
  cache_agrees w sender.
Proof.
  intros H I e. unfold cache_lookup.
  destruct (key_of sender) as [k|] eqn:K; [|done].
  destruct (sender_receivers_cache (sig w) !! k) as [[o e']|] eqn:L; [|done].
  intros [= <-]. destruct (H k o e' L) as (s & Hk & E).
  rewrite (key_of_identity sender s I) in E; [done|]. by rewrite K.
Qed.

Lemma cache_agrees_empty w sender :
  sender_receivers_cache (sig w) = ∅ → cache_agrees w sender.
Proof.
  intros E e. unfold cache_lookup. rewrite E.
  destruct (key_of sender); [|done]. by rewrite lookup_empty.
Qed.

(** Under the key of any sender the cache holds what a scan gives for a
    sender that is equal to it. *)
Lemma cache_consistent_lookup w sender e :
  cache_consistent w →
  cache_lookup (sender_receivers_cache (sig w)) sender = Some e →
  ∃ s, key_of s = key_of sender
       ∧ live_handles (dead w) (entry_handles e)
         = live_handles (dead w) (scan (_make_id s) (receivers (sig w))).
Proof.
  intros H. unfold cache_lookup.
  destruct (key_of sender) as [k|] eqn:K; [|done].
  destruct (sender_receivers_cache (sig w) !! k) as [[o e']|] eqn:L; [|done].
  intros [= <-]. destruct (H k o e' L) as (s & Hk & E). by exists s.
Qed.

Lemma bind_assoc {A B C} (m : M A) (f : A → M B) (g : B → M C) w :
  bind (bind m f) g w = bind m (fun a => bind (f a) g) w.
Proof.
  unfold bind. destruct (m w) as [[[a|err tb] w1] t1]; [|done].
  destruct (f a w1) as [[[b|err tb] w2] t2]; [|done].
  destruct (g b w2) as [[r w3] t3]. by rewrite app_assoc.
Qed.

Lemma bind_ext {A B} (m : M A) (f g : A → M B) w :
  (∀ a w1, f a w1 = g a w1) → bind m f w = bind m g w.
Proof.
  intros H. unfold bind. destruct (m w) as [[[a|err tb] w1] t1]; [|done].
  by rewrite H.
Qed.

Lemma bind_ret {A B} (a : A) (f : A → M B) w : bind (ret a) f w = f a w.
Proof. unfold bind, ret. by destruct (f a w) as [[r w1] t1]. Qed.

Lemma send_resolution call sender named w :
  send call sender named w
  = (l <- resolution sender ;; send_loop call sender named l []) w.
Proof.
  unfold send, resolution. rewrite bind_assoc.
  apply bind_ext. intros [] w1; [|done]. by rewrite bind_ret.
Qed.

Lemma send_robust_resolution call sender named w :
  send_robust call sender named w
  = (l <- resolution sender ;; send_robust_loop call sender named l []) w.
Proof.
  unfold send_robust, resolution. rewrite bind_assoc.
  apply bind_ext. intros [] w1; [|done]. by rewrite bind_ret.
Qed.

Lemma resolution_resolved sender w :
  resolved w (final (resolution sender w))
  ∧ calls (trace (resolution sender w)) = [].
Proof.
  unfold resolution, bind. rewrite nothing_to_send_run.
  destruct (receivers (sig w)) eqn:R; [by split; [left|]|].
  destruct (cache_key_ok (sig w) sender) eqn:K; [|by split; [left|]].
  case_bool_decide as N; [by split; [left|]|].
  rewrite _live_receivers_run.
  destruct (_ && _ && _); [by split; [left|]|].
  destruct (cache_hit w sender) as [[|handles]|];
    [by split; [left|]|by split; [left|]|].
  rewrite K, orb_true_r. split; [|done]. right. right. by exists sender.
Qed.

(** With a cache that agrees with the table for a sender it can look
    up, the resolution yields the live matching receivers of the
    table. *)
Lemma resolution_ok sender w :
  cache_agrees w sender →
  cache_key_ok (sig w) sender = true →
  result (resolution sender w) = Ok (matching_live w sender).
Proof.
  intros H K. unfold resolution, bind. rewrite nothing_to_send_run.
  destruct (receivers (sig w)) eqn:R.
  { cbn. unfold matching_live. by rewrite R. }
  rewrite K. case_bool_decide as N.
  { cbn. unfold result. cbn. f_equal. unfold matching_live.
    pose proof (H _ N) as E. symmetry.
    rewrite <- non_weak_receivers_live, <- E. done. }
  rewrite _live_receivers_run. rewrite K. cbn [negb].
  rewrite andb_false_r, orb_true_r.
  unfold cache_hit.
  destruct (use_caching (sig w) && negb (_dead_receivers (sig w))) eqn:C.
  - destruct (cache_lookup (sender_receivers_cache (sig w)) sender)
      as [[|handles]|] eqn:L.
    + done.
    + cbn. unfold result. cbn. f_equal. unfold matching_live.
      apply live_handles_resolve. apply (H _ L).
    + cbn. unfold result. cbn. f_equal.
      apply matching_live_compacted.
  - cbn. unfold result. cbn. f_equal.
    apply matching_live_compacted.
Qed.

(** Without such a sender the resolution raises [TypeError] as soon as
    the table is not empty. *)
Lemma resolution_bad_key sender w :
  cache_key_ok (sig w) sender = false →
  receivers (sig w) ≠ [] →
  resolution sender w = (Raise TypeError [], w, []).
Proof.
  intros K R. unfold resolution, bind. rewrite nothing_to_send_run.
  destruct (receivers (sig w)); [done|]. by rewrite K.
Qed.

(** ** Sequences of operations *)

Section RunFacts.

Variable call : pyobj → pyobj → kwargs → World → Res pyval * World.

Lemma final_bind {A B} (m : M A) (k : A → M B) w :
  final (bind m k w)
  = match result (m w) with
    | Ok a => final (k a (final (m w)))
    | Raise _ _ => final (m w)
    end.
Proof.
  unfold bind, final, result.
  destruct (m w) as [[[a|err tb] w1] t1]; cbn; [|done].
  by destruct (k a w1) as [[r w2] t2].
Qed.

Lemma resolved_invariant P w w1 :
  invariant call P → resolved w w1 → P w → P w1.
Proof.
  intros I [->|[->|[sender ->]]] H; [done| |].
  - by apply (inv_compacted call).
  - by apply (inv_rescanned call).
Qed.

Lemma _live_receivers_resolved sender w :
  resolved w (final (_live_receivers sender w)).
Proof.
  rewrite _live_receivers_run.
  destruct (_ && _ && _); [by left|].
  destruct (cache_hit w sender) as [[|handles]|]; [by left|by left|].
  destruct (_ || _).
  - right. right. by exists sender.
  - right. by left.
Qed.

Lemma send_loop_invariant P sender named l acc w :
  invariant call P → P w → P (final (send_loop call sender named l acc w)).
Proof.
  intros I. revert acc w. induction l as [|receiver rest IH]; intros acc w H.
  - done.
  - cbn [send_loop]. rewrite final_bind. unfold invoke, result, final.
    pose proof (inv_call call P I receiver sender named w H) as Hc.
    destruct (call receiver sender named w) as [[v|err tb] w1]; cbn in *.
    + by apply IH.
    + done.
Qed.

Lemma send_robust_loop_invariant P sender named l acc w :
  invariant call P → P w → P (final (send_robust_loop call sender named l acc w)).
Proof.
  intros I. revert acc w. induction l as [|receiver rest IH]; intros acc w H.
  - done.
  - cbn [send_robust_loop]. rewrite final_bind.
    unfold try_invoke, invoke, result, final.
    pose proof (inv_call call P I receiver sender named w H) as Hc.
    destruct (call receiver sender named w) as [[v|err tb] w1]; cbn in *.
    + by apply IH.
    + destruct (exc_is_Exception err); cbn; [by apply IH|done].
Qed.

Lemma step_invariant P w o : invariant call P → P w → P (step call w o).
Proof.
  intros I H. destruct o as [r s weak uid|r s weak uid|s|s n|s n|a|s]; cbn.
  - rewrite connect_run. destruct (_ && _); [done|].
    by apply (inv_connected call).
  - rewrite disconnect_run. by apply (inv_disconnected call).
  - unfold has_listeners. rewrite final_bind.
    pose proof (_live_receivers_resolved s w) as R.
    destruct (result (_live_receivers s w));
      by eapply resolved_invariant.
  - rewrite send_resolution, final_bind.
    pose proof (resolution_resolved s w) as [R _].
    destruct (result (resolution s w)).
    + apply send_loop_invariant; [done|]. by eapply resolved_invariant.
    + by eapply resolved_invariant.
  - rewrite send_robust_resolution, final_bind.
    pose proof (resolution_resolved s w) as [R _].
    destruct (result (resolution s w)).
    + apply send_robust_loop_invariant; [done|]. by eapply resolved_invariant.
    + by eapply resolved_invariant.
  - by apply (inv_collect call).
  - by apply (inv_expire call).
Qed.

Lemma run_invariant P ops w : invariant call P → P w → P (run call ops w).
Proof.
  intros I. revert w. induction ops as [|o ops IH]; intros w H; [done|].
  cbn. apply IH. by apply step_invariant.
Qed.

End RunFacts.

(** ** Invariants of the signal *)

Lemma new_receivers_sublist d l : new_receivers d l `sublist_of` l.
Proof. rewrite new_receivers_filter. apply sublist_filter. Qed.

Lemma compacted_sublist w :
  receivers (compacted w) `sublist_of` receivers (sig w).
Proof.
  rewrite compacted_receivers. destruct (_dead_receivers (sig w)); [|done].
  apply new_receivers_sublist.
Qed.

Lemma remove_first_sublist key l : remove_first key l `sublist_of` l.
Proof.
  unfold remove_first.
  repeat case_match; [apply sublist_delete|reflexivity].
Qed.

Lemma NoDup_keys_sublist (l1 l2 : list entry) :
  l1 `sublist_of` l2 → NoDup l2.*1 → NoDup l1.*1.
Proof.
  intros S N. eapply sublist_NoDup; [done|]. by apply fmap_sublist.
Qed.

Lemma connect_table_NoDup key h l :
  NoDup l.*1 → NoDup (connect_table key h l).*1.
Proof.
  intros N. unfold connect_table. destruct (key_connected key l) eqn:K; [done|].
  rewrite fmap_app. apply NoDup_app. split_and!; [done| |].
  - intros x Hx [->|[]%elem_of_nil]%elem_of_cons. cbn in Hx.
    apply key_connected_elem in Hx. congruence.
  - cbn. apply NoDup_singleton.
Qed.

Lemma with_finalizer_sig receiver w : sig (with_finalizer receiver w) = sig w.
Proof. unfold with_finalizer. by destruct (receiver_object receiver). Qed.

Lemma with_finalizer_dead receiver w :
  dead (with_finalizer receiver w) = dead w.
Proof. unfold with_finalizer. by destruct (receiver_object receiver). Qed.

Lemma compacted_with_finalizer receiver w :
  compacted (with_finalizer receiver w) = compacted w.
Proof.
  unfold compacted. by rewrite with_finalizer_sig, with_finalizer_dead.
Qed.

(** The signal [connect] starts from, once it holds the lock. *)
Lemma connected_compacted receiver sender weak dispatch_uid w :
  sig (connected receiver sender weak dispatch_uid w)
  = with_cache ∅
      (with_receivers
         (connect_table (make_lookup_key receiver sender dispatch_uid)
            (connect_handle receiver weak) (receivers (compacted w)))
         (compacted w)).
Proof.
  unfold connected. destruct weak; cbn [sig set_sig];
    by rewrite ?compacted_with_finalizer.
Qed.

Lemma connected_dead receiver sender weak dispatch_uid w :
  dead (connected receiver sender weak dispatch_uid w) = dead w.
Proof.
  unfold connected. destruct weak; cbn [dead set_sig];
    by rewrite ?with_finalizer_dead.
Qed.

(** What a collection changes. *)
Lemma collect_dead a w : dead (collect a w) = {[a]} ∪ dead w.
Proof. unfold collect. by case_bool_decide. Qed.

Lemma collect_finalizers a w : finalizers (collect a w) = finalizers w.
Proof. unfold collect. by case_bool_decide. Qed.

Lemma collect_receivers a w :
  receivers (sig (collect a w)) = receivers (sig w).
Proof. unfold collect. by case_bool_decide. Qed.

Lemma collect_use_caching a w :
  use_caching (sig (collect a w)) = use_caching (sig w).
Proof. unfold collect. by case_bool_decide. Qed.

Lemma collect_providing_args a w :
  providing_args (sig (collect a w)) = providing_args (sig w).
Proof. unfold collect. by case_bool_decide. Qed.

Lemma collect_flag a w :
  _dead_receivers (sig (collect a w))
  = _dead_receivers (sig w) || bool_decide (a ∈ finalizers w).
Proof.
  unfold collect. case_bool_decide; cbn; by rewrite ?orb_true_r, ?orb_false_r.
Qed.

Lemma collect_cache a w :
  sender_receivers_cache (sig (collect a w))
  = if use_caching (sig w)
    then filter (fun kv => obj_alive ({[a]} ∪ dead w) kv.2.1 = true)
           (sender_receivers_cache (sig w))
    else sender_receivers_cache (sig w).
Proof. unfold collect. by case_bool_decide. Qed.

Section Invariants.

Variable call : pyobj → pyobj → kwargs → World → Res pyval * World.

Lemma unique_keys_invariant :
  (∀ receiver sender named w,
      unique_keys w → unique_keys (call receiver sender named w).2) →
  invariant call unique_keys.
Proof.
  intros Hcall. unfold unique_keys. split.
  - intros r s weak uid w H. rewrite connected_compacted. cbn.
    apply connect_table_NoDup.
    eapply NoDup_keys_sublist; [apply compacted_sublist|done].
  - intros r s uid w H. cbn.
    eapply NoDup_keys_sublist; [apply remove_first_sublist|].
    eapply NoDup_keys_sublist; [apply compacted_sublist|done].
  - intros w H. cbn.
    eapply NoDup_keys_sublist; [apply compacted_sublist|done].
  - intros s w H. unfold rescanned.
    destruct (use_caching (compacted w)); cbn;
      (eapply NoDup_keys_sublist; [apply compacted_sublist|done]).
  - intros a w H. by rewrite collect_receivers.
  - intros s w H. unfold expire. by destruct (use_caching (sig w)).
  - apply Hcall.
Qed.

Lemma cache_consistent_invariant :
  (∀ receiver sender named w,
      cache_consistent w → cache_consistent (call receiver sender named w).2) →
  invariant call cache_consistent.
Proof.
  intros Hcall. split.
  - intros r s weak uid w H. apply cache_consistent_empty.
    by rewrite connected_compacted.
  - intros r s uid w H. by apply cache_consistent_empty.
  - apply cache_consistent_compacted.
  - apply cache_consistent_rescanned.
  - intros a w H k o e.
    rewrite collect_cache, collect_dead, collect_receivers. intros L.
    assert (sender_receivers_cache (sig w) !! k = Some (o, e)) as L'.
    { destruct (use_caching (sig w)); [|done].
      by apply map_lookup_filter_Some in L as [L _]. }
    destruct (H k o e L') as (s & Hk & E). exists s. split; [done|].
    assert (dead w ⊆ {[a]} ∪ dead w) as Hd by apply union_subseteq_r.
    rewrite <- (live_handles_mono _ _ (entry_handles e) Hd).
    rewrite E. by apply live_handles_mono.
  - intros s0 w H. unfold expire. destruct (use_caching (sig w)); [|done].
    intros k o e. cbn [set_sig sig dead with_cache sender_receivers_cache
      receivers].
    intros [L _]%map_lookup_filter_Some. by apply (H k o e).
  - apply Hcall.
Qed.

Lemma cache_unused_invariant :
  (∀ receiver sender named w,
      cache_unused w → cache_unused (call receiver sender named w).2) →
  invariant call cache_unused.
Proof.
  intros Hcall. unfold cache_unused. split.
  - intros r s weak uid w [H1 H2]. rewrite connected_compacted. cbn.
    by rewrite compacted_use_caching.
  - intros r s uid w [H1 H2]. cbn. by rewrite compacted_use_caching.
  - intros w [H1 H2]. cbn. by rewrite compacted_use_caching, compacted_cache.
  - intros s w [H1 H2]. unfold rescanned.
    rewrite compacted_use_caching, H1. cbn.
    by rewrite compacted_use_caching, compacted_cache.
  - intros a w [H1 H2]. by rewrite collect_use_caching, collect_cache, H1.
  - intros s w [H1 H2]. unfold expire. by rewrite H1.
  - apply Hcall.
Qed.

End Invariants.

Lemma boot_unique_keys args caching : unique_keys (boot args caching).
Proof. unfold unique_keys. cbn. constructor. Qed.

Lemma boot_cache_consistent args caching : cache_consistent (boot args caching).
Proof. by apply cache_consistent_empty. Qed.

Lemma boot_cache_unused args : cache_unused (boot args false).
Proof. done. Qed.

(** ** What [send] does *)

(** With a cache that agrees with the table for a sender it can look up,
    [send] is a dispatch over the live matching receivers that lets
    errors through. *)
Lemma send_dispatches call sender named w :
  cache_agrees w sender →
  cache_key_ok (sig w) sender = true →
  let x := send call sender named w in
  ∃ w1, resolved w w1
    ∧ dispatch call sender named propagate w1 (matching_live w sender)
        (calls (trace x)) (result x) (final x).
Proof.
  intros H K x. subst x. rewrite send_resolution.
  pose proof (resolution_ok sender w H K) as Hr.
  pose proof (resolution_resolved sender w) as [Hw Hc].
  unfold bind. destruct (resolution sender w) as [[r w1] t1].
  unfold result in Hr. cbn in Hr, Hw, Hc. subst r.
  pose proof (send_loop_dispatch call sender named (matching_live w sender) w1)
    as [Hd _].
  cbn zeta in Hd.
  destruct (send_loop call sender named (matching_live w sender) [] w1)
    as [[r w2] t2].
  exists w1. split; [done|].
  unfold trace, result, final in *. cbn in *.
  unfold calls in *. by rewrite omap_app, Hc.
Qed.

(** With a sender the cache cannot look up, [send] raises [TypeError]
    before it calls anything, unless the table is empty. *)
Lemma send_bad_key call sender named w :
  cache_key_ok (sig w) sender = false →
  send call sender named w
  = match receivers (sig w) with
    | [] => (Ok [], w, [])
    | _ => (Raise TypeError [], w, [])
    end.
Proof.
  intros K. unfold send, bind. rewrite nothing_to_send_run.
  destruct (receivers (sig w)); [done|]. by rewrite K.
Qed.

Lemma send_robust_bad_key call sender named w :
  cache_key_ok (sig w) sender = false →
  send_robust call sender named w
  = match receivers (sig w) with
    | [] => (Ok [], w, [])
    | _ => (Raise TypeError [], w, [])
    end.
Proof.
  intros K. unfold send_robust, bind. rewrite nothing_to_send_run.
  destruct (receivers (sig w)); [done|]. by rewrite K.
Qed.


(** The receivers [send] calls are among the live matching ones. *)
Lemma send_calls_prefix call sender named w :
  cache_agrees w sender →
  calls (trace (send call sender named w)) `prefix_of` matching_live w sender.
Proof.
  intros H. destruct (cache_key_ok (sig w) sender) eqn:K.
  - destruct (send_dispatches call sender named w H K) as (w1 & _ & D).
    by eapply dispatch_called_prefix.
  - rewrite send_bad_key by done.
    destruct (receivers (sig w)); apply prefix_nil.
Qed.

Lemma matching_live_elem w sender r :
  r ∈ matching_live w sender ↔
  ∃ e, e ∈ receivers (sig w) ∧ matches (_make_id sender) e
       ∧ deref (dead w) e.2 = Some r.
Proof.
  unfold matching_live.
  rewrite non_weak_receivers_omap, list_elem_of_omap. split.
  - intros (h & Hh & Hd). rewrite scan_filter in Hh.
    apply list_elem_of_fmap in Hh as (e & -> & He).
    apply list_elem_of_filter in He as [Hm He]. by exists e.
  - intros (e & He & Hm & Hd). exists e.2. split; [|done].
    rewrite scan_filter. apply list_elem_of_fmap. exists e. split; [done|].
    by apply list_elem_of_filter.
Qed.

Lemma deref_handle_obj d h r : deref d h = Some r → handle_obj h = r.
Proof.
  destruct h as [o|o]; cbn; [by intros [= ->]|].
  destruct (obj_alive d o); [by intros [= ->]|done].
Qed.

(** ** The concrete worlds *)

Lemma world_ABC_receivers caching :
  receivers (sig (world_ABC caching))
  = [((PInt 1, PInt 0), Weak rA); ((PInt 2, PInt 0), Weak rB);
     ((PInt 3, PInt 0), Strong rC)].
Proof. by destruct caching. Qed.

Lemma call_ok_keeps (P : World → Prop) receiver sender named w :
  P w → P (call_ok receiver sender named w).2.
Proof. done. Qed.

Lemma call_B_raises_keeps (P : World → Prop) receiver sender named w :
  P w → P (call_B_raises receiver sender named w).2.
Proof. unfold call_B_raises. by case_bool_decide. Qed.

Lemma world_ABC_cache_consistent caching : cache_consistent (world_ABC caching).
Proof.
  unfold world_ABC. apply run_invariant; [|apply boot_cache_consistent].
  apply cache_consistent_invariant. intros. by apply call_ok_keeps.
Qed.

(** ** Runs on concrete inputs *)

Example truthy_values :
  truthy (PInt 0) = false ∧ truthy (PStr EmptyString) = false
  ∧ truthy PNone = false ∧ truthy (PTuple []) = false
  ∧ truthy (PInt 7) = true ∧ truthy (PStr "uid") = true.
Proof. by vm_compute. Qed.

Example _make_id_values :
  _make_id ONone = PInt 0 ∧ _make_id (OObj 7) = PInt 7
  ∧ _make_id (OMethod 5 6) = PTuple [5; 6] ∧ NONE_ID = PInt 0.
Proof. by vm_compute. Qed.

(** [rA], [rB], [rC] with [rB] raising: [send] stops at [rB],
    [send_robust] goes on to [rC]. *)
Example send_ABC :
  send call_B_raises S1 [] (world_ABC false)
  = (Raise errB ["rB"], world_ABC false, [EvLock; EvCall rA; EvCall rB]).
Proof. by vm_compute. Qed.

Example send_robust_ABC :
  result (send_robust call_B_raises S1 [] (world_ABC false))
  = Ok [(rA, Returned (PInt 1));
        (rB, Caught {| exc_class := "ValueError"; exc_is_Exception := true;
                       __traceback__ := Some ["rB"] |});
        (rC, Returned (PInt 3))]
  ∧ calls (trace (send_robust call_B_raises S1 [] (world_ABC false)))
    = [rA; rB; rC].
Proof. by vm_compute. Qed.

(** The second [connect] of the same receiver changes nothing; a weakly
    held receiver that is collected is gone after the next compaction. *)
Example connect_twice :
  receivers (sig (run call_ok
    [Connect rA S1 true PNone; Connect rA S1 false PNone] (boot [] false)))
  = [((PInt 1, PInt 10), Weak rA)].
Proof. by vm_compute. Qed.

Example collected_receiver :
  let w := run call_ok [Collect 1] (world_ABC false) in
  _dead_receivers (sig w) = true
  ∧ result (send call_ok S1 [] w) = Ok [(rB, PInt 2); (rC, PInt 3)]
  ∧ receivers (sig (final (send call_ok S1 [] w)))
    = [((PInt 2, PInt 0), Weak rB); ((PInt 3, PInt 0), Strong rC)]
  ∧ result (disconnect rA ONone true PNone w) = Ok false.
Proof. by vm_compute. Qed.

(** With caching, the second [send] finds the handles in the cache and
    takes no lock. *)
Example send_cached :
  trace (send call_ok S1 [] world_cached) = [EvCall rA]
  ∧ trace (send call_ok S1 [] (run call_ok [Connect rA ONone true PNone]
                                 (boot ["val"] true)))
    = [EvLock; EvCall rA].
Proof. by vm_compute. Qed.

(** ** C1: [send] is fail-fast *)

(** C1 as stated fails: with [rA], [rB], [rC] connected in that order and
    [rB] raising, [send] calls [rA] and [rB] and then raises the error of
    [rB]; it does not return the pair collected for [rA]. *)
Lemma send_discards_partial_responses :
  let x := send call_B_raises S1 [] (world_ABC false) in
  matching_live (world_ABC false) S1 = [rA; rB; rC]
  ∧ calls (trace x) = [rA; rB]
  ∧ result x = Raise errB ["rB"]
  ∧ ¬ (∃ responses, result x = Ok responses).
Proof.
  assert (send call_B_raises S1 [] (world_ABC false)
          = (Raise errB ["rB"], world_ABC false,
             [EvLock; EvCall rA; EvCall rB])) as E by by vm_compute.
  cbn zeta. rewrite E. split_and!; [by vm_compute|done|done|].
  by intros [responses ?].
Qed.

(** C1, amended.  In a world whose cache is consistent, for a sender
    that is compared by identity and that the cache can look up, [send]
    is a dispatch over the live receivers matching the sender, in table
    order, that lets errors through: the called receivers are a prefix
    of them; when [send] returns, all of them were called and the result
    pairs each with what it returned; when [send] raises, the raise is
    the outcome of the receiver called last, the receivers after it are
    not called, and no list of responses is returned; and [send] returns
    when no receiver raises. *)
Theorem send_fail_fast call sender named w :
  cache_consistent w →
  compared_by_identity sender = true →
  cache_key_ok (sig w) sender = true →
  let x := send call sender named w in
  let l := matching_live w sender in
  (∃ w1, resolved w w1
     ∧ dispatch call sender named propagate w1 l
         (calls (trace x)) (result x) (final x))
  ∧ calls (trace x) `prefix_of` l
  ∧ (∀ responses, result x = Ok responses →
       calls (trace x) = l ∧ responses.*1 = l)
  ∧ (∀ err tb, result x = Raise err tb →
       ∃ before receiver after wr,
         l = before ++ receiver :: after
         ∧ calls (trace x) = before ++ [receiver]
         ∧ call receiver sender named wr = (Raise err tb, final x))
  ∧ ((∀ receiver w0 err tb w0',
         call receiver sender named w0 ≠ (Raise err tb, w0')) →
     ∃ responses, result x = Ok responses).
Proof.
  intros H I K x l.
  pose proof (send_dispatches call sender named w
                (cache_agrees_identity w sender H I) K) as D.
  split; [done|]. destruct D as (w1 & _ & D).
  assert (∀ err tb, result x = Raise err tb →
       ∃ before receiver after wr,
         l = before ++ receiver :: after
         ∧ calls (trace x) = before ++ [receiver]
         ∧ call receiver sender named wr = (Raise err tb, final x)) as Hraise.
  { intros err tb E. subst x. rewrite E in D.
    apply dispatch_raise_last in D
      as (before & receiver & after & wr & y & ? & ? & ? & Hp).
    unfold propagate in Hp. subst y. by exists before, receiver, after, wr. }
  split_and!.
  - by eapply dispatch_called_prefix.
  - intros responses E. subst x. rewrite E in D. by eapply dispatch_ok_all.
  - done.
  - intros Hno. destruct (result x) as [responses|err tb] eqn:E; [by eexists|].
    destruct (Hraise err tb eq_refl) as (? & receiver & ? & wr & _ & _ & Hc).
    by apply Hno in Hc.
Qed.

Lemma send_fail_fast_witness :
  cache_consistent (world_ABC true)
  ∧ compared_by_identity S1 = true
  ∧ cache_key_ok (sig (world_ABC true)) S1 = true
  ∧ matching_live (world_ABC true) S1 = [rA; rB; rC]
  ∧ (let x := send call_B_raises S1 [] (world_ABC true) in
     calls (trace x) `prefix_of` [rA; rB; rC]
     ∧ ∃ before receiver after wr,
         [rA; rB; rC] = before ++ receiver :: after
         ∧ calls (trace x) = before ++ [receiver]
         ∧ call_B_raises receiver S1 [] wr = (Raise errB ["rB"], final x)).
Proof.
  split; [apply world_ABC_cache_consistent|]. split; [reflexivity|].
  split; [reflexivity|].
  assert (matching_live (world_ABC true) S1 = [rA; rB; rC]) as El
    by (vm_compute; reflexivity).
  split; [exact El|].
  destruct (send_fail_fast call_B_raises S1 [] (world_ABC true)
              (world_ABC_cache_consistent true) eq_refl eq_refl)
    as (_ & Hp & _ & Hr & _).
  cbn zeta in *. rewrite El in Hp, Hr. split; [exact Hp|].
  apply Hr. vm_compute. reflexivity.
Defined.

(** ** C2: [send_robust] captures errors *)

Lemma attach_traceback_is_Exception err tb :
  exc_is_Exception (attach_traceback err tb) = exc_is_Exception err.
Proof. unfold attach_traceback. by destruct (__traceback__ err). Qed.

Lemma dispatch_capture_recorded call sender named w l called responses w' :
  dispatch call sender named capture w l called (Ok responses) w' →
  Forall recorded responses.
Proof.
  intros H. remember (Ok responses) as res eqn:E. revert responses E.
  induction H as [|? ? ? ? ? ? ? ? ?|w receiver rest x w1 v called rs w2 Hc Hp H IH|];
    intros responses E; try discriminate.
  - inversion E. constructor.
  - inversion E; subst. constructor; [|by apply IH].
    unfold recorded. cbn. destruct x as [v0|err tb]; cbn in Hp.
    + by inversion Hp.
    + destruct (exc_is_Exception err) eqn:X; [|done]. inversion Hp.
      split; [by rewrite attach_traceback_is_Exception|].
      apply attach_traceback_some.
Qed.

Lemma send_robust_loop_returns call sender named l w :
  (∀ receiver w0 err tb w0',
      call receiver sender named w0 = (Raise err tb, w0') →
      exc_is_Exception err = true) →
  ∃ responses, result (send_robust_loop call sender named l [] w) = Ok responses.
Proof.
  intros Hcall. revert w. induction l as [|receiver rest IH]; intros w.
  - by exists [].
  - cbn [send_robust_loop]. unfold bind, try_invoke, invoke.
    destruct (call receiver sender named w) as [[v|err tb] w1] eqn:E.
    + rewrite send_robust_loop_acc. destruct (IH w1) as [rs Hrs].
      destruct (send_robust_loop call sender named rest [] w1)
        as [[r w2] t2]. unfold result in Hrs. cbn in Hrs. subst r.
      cbn. by eexists.
    + rewrite (Hcall _ _ _ _ _ E).
      rewrite send_robust_loop_acc. destruct (IH w1) as [rs Hrs].
      destruct (send_robust_loop call sender named rest [] w1)
        as [[r w2] t2]. unfold result in Hrs. cbn in Hrs. subst r.
      cbn. by eexists.
Qed.

(** C2 as stated fails: [send_robust] catches [Exception] and nothing
    else.  With [rA], [rB], [rC] connected in that order and [rB]
    raising [KeyboardInterrupt], [send_robust] propagates that error to
    the caller; it records nothing for [rB], and [rC] is not
    attempted. *)
Lemma send_robust_lets_interrupt_through :
  let x := send_robust call_B_interrupted S1 [] (world_ABC false) in
  matching_live (world_ABC false) S1 = [rA; rB; rC]
  ∧ call_B_interrupted rB S1 [] (world_ABC false)
    = (Raise errK ["rB"], world_ABC false)
  ∧ result x = Raise errK ["rB"]
  ∧ calls (trace x) = [rA; rB]
  ∧ (rC ∉ calls (trace x)).
Proof.
  assert (send_robust call_B_interrupted S1 [] (world_ABC false)
          = (Raise errK ["rB"], world_ABC false,
             [EvLock; EvCall rA; EvCall rB])) as E by by vm_compute.
  cbn zeta. rewrite E. split_and!; [by vm_compute|by vm_compute|done|done|].
  cbn. intros Hin.
  apply elem_of_cons in Hin as [Hin|Hin]; [discriminate Hin|].
  apply elem_of_cons in Hin as [Hin|Hin]; [discriminate Hin|].
  by apply elem_of_nil in Hin.
Qed.

(** C2, amended.  In a world whose cache is consistent, for a sender
    that is compared by identity and that the cache can look up,
    [send_robust] resolves the same receivers as [send], from the same
    world, and is a dispatch over them that captures errors: every
    outcome that is an [Exception] is recorded, with its traceback, in
    place of a returned value, and the dispatch goes on.  When it
    returns, every live matching receiver was called, in table order;
    when the receivers raise nothing but [Exception]s, it returns.  What
    it raises is the error of the receiver called last, which is not an
    [Exception]; the receivers after that one are not called. *)
Theorem send_robust_captures call sender named w :
  cache_consistent w →
  compared_by_identity sender = true →
  cache_key_ok (sig w) sender = true →
  let x := send_robust call sender named w in
  let y := send call sender named w in
  let l := matching_live w sender in
  (∃ w1, resolved w w1
     ∧ dispatch call sender named capture w1 l
         (calls (trace x)) (result x) (final x)
     ∧ dispatch call sender named propagate w1 l
         (calls (trace y)) (result y) (final y))
  ∧ (∀ responses, result x = Ok responses →
       calls (trace x) = l ∧ responses.*1 = l ∧ Forall recorded responses)
  ∧ ((∀ receiver w0 err tb w0',
         call receiver sender named w0 = (Raise err tb, w0') →
         exc_is_Exception err = true) →
     ∃ responses, result x = Ok responses)
  ∧ (∀ err tb, result x = Raise err tb →
       exc_is_Exception err = false
       ∧ ∃ before receiver after wr,
           l = before ++ receiver :: after
           ∧ calls (trace x) = before ++ [receiver]
           ∧ call receiver sender named wr = (Raise err tb, final x)).
Proof.
  intros H I K x y l.
  pose proof (resolution_ok sender w (cache_agrees_identity w sender H I) K)
    as Hr.
  pose proof (resolution_resolved sender w) as [Hw Hc].
  subst x y l. rewrite send_robust_resolution, send_resolution.
  unfold bind. destruct (resolution sender w) as [[r w1] t1].
  unfold result in Hr. cbn in Hr, Hw, Hc. subst r.
  pose proof (send_robust_loop_dispatch call sender named
                (matching_live w sender) w1) as [Hd _].
  pose proof (send_loop_dispatch call sender named
                (matching_live w sender) w1) as [Hs _].
  pose proof (send_robust_loop_returns call sender named
                (matching_live w sender) w1) as Ht.
  cbn zeta in Hd, Hs.
  destruct (send_robust_loop call sender named (matching_live w sender) [] w1)
    as [[r w2] t2].
  destruct (send_loop call sender named (matching_live w sender) [] w1)
    as [[r' w2'] t2'].
  unfold trace, result, final in *. cbn in *.
  unfold calls in *. rewrite !omap_app, Hc. cbn [app].
  split_and!.
  - by exists w1.
  - intros responses ->. split_and!.
    + by eapply dispatch_ok_all.
    + by eapply dispatch_ok_all.
    + by eapply dispatch_capture_recorded.
  - done.
  - intros err tb ->.
    apply dispatch_raise_last in Hd
      as (before & receiver & after & wr & z & Hl & Hcl & Hz & Hp).
    apply capture_raise in Hp as [-> X]. split; [done|].
    by exists before, receiver, after, wr.
Qed.

Lemma send_robust_captures_witness :
  cache_consistent (world_ABC true)
  ∧ compared_by_identity S1 = true
  ∧ cache_key_ok (sig (world_ABC true)) S1 = true
  ∧ (let x := send_robust call_B_raises S1 [] (world_ABC true) in
     result x
     = Ok [(rA, Returned (PInt 1));
           (rB, Caught {| exc_class := "ValueError"; exc_is_Exception := true;
                          __traceback__ := Some ["rB"] |});
           (rC, Returned (PInt 3))]
     ∧ calls (trace x) = matching_live (world_ABC true) S1
     ∧ Forall recorded
         [(rA, Returned (PInt 1));
          (rB, Caught {| exc_class := "ValueError"; exc_is_Exception := true;
                         __traceback__ := Some ["rB"] |});
          (rC, Returned (PInt 3))]).
Proof.
  destruct (send_robust_captures call_B_raises S1 [] (world_ABC true)
              (world_ABC_cache_consistent true) eq_refl eq_refl)
    as (_ & Hok & _).
  assert (result (send_robust call_B_raises S1 [] (world_ABC true))
    = Ok [(rA, Returned (PInt 1));
          (rB, Caught {| exc_class := "ValueError"; exc_is_Exception := true;
                         __traceback__ := Some ["rB"] |});
          (rC, Returned (PInt 3))]) as E by (vm_compute; reflexivity).
  destruct (Hok _ E) as (Hc & _ & Hf).
  split; [apply world_ABC_cache_consistent|]. split; [reflexivity|].
  split; [reflexivity|].
  split; [exact E|]. split; [exact Hc|exact Hf].
Defined.

(** ** C3: the cache does change who is invoked *)

(** C3.  The code at the inputs where it departs from the claim.  With
    [rA] connected for every sender, [send(None)] on a caching signal
    raises [TypeError] and invokes nothing, where the signal without
    caching invokes [rA]; so does [send] of a list on either signal.
    With [rA] connected for [E1] only, and [E2] equal to [E1] and
    another object: on a caching signal [send(E2)] invokes nothing
    before [send(E1)] and invokes [rA] after it, the table being the
    same; and once [send(E2)] has run first, [send(E1)] invokes nothing.
    Without caching [send(E1)] invokes [rA] and [send(E2)] nothing,
    whatever was sent before. *)
Theorem cache_state_decides_who_is_invoked :
  matching_live (world_A true) ONone = [rA]
  ∧ send call_ok ONone [] (world_A true) = (Raise TypeError [], world_A true, [])
  ∧ ¬ invokes_the_connected call_ok ONone [] (world_A true)
  ∧ calls (trace (send call_ok ONone [] (world_A false))) = [rA]
  ∧ matching_live (world_A false) L1 = [rA]
  ∧ send call_ok L1 [] (world_A false) = (Raise TypeError [], world_A false, [])
  ∧ send call_ok L1 [] (world_A true) = (Raise TypeError [], world_A true, [])
  ∧ E1 ≠ E2
  ∧ key_of E1 = key_of E2
  ∧ receivers (sig (world_E1 true)) = [((_make_id rA, _make_id E1), Strong rA)]
  ∧ calls (trace (send call_ok E2 [] (world_E1 true))) = []
  ∧ (let w := final (send call_ok E1 [] (world_E1 true)) in
     receivers (sig w) = receivers (sig (world_E1 true))
     ∧ matching_live w E2 = []
     ∧ calls (trace (send call_ok E2 [] w)) = [rA]
     ∧ ¬ invokes_the_connected call_ok E2 [] w)
  ∧ (let w := final (send call_ok E2 [] (world_E1 true)) in
     receivers (sig w) = receivers (sig (world_E1 true))
     ∧ matching_live w E1 = [rA]
     ∧ calls (trace (send call_ok E1 [] w)) = []
     ∧ ¬ invokes_the_connected call_ok E1 [] w)
  ∧ (let w := final (send call_ok E1 [] (world_E1 false)) in
     calls (trace (send call_ok E2 [] w)) = []
     ∧ calls (trace (send call_ok E1 [] w)) = [rA]).
Proof.
  assert (send call_ok ONone [] (world_A true)
          = (Raise TypeError [], world_A true, [])) as E by by vm_compute.
  assert (matching_live (world_A true) ONone = [rA]) as El by by vm_compute.
  split_and!; try by vm_compute.
  - unfold invokes_the_connected. rewrite E, El.
    cbn. intros P. by apply Permutation_nil_cons in P.
  - cbn zeta. split_and!; try by vm_compute.
    unfold invokes_the_connected.
    assert (calls (trace (send call_ok E2 []
              (final (send call_ok E1 [] (world_E1 true))))) = [rA]) as ->
      by by vm_compute.
    assert (matching_live (final (send call_ok E1 [] (world_E1 true))) E2 = [])
      as -> by by vm_compute.
    intros P. symmetry in P. by apply Permutation_nil_cons in P.
  - cbn zeta. split_and!; try by vm_compute.
    unfold invokes_the_connected.
    assert (calls (trace (send call_ok E1 []
              (final (send call_ok E2 [] (world_E1 true))))) = []) as ->
      by by vm_compute.
    assert (matching_live (final (send call_ok E2 [] (world_E1 true))) E1 = [rA])
      as -> by by vm_compute.
    intros P. by apply Permutation_nil_cons in P.
Qed.

(** ** C4: one entry per lookup key *)

Lemma make_lookup_key_snd receiver sender dispatch_uid :
  (make_lookup_key receiver sender dispatch_uid).2 = _make_id sender.
Proof. unfold make_lookup_key. by destruct (truthy dispatch_uid). Qed.

Lemma connected_receivers receiver sender weak dispatch_uid w :
  receivers (sig (connected receiver sender weak dispatch_uid w))
  = connect_table (make_lookup_key receiver sender dispatch_uid)
      (connect_handle receiver weak) (receivers (compacted w)).
Proof. by rewrite connected_compacted. Qed.

Lemma connected_flag receiver sender weak dispatch_uid w :
  _dead_receivers (sig (connected receiver sender weak dispatch_uid w)) = false.
Proof. rewrite connected_compacted. cbn. apply compacted_flag. Qed.

Lemma connected_cache receiver sender weak dispatch_uid w :
  sender_receivers_cache (sig (connected receiver sender weak dispatch_uid w))
  = ∅.
Proof. by rewrite connected_compacted. Qed.

Lemma connected_use_caching receiver sender weak dispatch_uid w :
  use_caching (sig (connected receiver sender weak dispatch_uid w))
  = use_caching (sig w).
Proof. rewrite connected_compacted. cbn. apply compacted_use_caching. Qed.

Lemma connected_providing_args receiver sender weak dispatch_uid w :
  providing_args (sig (connected receiver sender weak dispatch_uid w))
  = providing_args (sig w).
Proof. rewrite connected_compacted. cbn. apply compacted_providing_args. Qed.

Lemma compacted_settled w :
  _dead_receivers (sig w) = false → compacted w = sig w.
Proof. intros H. unfold compacted. by rewrite H. Qed.

Lemma connect_table_connected key h l :
  key_connected key (connect_table key h l) = true.
Proof.
  unfold connect_table. destruct (key_connected key l) eqn:K; [done|].
  apply key_connected_elem. rewrite fmap_app, elem_of_app. right.
  cbn. apply list_elem_of_singleton. done.
Qed.

Lemma connect_table_again key h h' l :
  connect_table key h' (connect_table key h l) = connect_table key h l.
Proof.
  unfold connect_table at 1. by rewrite connect_table_connected.
Qed.

Lemma connect_table_fresh key h l :
  key ∉ l.*1 → connect_table key h l = l ++ [(key, h)].
Proof.
  intros H. unfold connect_table. destruct (key_connected key l) eqn:K; [|done].
  by apply key_connected_elem in K.
Qed.





Lemma scan_singleton k (key : lookup_key) h :
  scan k [(key, h)]
  = if bool_decide (key.2 = NONE_ID) || bool_decide (key.2 = k)
    then [h] else [].
Proof. destruct key as [rk sk]. cbn. by destruct (_ || _). Qed.

Lemma connect_returns receiver sender weak dispatch_uid w :
  weak = false ∨ weakly_referenceable receiver = true →
  connect receiver sender weak dispatch_uid w
  = (Ok tt, connected receiver sender weak dispatch_uid w, [EvLock]).
Proof.
  intros H. rewrite connect_run.
  destruct H as [->| ->]; [done|]. cbn [negb]. by rewrite andb_false_r.
Qed.




(** ** C5: sender scoping *)

(** C5.  The code at the inputs where it departs from the claim.  [rA]
    is connected with [sender=None] and the table holds its entry; on a
    caching signal [send(None)] raises [TypeError] without invoking it,
    and so does [send] of a string, where the signal without caching
    invokes [rA] for both; [send] of a list raises [TypeError] on either
    signal.  And with [rA] connected for [E1] only on a caching signal,
    [send(E2)] for [E2] equal to [E1] and another object invokes [rA]
    once [send(E1)] has run. *)
Theorem universal_receiver_not_invoked_for_None :
  ((PInt 1, NONE_ID), Strong rA) ∈ receivers (sig (world_A true))
  ∧ result (send call_ok ONone [] (world_A true)) = Raise TypeError []
  ∧ (rA ∉ calls (trace (send call_ok ONone [] (world_A true))))
  ∧ calls (trace (send call_ok ONone [] (world_A false))) = [rA]
  ∧ send call_ok T1 [] (world_A true) = (Raise TypeError [], world_A true, [])
  ∧ calls (trace (send call_ok T1 [] (world_A false))) = [rA]
  ∧ send call_ok L1 [] (world_A true) = (Raise TypeError [], world_A true, [])
  ∧ send call_ok L1 [] (world_A false) = (Raise TypeError [], world_A false, [])
  ∧ E2 ≠ E1
  ∧ receivers (sig (world_E1 true)) = [((PInt 1, _make_id E1), Strong rA)]
  ∧ calls (trace (send call_ok E2 []
                    (final (send call_ok E1 [] (world_E1 true))))) = [rA].
Proof.
  assert (send call_ok ONone [] (world_A true)
          = (Raise TypeError [], world_A true, [])) as -> by by vm_compute.
  split_and!; try by vm_compute.
  - assert (receivers (sig (world_A true)) = [((PInt 1, NONE_ID), Strong rA)])
      as -> by by vm_compute.
    by apply list_elem_of_singleton.
  - cbn. apply not_elem_of_nil.
Qed.

(** What holds of senders that are compared by identity.  [connect]
    stores the identity of its sender in the entry, and the scan of a
    resolution selects exactly the entries whose stored sender identity
    is [NONE_ID] or the identity of the dispatched sender.  So, in a
    world whose cache is consistent: a live receiver with an entry for
    every sender, or for the dispatched sender, is resolved by [send]
    for every such sender the cache can look up and invoked whenever
    [send] returns; and a receiver whose entries all name one specific
    sender is not invoked by [send] for any other such sender, [None]
    included. *)
Lemma sender_scoping call sender named w :
  cache_consistent w →
  compared_by_identity sender = true →
  let x := send call sender named w in
  (∀ receiver S weak dispatch_uid w0 e,
      e ∈ receivers (sig (connected receiver S weak dispatch_uid w0)) →
      e ∉ receivers (compacted w0) →
      e.1.2 = _make_id S ∧ (e.1.2 = NONE_ID ↔ S = ONone))
  ∧ scan (_make_id sender) (receivers (sig w))
    = (filter (fun e : entry => e.1.2 = NONE_ID ∨ e.1.2 = _make_id sender)
         (receivers (sig w))).*2
  ∧ (∀ e r,
      e ∈ receivers (sig w) →
      deref (dead w) e.2 = Some r →
      e.1.2 = NONE_ID ∨ e.1.2 = _make_id sender →
      cache_key_ok (sig w) sender = true →
      r ∈ matching_live w sender
      ∧ (∀ responses, result x = Ok responses → r ∈ calls (trace x)))
  ∧ (∀ S r,
      S ≠ ONone →
      sender ≠ S →
      (∀ e, e ∈ receivers (sig w) → handle_obj e.2 = r → e.1.2 = _make_id S) →
      r ∉ calls (trace x)).
Proof.
  intros H0 I x.
  pose proof (cache_agrees_identity w sender H0 I) as H. split_and!.
  - intros receiver S weak dispatch_uid w0 e He Hn.
    rewrite connected_receivers in He. unfold connect_table in He.
    destruct (key_connected _ _); [done|].
    apply elem_of_app in He as [He|He]; [done|].
    apply list_elem_of_singleton in He as ->. cbn [fst].
    rewrite make_lookup_key_snd. split; [done|]. apply _make_id_NONE_ID.
  - apply scan_filter.
  - intros e r He Hd Hm K.
    assert (r ∈ matching_live w sender) as Hr.
    { apply matching_live_elem. by exists e. }
    split; [done|]. intros responses E.
    destruct (send_dispatches call sender named w H K) as (w1 & _ & D).
    fold x in D. rewrite E in D. by apply dispatch_ok_all in D as [-> _].
  - intros S r HS Hne Hall Hr.
    pose proof (send_calls_prefix call sender named w H) as Hp.
    eapply elem_of_prefix in Hr; [|exact Hp].
    apply matching_live_elem in Hr as (e & He & Hm & Hd).
    apply deref_handle_obj in Hd.
    specialize (Hall e He Hd). destruct Hm as [Hm|Hm].
    + assert (_make_id S = NONE_ID) as Hx
        by (etrans; [symmetry; exact Hall|exact Hm]).
      by apply _make_id_NONE_ID in Hx.
    + assert (_make_id S = _make_id sender) as Hx
        by (etrans; [symmetry; exact Hall|exact Hm]).
      apply _make_id_inj in Hx. by subst.
Qed.

Lemma world_scoped_receivers caching :
  receivers (sig (world_scoped caching))
  = [((PInt 1, PInt 10), Weak rA); ((PInt 2, PInt 0), Weak rB)].
Proof. by destruct caching. Qed.

Lemma world_scoped_cache_consistent caching :
  cache_consistent (world_scoped caching).
Proof.
  unfold world_scoped. apply run_invariant; [|apply boot_cache_consistent].
  apply cache_consistent_invariant. intros. by apply call_ok_keeps.
Qed.

(** ** C6: disconnect *)

Lemma remove_first_cons key (e : entry) l :
  remove_first key (e :: l)
  = if decide (e.1 = key) then l else e :: remove_first key l.
Proof.
  unfold remove_first. cbn [list_find].
  destruct (decide (e.1 = key)); [done|].
  repeat case_match; simplify_eq/=; done.
Qed.

Lemma remove_first_split key before h after :
  key ∉ before.*1 →
  remove_first key (before ++ (key, h) :: after) = before ++ after.
Proof.
  induction before as [|e before IH]; intros H.
  - cbn [app]. rewrite remove_first_cons. by rewrite decide_True.
  - rewrite fmap_cons in H. apply not_elem_of_cons in H as [H1 H2].
    cbn [app]. rewrite remove_first_cons.
    rewrite decide_False by done. by rewrite IH.
Qed.

Lemma remove_first_absent key l : key ∉ l.*1 → remove_first key l = l.
Proof.
  induction l as [|e l IH]; intros H; [done|].
  rewrite fmap_cons in H. apply not_elem_of_cons in H as [H1 H2].
  rewrite remove_first_cons, decide_False by done. by rewrite IH.
Qed.

Lemma remove_first_gone key l :
  NoDup l.*1 → key ∉ (remove_first key l).*1.
Proof.
  induction l as [|e l IH]; intros N.
  - cbn. apply not_elem_of_nil.
  - rewrite fmap_cons in N. apply NoDup_cons in N as [Hn N].
    rewrite remove_first_cons. destruct (decide (e.1 = key)) as [<-|E].
    + done.
    + rewrite fmap_cons. apply not_elem_of_cons. split; [done|by apply IH].
Qed.

Lemma key_connected_false key l : key_connected key l = false ↔ key ∉ l.*1.
Proof.
  rewrite <- key_connected_elem. by destruct (key_connected key l).
Qed.

Lemma disconnected_flag receiver sender dispatch_uid w :
  _dead_receivers (sig (disconnected receiver sender dispatch_uid w)) = false.
Proof. cbn. apply compacted_flag. Qed.

Lemma disconnected_receivers receiver sender dispatch_uid w :
  receivers (sig (disconnected receiver sender dispatch_uid w))
  = remove_first (make_lookup_key receiver sender dispatch_uid)
      (receivers (compacted w)).
Proof. done. Qed.

(** C6 as stated fails: [rA] is connected for every sender and for [S1];
    [disconnect(rA, sender=S1)] removes the second entry and returns
    true, and a [send(S1)] that follows still invokes [rA], through the
    first. *)
Lemma disconnected_receiver_still_invoked :
  let w := run call_ok
             [Connect rA ONone false PNone; Connect rA S1 false PNone]
             (boot [] false) in
  let x := disconnect rA S1 true PNone w in
  result x = Ok true
  ∧ receivers (sig (final x)) = [((PInt 1, PInt 0), Strong rA)]
  ∧ calls (trace (send call_ok S1 [] (final x))) = [rA].
Proof. by vm_compute. Qed.

(** C6, amended.  [disconnect] builds its lookup key as [connect] does,
    so the key of a connected entry is found; it returns true exactly
    when the table, once compacted, has an entry with that key, and then
    removes the first such entry and nothing else.  When the table has
    no duplicate keys a second call returns false, as does a call for a
    key that is absent, or whose entries were weak references that are
    gone and flagged.  A [send] that follows invokes only receivers of
    the entries that remain: the disconnected receiver is invoked only
    if it is still connected under another lookup key. *)
Theorem disconnect_removes_entry call receiver sender weak dispatch_uid w :
  let key := make_lookup_key receiver sender dispatch_uid in
  let table := receivers (compacted w) in
  let x := disconnect receiver sender weak dispatch_uid w in
  (∀ weak' w0,
      key ∈ (receivers (sig (connected receiver sender weak' dispatch_uid w0))).*1)
  ∧ (result x = Ok true ↔ key ∈ table.*1)
  ∧ (result x = Ok false ↔ key ∉ table.*1)
  ∧ (∀ before h after,
       table = before ++ (key, h) :: after → key ∉ before.*1 →
       receivers (sig (final x)) = before ++ after)
  ∧ (key ∉ table.*1 → receivers (sig (final x)) = table)
  ∧ (unique_keys w →
       (key ∉ (receivers (sig (final x))).*1)
       ∧ result (disconnect receiver sender weak dispatch_uid (final x))
         = Ok false)
  ∧ (_dead_receivers (sig w) = true →
       (∀ e, e ∈ receivers (sig w) → e.1 = key →
             is_dead_ref (dead w) e.2 = true) →
       result x = Ok false)
  ∧ (∀ sender' named r,
       r ∈ calls (trace (send call sender' named (final x))) →
       ∃ e, e ∈ receivers (sig (final x)) ∧ handle_obj e.2 = r
            ∧ (unique_keys w → e.1 ≠ key)).
Proof.
  intros key table x. subst x. rewrite disconnect_run.
  unfold result, final. cbn [fst snd]. fold key table.
  split_and!.
  - intros weak' w0. rewrite connected_receivers.
    apply key_connected_elem, connect_table_connected.
  - rewrite <- key_connected_elem. split; [by intros [= ->]|by intros ->].
  - rewrite <- key_connected_false. split; [by intros [= ->]|by intros ->].
  - intros before h after Et Hb. rewrite disconnected_receivers.
    fold key table. rewrite Et. by apply remove_first_split.
  - intros Hn. rewrite disconnected_receivers. by apply remove_first_absent.
  - intros U.
    assert (key ∉ (remove_first key table).*1) as Hg.
    { apply remove_first_gone.
      eapply NoDup_keys_sublist; [apply compacted_sublist|done]. }
    split; [by rewrite disconnected_receivers|].
    rewrite disconnect_run. cbn [fst snd]. f_equal.
    rewrite compacted_settled by apply disconnected_flag.
    rewrite disconnected_receivers. by apply key_connected_false.
  - intros Hf Hdead. f_equal. apply key_connected_false.
    subst table. rewrite compacted_receivers, Hf, new_receivers_filter.
    intros (e & Ek & He)%list_elem_of_fmap.
    apply list_elem_of_filter in He as [Hl He].
    rewrite (Hdead e He) in Hl; [done|]. by rewrite Ek.
  - intros sender' named r Hr.
    set (w' := disconnected receiver sender dispatch_uid w) in *.
    assert (cache_agrees w' sender') as Hcc by by apply cache_agrees_empty.
    pose proof (send_calls_prefix call sender' named w' Hcc) as Hp.
    eapply elem_of_prefix in Hr; [|exact Hp].
    apply matching_live_elem in Hr as (e & He & _ & Hd).
    exists e. split_and!; [done|by eapply deref_handle_obj|].
    intros U Ek. subst w'. rewrite disconnected_receivers in He.
    fold key table in He.
    assert (key ∉ (remove_first key table).*1) as Hg.
    { apply remove_first_gone.
      eapply NoDup_keys_sublist; [apply compacted_sublist|done]. }
    apply Hg. apply list_elem_of_fmap. by exists e.
Qed.

Lemma disconnect_removes_entry_witness :
  unique_keys (world_scoped false)
  ∧ (let x := disconnect rA S1 true PNone (world_scoped false) in
     result x = Ok true
     ∧ receivers (sig (final x)) = [((PInt 2, PInt 0), Weak rB)]
     ∧ result (disconnect rA S1 true PNone (final x)) = Ok false
     ∧ (rA ∉ calls (trace (send call_ok S1 [] (final x))))).
Proof.
  assert (unique_keys (world_scoped false)) as U.
  { unfold unique_keys. rewrite world_scoped_receivers. cbn.
    apply NoDup_cons. split.
    - intros H. apply list_elem_of_singleton in H. discriminate H.
    - apply NoDup_singleton. }
  split; [exact U|].
  destruct (disconnect_removes_entry call_ok rA S1 true PNone
              (world_scoped false))
    as (_ & Htrue & _ & Hsplit & _ & Hagain & _ & Hsend).
  cbn zeta. split_and!.
  - apply Htrue. vm_compute. by left.
  - apply (Hsplit [] (Weak rA) [((PInt 2, PInt 0), Weak rB)]).
    + vm_compute. reflexivity.
    + apply not_elem_of_nil.
  - by apply Hagain.
  - intros Hin. destruct (Hsend S1 [] rA Hin) as (e & He & Ho & _).
    rewrite (Hsplit [] (Weak rA) [((PInt 2, PInt 0), Weak rB)]) in He.
    + apply list_elem_of_singleton in He as ->. discriminate Ho.
    + vm_compute. reflexivity.
    + apply not_elem_of_nil.
Defined.

(** ** C7: connect always clears the cache *)

Lemma world_cached_cache :
  cache_lookup (sender_receivers_cache (sig world_cached)) S1
  = Some (Cached [Weak rA]).
Proof. by vm_compute. Qed.

(** C7.  [connect] returns unless a weak reference is asked for and the
    receiver has none.  When it returns, the cache is empty, also when
    the key was already connected and the table is left as compaction
    made it; the table is the compacted one with at most one entry
    appended and the flag is down.  [use_caching] and [providing_args]
    are what they were, nothing is collected, and the lock was taken
    once.  When it raises, the world is untouched. *)
Theorem connect_clears_cache receiver sender weak dispatch_uid w :
  let key := make_lookup_key receiver sender dispatch_uid in
  let x := connect receiver sender weak dispatch_uid w in
  (result x = Ok tt ↔ weak = false ∨ weakly_referenceable receiver = true)
  ∧ (result x = Ok tt →
       sender_receivers_cache (sig (final x)) = ∅
       ∧ _dead_receivers (sig (final x)) = false
       ∧ trace x = [EvLock]
       ∧ (key ∈ (receivers (compacted w)).*1 →
            receivers (sig (final x)) = receivers (compacted w))
       ∧ (key ∉ (receivers (compacted w)).*1 →
            receivers (sig (final x))
            = receivers (compacted w) ++ [(key, connect_handle receiver weak)]))
  ∧ (result x ≠ Ok tt → final x = w)
  ∧ use_caching (sig (final x)) = use_caching (sig w)
  ∧ providing_args (sig (final x)) = providing_args (sig w)
  ∧ dead (final x) = dead w.
Proof.
  intros key x. subst x. rewrite connect_run.
  destruct (weak && negb (weakly_referenceable receiver)) eqn:E.
  - apply andb_true_iff in E as [-> E]. apply negb_true_iff in E.
    unfold result, final, trace. cbn [fst snd].
    split_and!; try done.
    split; [done|]. intros [?|?]; congruence.
  - unfold result, final, trace. cbn [fst snd].
    split_and!.
    + split; [intros _|done].
      destruct weak; [|by left]. right. cbn in E. by apply negb_false_iff in E.
    + intros _. split_and!.
      * apply connected_cache.
      * apply connected_flag.
      * done.
      * intros Hk. rewrite connected_receivers. fold key.
        unfold connect_table. by rewrite (proj2 (key_connected_elem _ _) Hk).
      * intros Hk. rewrite connected_receivers. fold key.
        by apply connect_table_fresh.
    + done.
    + apply connected_use_caching.
    + apply connected_providing_args.
    + apply connected_dead.
Qed.

Lemma connect_clears_cache_witness :
  cache_lookup (sender_receivers_cache (sig world_cached)) S1
  = Some (Cached [Weak rA])
  ∧ (let x := connect rA ONone true PNone world_cached in
     result x = Ok tt
     ∧ sender_receivers_cache (sig (final x)) = ∅
     ∧ receivers (sig (final x)) = receivers (sig world_cached)
     ∧ use_caching (sig (final x)) = true
     ∧ providing_args (sig (final x)) = {["val"]}).
Proof.
  split; [exact world_cached_cache|].
  destruct (connect_clears_cache rA ONone true PNone world_cached)
    as (Hret & Hok & _ & Hu & Hp & _).
  cbn zeta in *.
  assert (result (connect rA ONone true PNone world_cached) = Ok tt) as R.
  { apply Hret. by right. }
  destruct (Hok R) as (Hc & _ & _ & Hdup & _).
  split; [exact R|]. split; [exact Hc|]. split.
  - rewrite Hdup; [vm_compute; reflexivity|].
    vm_compute. by left.
  - split; [rewrite Hu|rewrite Hp]; vm_compute; reflexivity.
Defined.

(** ** C8: what [_live_receivers] returns and what it caches *)

Lemma world_stale_cache_consistent : cache_consistent world_stale.
Proof.
  unfold world_stale. apply run_invariant; [|apply boot_cache_consistent].
  apply cache_consistent_invariant. intros. by apply call_ok_keeps.
Qed.

(** A caching signal with [rA] connected weakly for every sender, after
    [rA] has been collected: the flag is up. *)
Lemma world_flagged_flag :
  _dead_receivers (sig (collect 1 (world_A_weak true))) = true.
Proof. by vm_compute. Qed.

(** C8.  The code at the inputs where it departs from the claim.  On a
    caching signal [_live_receivers(None)], the call [has_listeners()]
    makes, raises [TypeError] instead of returning the receivers, on an
    empty table and with [rA] connected for every sender; when the flag
    is up it does so after it took the lock and compacted the table.
    Without caching it returns [rA].  And with [rA] connected for [E1]
    only on a caching signal, [_live_receivers(E2)], for [E2] equal to
    [E1] and another object, returns [rA] once [_live_receivers(E1)] has
    stored its list, and nothing before. *)
Theorem live_receivers_None_raises :
  _live_receivers ONone (boot [] true) = (Raise TypeError [], boot [] true, [])
  ∧ has_listeners ONone (boot [] true) = (Raise TypeError [], boot [] true, [])
  ∧ matching_live (world_A true) ONone = [rA]
  ∧ _live_receivers ONone (world_A true)
    = (Raise TypeError [], world_A true, [])
  ∧ result (_live_receivers ONone (world_A false)) = Ok [rA]
  ∧ (let w := collect 1 (world_A_weak true) in
     let x := _live_receivers ONone w in
     result x = Raise TypeError []
     ∧ trace x = [EvLock]
     ∧ receivers (sig w) = [((PInt 1, NONE_ID), Weak rA)]
     ∧ receivers (sig (final x)) = [])
  ∧ E2 ≠ E1
  ∧ matching_live (world_E1 true) E2 = []
  ∧ result (_live_receivers E2 (world_E1 true)) = Ok []
  ∧ (let w := final (_live_receivers E1 (world_E1 true)) in
     receivers (sig w) = receivers (sig (world_E1 true))
     ∧ matching_live w E2 = []
     ∧ result (_live_receivers E2 w) = Ok [rA]).
Proof. split_and!; by vm_compute. Qed.

(** What holds of senders that are compared by identity.  In a world
    whose cache is consistent, for such a sender that the cache can look
    up when the signal caches, [_live_receivers] returns the referents
    of the handles of the matching entries, in table order, without
    those of weak references that are gone; a weak reference that is
    gone is left out and nothing is raised.  On a cache hit the world is
    untouched and the result is resolved anew from the cached handles;
    otherwise the lock is taken, the table is compacted and scanned, and
    a caching signal stores the scanned handles themselves, weak
    references included (or the sentinel when there are none), never
    the resolved list. *)
Lemma live_receivers_resolves sender w :
  cache_consistent w →
  compared_by_identity sender = true →
  negb (use_caching (sig w)) || cache_key_ok (sig w) sender = true →
  let x := _live_receivers sender w in
  let handles := scan (_make_id sender) (receivers (compacted w)) in
  result x = Ok (matching_live w sender)
  ∧ matching_live w sender
    = omap (deref (dead w))
        (filter (fun e : entry => e.1.2 = NONE_ID ∨ e.1.2 = _make_id sender)
           (receivers (sig w))).*2
  ∧ match cache_hit w sender with
    | Some e =>
        final x = w ∧ trace x = []
        ∧ result x = Ok (omap (deref (dead w)) (entry_handles e))
    | None =>
        trace x = [EvLock]
        ∧ receivers (sig (final x)) = receivers (compacted w)
        ∧ result x = Ok (omap (deref (dead w)) handles)
        ∧ sender_receivers_cache (sig (final x))
          = if use_caching (sig w)
            then cache_store sender (cached_value handles)
                   (sender_receivers_cache (sig w))
            else sender_receivers_cache (sig w)
    end
  ∧ entry_handles (cached_value handles) = handles.
Proof.
  intros H0 I K x handles.
  pose proof (cache_agrees_identity w sender H0 I) as H.
  assert (result x = Ok (matching_live w sender)
          ∧ match cache_hit w sender with
            | Some e =>
                final x = w ∧ trace x = []
                ∧ result x = Ok (omap (deref (dead w)) (entry_handles e))
            | None =>
                trace x = [EvLock]
                ∧ receivers (sig (final x)) = receivers (compacted w)
                ∧ result x = Ok (omap (deref (dead w)) handles)
                ∧ sender_receivers_cache (sig (final x))
                  = if use_caching (sig w)
                    then cache_store sender (cached_value handles)
                           (sender_receivers_cache (sig w))
                    else sender_receivers_cache (sig w)
            end) as [H1 H2].
  { subst x handles. rewrite _live_receivers_run.
    assert (use_caching (sig w) && negb (_dead_receivers (sig w))
            && negb (cache_key_ok (sig w) sender) = false) as ->.
    { destruct (use_caching (sig w)); [|done].
      cbn in K. rewrite K. cbn. by rewrite andb_false_r. }
    destruct (cache_hit w sender) as [e|] eqn:Eh.
    - assert (cache_lookup (sender_receivers_cache (sig w)) sender = Some e)
        as L.
      { unfold cache_hit in Eh. by destruct (_ && _). }
      specialize (H _ L). apply live_handles_resolve in H.
      fold (matching_live w sender) in H.
      destruct e as [|hs]; unfold result, final, trace; cbn [fst snd].
      + cbn in H. by rewrite <- H.
      + cbn [entry_handles] in *. rewrite <- H.
        by rewrite non_weak_receivers_omap.
    - rewrite K. unfold result, final, trace. cbn [fst snd].
      rewrite matching_live_compacted. split; [done|]. split_and!.
      + done.
      + unfold rescanned. by destruct (use_caching (compacted w)).
      + by rewrite <- non_weak_receivers_omap, matching_live_compacted.
      + unfold rescanned. rewrite compacted_use_caching.
        destruct (use_caching (sig w)); cbn; by rewrite compacted_cache. }
  split_and!; [done| |done|apply entry_handles_cached_value].
  unfold matching_live. by rewrite non_weak_receivers_omap, scan_filter.
Qed.

(** ** C9: a falsy [dispatch_uid] is no [dispatch_uid] *)

Lemma remove_first_other (key key' : lookup_key) l :
  key' ≠ key → key ∈ l.*1 → key ∈ (remove_first key' l).*1.
Proof.
  intros Hne. induction l as [|e l IH]; intros H; [done|].
  rewrite fmap_cons in H. rewrite remove_first_cons.
  destruct (decide (e.1 = key')) as [E|E].
  - apply elem_of_cons in H as [H|H]; [congruence|done].
  - rewrite fmap_cons. apply elem_of_cons in H as [H|H].
    + rewrite H. by left.
    + right. by apply IH.
Qed.

Lemma make_lookup_key_falsy receiver sender dispatch_uid :
  truthy dispatch_uid = false →
  make_lookup_key receiver sender dispatch_uid
  = (_make_id receiver, _make_id sender).
Proof. unfold make_lookup_key. by intros ->. Qed.

(** C9 as stated fails in its last part: the key holds the identity of
    the receiver where a [dispatch_uid] would be, so a [disconnect] that
    passes no receiver and, as [dispatch_uid], the integer that is the
    identity of the receiver builds the same key and removes the
    entry. *)
Lemma disconnect_by_identity_as_dispatch_uid :
  let w1 := final (connect (OObj 4) S1 true (PInt 0) (world_ABC false)) in
  let x := disconnect ONone S1 true (PInt 4) w1 in
  truthy (PInt 0) = false
  ∧ ONone ≠ OObj 4
  ∧ (PInt 4, PInt 10) ∈ (receivers (sig w1)).*1
  ∧ result x = Ok true
  ∧ receivers (sig (final x)) = receivers (sig (world_ABC false))
  ∧ ((PInt 4, PInt 10) ∉ (receivers (sig (final x))).*1).
Proof.
  cbn zeta.
  assert ((receivers (sig (final (connect (OObj 4) S1 true (PInt 0)
             (world_ABC false))))).*1
          = [(PInt 1, PInt 0); (PInt 2, PInt 0); (PInt 3, PInt 0);
             (PInt 4, PInt 10)]) as E1 by by vm_compute.
  assert ((receivers (sig (final (disconnect ONone S1 true (PInt 4)
             (final (connect (OObj 4) S1 true (PInt 0) (world_ABC false))))))).*1
          = [(PInt 1, PInt 0); (PInt 2, PInt 0); (PInt 3, PInt 0)]) as E2
    by by vm_compute.
  split_and!.
  - reflexivity.
  - discriminate.
  - rewrite E1. rewrite !elem_of_cons. do 3 right. by left.
  - by vm_compute.
  - by vm_compute.
  - rewrite E2. intros Hin.
    apply elem_of_cons in Hin as [Hin|Hin]; [discriminate Hin|].
    apply elem_of_cons in Hin as [Hin|Hin]; [discriminate Hin|].
    apply elem_of_cons in Hin as [Hin|Hin]; [discriminate Hin|].
    by apply elem_of_nil in Hin.
Qed.

(** C9, amended.  With a [dispatch_uid] that is falsy, [connect] and
    [disconnect] build the key from the identities of receiver and
    sender, and behave as when no [dispatch_uid] is given.  An entry
    connected that way, in a table without duplicate keys, is removed by
    a [disconnect] exactly when it names the same sender and either
    gives no or a falsy [dispatch_uid] and passes the same receiver, or
    gives as [dispatch_uid] the identity of that receiver; passing the
    falsy [dispatch_uid] alone, with the receiver left to [None], leaves
    the entry of a receiver in place. *)
Theorem falsy_dispatch_uid_ignored receiver sender dispatch_uid :
  truthy dispatch_uid = false →
  let key := (_make_id receiver, _make_id sender) in
  make_lookup_key receiver sender dispatch_uid = key
  ∧ (∀ weak w,
       connect receiver sender weak dispatch_uid w
       = connect receiver sender weak PNone w
       ∧ disconnect receiver sender weak dispatch_uid w
         = disconnect receiver sender weak PNone w)
  ∧ (∀ weak w,
       weak = false ∨ weakly_referenceable receiver = true →
       unique_keys w →
       let w1 := final (connect receiver sender weak dispatch_uid w) in
       key ∈ (receivers (sig w1)).*1
       ∧ (∀ receiver' sender' weak' dispatch_uid',
            let x := disconnect receiver' sender' weak' dispatch_uid' w1 in
            key ∉ (receivers (sig (final x))).*1
            ↔ sender' = sender
              ∧ if truthy dispatch_uid'
                then dispatch_uid' = _make_id receiver
                else receiver' = receiver)
       ∧ (receiver ≠ ONone →
          ∀ weak',
            key ∈ (receivers (sig (final
                     (disconnect ONone sender weak' dispatch_uid w1)))).*1)).
Proof.
  intros F key.
  assert (∀ r s, make_lookup_key r s dispatch_uid = (_make_id r, _make_id s))
    as Hk by (intros; by apply make_lookup_key_falsy).
  split_and!.
  - apply Hk.
  - intros weak w. unfold connect, disconnect. by rewrite !Hk.
  - intros weak w Hw U w1.
    assert (w1 = connected receiver sender weak dispatch_uid w) as E1.
    { subst w1. by rewrite connect_returns. }
    assert (key ∈ (receivers (sig w1)).*1) as Hin.
    { rewrite E1, connected_receivers, Hk.
      apply key_connected_elem, connect_table_connected. }
    assert (NoDup (receivers (sig w1)).*1) as U1.
    { rewrite E1, connected_receivers. apply connect_table_NoDup.
      eapply NoDup_keys_sublist; [apply compacted_sublist|done]. }
    assert (compacted w1 = sig w1) as Ec.
    { apply compacted_settled. rewrite E1. apply connected_flag. }
    assert (∀ receiver' sender' weak' dispatch_uid',
         key ∉ (receivers (sig (final
                  (disconnect receiver' sender' weak' dispatch_uid' w1)))).*1
         ↔ sender' = sender
           ∧ if truthy dispatch_uid'
             then dispatch_uid' = _make_id receiver
             else receiver' = receiver) as Hiff.
    { intros receiver' sender' weak' dispatch_uid'.
      rewrite disconnect_run. unfold final. cbn [fst snd].
      rewrite disconnected_receivers, Ec.
      assert (make_lookup_key receiver' sender' dispatch_uid' = key
              ↔ sender' = sender
                ∧ if truthy dispatch_uid'
                  then dispatch_uid' = _make_id receiver
                  else receiver' = receiver) as Hkey.
      { unfold make_lookup_key, key.
        destruct (truthy dispatch_uid'); split.
        - intros [= -> Es]. by rewrite (_make_id_inj _ _ Es).
        - by intros [-> ->].
        - intros [= Er Es].
          by rewrite (_make_id_inj _ _ Er), (_make_id_inj _ _ Es).
        - by intros [-> ->]. }
      rewrite <- Hkey. split.
      - intros Hout.
        destruct (decide (make_lookup_key receiver' sender' dispatch_uid' = key))
          as [E|E]; [done|].
        exfalso. apply Hout. by apply remove_first_other.
      - intros ->. by apply remove_first_gone. }
    split_and!; [done| |].
    + intros receiver' sender' weak' dispatch_uid' x. by apply Hiff.
    + intros Hne weak'.
      destruct (decide (key ∈ (receivers (sig (final
                  (disconnect ONone sender weak' dispatch_uid w1)))).*1))
        as [|Hout]; [done|].
      apply Hiff in Hout as [_ Hout]. rewrite F in Hout. by subst.
Qed.

Lemma falsy_dispatch_uid_ignored_witness :
  truthy (PInt 0) = false
  ∧ unique_keys (world_ABC false)
  ∧ (let w1 := final (connect (OObj 4) S1 true (PInt 0) (world_ABC false)) in
     make_lookup_key (OObj 4) S1 (PInt 0) = (PInt 4, PInt 10)
     ∧ (PInt 4, PInt 10) ∈ (receivers (sig w1)).*1
     ∧ result (disconnect ONone S1 true (PInt 0) w1) = Ok false
     ∧ (PInt 4, PInt 10)
         ∈ (receivers (sig (final (disconnect ONone S1 true (PInt 0) w1)))).*1
     ∧ ((PInt 4, PInt 10)
         ∉ (receivers (sig (final
              (disconnect (OObj 4) S1 true (PStr EmptyString) w1)))).*1)
     ∧ ((PInt 4, PInt 10)
         ∉ (receivers (sig (final
              (disconnect rA S1 false (PInt 4) w1)))).*1)).
Proof.
  assert (unique_keys (world_ABC false)) as U.
  { unfold world_ABC. apply run_invariant; [|apply boot_unique_keys].
    apply unique_keys_invariant. intros receiver s n w H. exact H. }
  split; [reflexivity|]. split; [exact U|].
  destruct (falsy_dispatch_uid_ignored (OObj 4) S1 (PInt 0) eq_refl)
    as (Hk & _ & Hc).
  destruct (Hc true (world_ABC false) (or_intror eq_refl) U)
    as (Hin & Hd & Hnone).
  cbn zeta in *. split_and!.
  - exact Hk.
  - exact Hin.
  - vm_compute. reflexivity.
  - apply Hnone. discriminate.
  - apply (Hd (OObj 4) S1 true (PStr EmptyString)). by split.
  - apply (Hd rA S1 false (PInt 4)). by split.
Defined.

(** ** C10: a signal without caching *)

Lemma locks_app t1 t2 : locks (t1 ++ t2) = (locks t1 + locks t2)%nat.
Proof. unfold locks. by rewrite filter_app, length_app. Qed.

(** C10 as stated fails on an empty table: [send] on a new signal
    without caching returns at once and does not take the lock. *)
Lemma send_on_empty_table_takes_no_lock :
  let x := send call_ok S1 [] (boot [] false) in
  result x = Ok [] ∧ trace x = [] ∧ locks (trace x) = 0%nat.
Proof. by vm_compute. Qed.

(** C10, amended.  After any sequence of operations on a signal created
    without caching, the cache is empty: [_live_receivers] stores nothing
    in it, takes the lock on every call and returns what the scan of the
    compacted table resolves to.  For a sender that can be hashed, the
    quick exit of [send] and [send_robust] is taken exactly when the
    table is empty, never for the sentinel; on a table that is not empty
    each of them takes the lock once, and on an empty table they return
    at once without it.  Receivers are assumed to leave the cache
    alone. *)
Theorem no_caching_always_rescans call ops args sender named :
  (∀ receiver s n w, cache_unused w → cache_unused (call receiver s n w).2) →
  hashable sender = true →
  let w := run call ops (boot args false) in
  use_caching (sig w) = false
  ∧ sender_receivers_cache (sig w) = ∅
  ∧ nothing_to_send sender w
    = (Ok (bool_decide (receivers (sig w) = [])), w, [])
  ∧ _live_receivers sender w
    = (Ok (non_weak_receivers (dead w)
             (scan (_make_id sender) (receivers (compacted w)))),
       set_sig (compacted w) w, [EvLock])
  ∧ sender_receivers_cache (sig (final (_live_receivers sender w))) = ∅
  ∧ (receivers (sig w) ≠ [] →
       locks (trace (send call sender named w)) = 1%nat
       ∧ locks (trace (send_robust call sender named w)) = 1%nat
       ∧ head (trace (send call sender named w)) = Some EvLock
       ∧ head (trace (send_robust call sender named w)) = Some EvLock)
  ∧ (receivers (sig w) = [] →
       send call sender named w = (Ok [], w, [])
       ∧ send_robust call sender named w = (Ok [], w, [])).
Proof.
  intros Hcall Hh w.
  assert (cache_unused w) as [Hu Hc].
  { apply run_invariant; [|apply boot_cache_unused].
    by apply cache_unused_invariant. }
  assert (nothing_to_send sender w
          = (Ok (bool_decide (receivers (sig w) = [])), w, [])) as Hn.
  { rewrite nothing_to_send_run. unfold cache_key_ok, cache_lookup.
    rewrite Hu, Hc, Hh.
    destruct (receivers (sig w)); [done|]. cbn.
    destruct (key_of sender); by rewrite ?lookup_empty. }
  assert (_live_receivers sender w
          = (Ok (non_weak_receivers (dead w)
                   (scan (_make_id sender) (receivers (compacted w)))),
             set_sig (compacted w) w, [EvLock])) as Hl.
  { rewrite _live_receivers_run. unfold cache_hit, cache_key_ok, rescanned.
    rewrite compacted_use_caching, Hu. done. }
  split_and!; [done|done|done|done| | |].
  - rewrite Hl. unfold final. cbn. by rewrite compacted_cache.
  - intros Hne.
    assert (resolution sender w
            = (Ok (non_weak_receivers (dead w)
                     (scan (_make_id sender) (receivers (compacted w)))),
               set_sig (compacted w) w, [EvLock])) as Hr.
    { unfold resolution, bind. rewrite Hn.
      rewrite bool_decide_eq_false_2 by done. by rewrite Hl. }
    rewrite send_resolution, send_robust_resolution. unfold bind. rewrite Hr.
    pose proof (send_loop_dispatch call sender named
      (non_weak_receivers (dead w)
         (scan (_make_id sender) (receivers (compacted w))))
      (set_sig (compacted w) w)) as [_ H1].
    pose proof (send_robust_loop_dispatch call sender named
      (non_weak_receivers (dead w)
         (scan (_make_id sender) (receivers (compacted w))))
      (set_sig (compacted w) w)) as [_ H2].
    cbn zeta in H1, H2.
    destruct (send_loop _ _ _ _ _ _) as [[r1 w1] t1].
    destruct (send_robust_loop _ _ _ _ _ _) as [[r2 w2] t2].
    unfold trace in *. cbn [snd] in *.
    rewrite !locks_app, H1, H2. done.
  - intros He. unfold send, send_robust, bind. rewrite Hn.
    by rewrite bool_decide_eq_true_2.
Qed.

Lemma no_caching_always_rescans_witness :
  (∀ receiver s n w, cache_unused w → cache_unused (call_ok receiver s n w).2)
  ∧ hashable S1 = true
  ∧ receivers (sig (world_ABC false)) ≠ []
  ∧ sender_receivers_cache (sig (world_ABC false)) = ∅
  ∧ locks (trace (send call_ok S1 [] (world_ABC false))) = 1%nat
  ∧ locks (trace (send_robust call_ok S1 [] (world_ABC false))) = 1%nat.
Proof.
  assert (∀ receiver s n w,
      cache_unused w → cache_unused (call_ok receiver s n w).2) as Hc.
  { intros receiver s n w H. exact H. }
  assert (receivers (sig (world_ABC false)) ≠ []) as Hne.
  { rewrite world_ABC_receivers. discriminate. }
  split; [exact Hc|]. split; [reflexivity|]. split; [exact Hne|].
  destruct (no_caching_always_rescans call_ok
              [Connect rA ONone true PNone; Connect rB ONone true PNone;
               Connect rC ONone false PNone] [] S1 [] Hc eq_refl)
    as (_ & He & _ & _ & _ & Hlock & _).
  split; [exact He|].
  destruct (Hlock Hne) as (H1 & H2 & _). split; [exact H1|exact H2].
Defined.


(** * Further properties *)

(** ** X1: compaction *)

Lemma matching_live_set_compacted w sender :
  matching_live (set_sig (compacted w) w) sender = matching_live w sender.
Proof. unfold matching_live at 1. cbn [sig dead set_sig]. apply matching_live_compacted. Qed.

(** X1.  [_clear_dead_receivers] never raises and takes no lock.  With
    the flag down it leaves the signal as it is; with the flag up it
    lowers it and keeps, in their order, exactly the entries whose handle
    is not a weak reference that is gone.  Either way every sender
    resolves to the same live receivers as before, the cache is not
    touched and stays consistent, and a second call changes nothing. *)
Theorem clear_dead_receivers_transparent w :
  let x := _clear_dead_receivers w in
  result x = Ok tt
  ∧ trace x = []
  ∧ _dead_receivers (sig (final x)) = false
  ∧ receivers (sig (final x))
    = (if _dead_receivers (sig w)
       then filter (fun e : entry => is_dead_ref (dead w) e.2 = false)
              (receivers (sig w))
       else receivers (sig w))
  ∧ (∀ sender, matching_live (final x) sender = matching_live w sender)
  ∧ sender_receivers_cache (sig (final x)) = sender_receivers_cache (sig w)
  ∧ (cache_consistent w → cache_consistent (final x))
  ∧ _clear_dead_receivers (final x) = (Ok tt, final x, []).
Proof.
  cbn zeta. rewrite _clear_dead_receivers_run.
  unfold result, trace, final. cbn [fst snd].
  split_and!; try done.
  - cbn. apply compacted_flag.
  - cbn [sig set_sig]. rewrite compacted_receivers.
    destruct (_dead_receivers (sig w)); [apply new_receivers_filter|done].
  - apply matching_live_set_compacted.
  - cbn [sig set_sig]. apply compacted_cache.
  - apply cache_consistent_compacted.
  - rewrite _clear_dead_receivers_run. f_equal. f_equal.
    rewrite compacted_settled; [apply set_sig_sig|].
    cbn. apply compacted_flag.
Qed.

(** ** X2: [has_listeners] *)

Lemma _live_receivers_ok sender w :
  cache_agrees w sender →
  negb (use_caching (sig w)) || cache_key_ok (sig w) sender = true →
  result (_live_receivers sender w) = Ok (matching_live w sender).
Proof.
  intros H K. rewrite _live_receivers_run.
  assert (use_caching (sig w) && negb (_dead_receivers (sig w))
          && negb (cache_key_ok (sig w) sender) = false) as ->.
  { destruct (use_caching (sig w)); [|done].
    cbn in K. rewrite K. cbn. by rewrite andb_false_r. }
  destruct (cache_hit w sender) as [e|] eqn:Eh.
  - assert (cache_lookup (sender_receivers_cache (sig w)) sender = Some e)
      as L.
    { unfold cache_hit in Eh. by destruct (_ && _). }
    specialize (H _ L). apply live_handles_resolve in H.
    fold (matching_live w sender) in H.
    destruct e as [|hs]; unfold result; cbn [fst snd entry_handles] in *.
    + cbn in H. by rewrite <- H.
    + by rewrite <- H.
  - rewrite K. unfold result. cbn [fst]. by rewrite matching_live_compacted.
Qed.

Lemma _live_receivers_bad_key sender w :
  negb (use_caching (sig w)) || cache_key_ok (sig w) sender = false →
  result (_live_receivers sender w) = Raise TypeError []
  ∧ calls (trace (_live_receivers sender w)) = [].
Proof.
  intros K. rewrite _live_receivers_run. unfold cache_hit. rewrite K.
  apply orb_false_iff in K as [Ku Kw].
  apply negb_false_iff in Ku. rewrite Ku, Kw. cbn [andb negb].
  by destruct (_dead_receivers (sig w)).
Qed.

Lemma _live_receivers_calls sender w :
  calls (trace (_live_receivers sender w)) = [].
Proof.
  rewrite _live_receivers_run. destruct (_ && _ && _); [done|].
  destruct (cache_hit w sender) as [[|hs]|]; [done|done|].
  by destruct (_ || _).
Qed.

Lemma resolved_matching_live w w1 sender :
  resolved w w1 → matching_live w1 sender = matching_live w sender.
Proof.
  intros [->|[->|[s ->]]]; [done|apply matching_live_set_compacted|].
  unfold rescanned. destruct (use_caching (compacted w)).
  - unfold matching_live at 1. cbn [sig dead set_sig with_cache receivers].
    apply matching_live_compacted.
  - apply matching_live_set_compacted.
Qed.

Lemma resolved_cache_consistent w w1 :
  resolved w w1 → cache_consistent w → cache_consistent w1.
Proof.
  intros [->|[->|[s ->]]] H; [done| |].
  - by apply cache_consistent_compacted.
  - by apply cache_consistent_rescanned.
Qed.

Lemma dispatch_nil {R} call sender named (policy : Res pyval → Res R)
    w called res w' :
  dispatch call sender named policy w [] called res w' →
  called = [] ∧ res = Ok [] ∧ w' = w.
Proof. by inversion 1. Qed.

Lemma has_listeners_final sender w :
  final (has_listeners sender w) = final (_live_receivers sender w)
  ∧ trace (has_listeners sender w) = trace (_live_receivers sender w)
  ∧ result (has_listeners sender w)
    = match result (_live_receivers sender w) with
      | Ok l => Ok (negb (bool_decide (l = [])))
      | Raise err tb => Raise err tb
      end.
Proof.
  unfold has_listeners, bind, ret, final, trace, result.
  destruct (_live_receivers sender w) as [[[l|err tb] w1] t1]; cbn; [|done].
  by rewrite app_nil_r.
Qed.

(** X2.  In a world whose cache is consistent, for a sender that is
    compared by identity: [has_listeners(sender)] tells whether some
    live receiver is connected for every sender or for this one, unless
    the signal caches and cannot look the sender up (no weak reference
    to it, as for the default [None], or no hash), in which case it
    raises [TypeError], also on an empty table, where [send] and
    [send_robust] return the empty list.  It invokes no receiver; it may
    compact the table and fill the cache, after which every sender still
    resolves to the same receivers and the cache is still consistent.
    When it answers false, [send] invokes nothing, and returns the empty
    list if the cache can look the sender up; when it answers true, a
    [send] that returns has responses. *)
Theorem has_listeners_reflects call sender named w :
  cache_consistent w →
  compared_by_identity sender = true →
  let x := has_listeners sender w in
  let usable := negb (use_caching (sig w)) || cache_key_ok (sig w) sender in
  (usable = true →
     result x = Ok (negb (bool_decide (matching_live w sender = [])))
     ∧ (result x = Ok false →
          calls (trace (send call sender named w)) = []
          ∧ (cache_key_ok (sig w) sender = true →
             result (send call sender named w) = Ok []))
     ∧ (result x = Ok true →
          ∀ responses, result (send call sender named w) = Ok responses →
                       responses ≠ []))
  ∧ (usable = false → result x = Raise TypeError [])
  ∧ (receivers (sig w) = [] →
       send call sender named w = (Ok [], w, [])
       ∧ send_robust call sender named w = (Ok [], w, []))
  ∧ calls (trace x) = []
  ∧ resolved w (final x)
  ∧ (∀ s, matching_live (final x) s = matching_live w s)
  ∧ cache_consistent (final x).
Proof.
  intros H0 I x usable. subst x usable.
  pose proof (cache_agrees_identity w sender H0 I) as H.
  destruct (has_listeners_final sender w) as (Ef & Et & Er).
  rewrite Ef, Et, Er.
  pose proof (_live_receivers_resolved sender w) as Hres.
  split_and!.
  - intros U. rewrite (_live_receivers_ok sender w H U).
    destruct (cache_key_ok (sig w) sender) eqn:K.
    + destruct (send_dispatches call sender named w H K) as (w1 & _ & D).
      split_and!; [done| |].
      * intros [= E]. apply negb_false_iff, bool_decide_eq_true in E.
        rewrite E in D. by apply dispatch_nil in D as (? & ? & _).
      * intros [= E] responses Hr Hn. subst responses.
        apply negb_true_iff, bool_decide_eq_false in E.
        rewrite Hr in D. apply dispatch_ok_all in D as [_ D].
        by rewrite <- D in E.
    + rewrite send_bad_key by done. split_and!; [done| |].
      * intros _. split; [|done]. by destruct (receivers (sig w)).
      * intros [= E] responses Hr.
        apply negb_true_iff, bool_decide_eq_false in E.
        unfold matching_live in E.
        destruct (receivers (sig w)); [done|discriminate Hr].
  - intros U. by rewrite (proj1 (_live_receivers_bad_key sender w U)).
  - intros E. unfold send, send_robust, bind.
    rewrite nothing_to_send_run, E. done.
  - apply _live_receivers_calls.
  - done.
  - intros s. by apply resolved_matching_live.
  - by apply resolved_cache_consistent with w.
Qed.

Lemma has_listeners_reflects_witness :
  cache_consistent (world_scoped true)
  ∧ compared_by_identity S1 = true
  ∧ result (has_listeners S1 (world_scoped true)) = Ok true
  ∧ result (has_listeners ONone (world_scoped true)) = Raise TypeError []
  ∧ matching_live (final (has_listeners S1 (world_scoped true))) S2
    = matching_live (world_scoped true) S2.
Proof.
  pose proof (world_scoped_cache_consistent true) as H.
  destruct (has_listeners_reflects call_ok S1 [] (world_scoped true) H eq_refl)
    as (Hok & _ & _ & _ & _ & Hm & _).
  destruct (has_listeners_reflects call_ok ONone [] (world_scoped true) H
              eq_refl)
    as (_ & Hbad & _).
  split; [exact H|]. split; [reflexivity|]. split_and!.
  - destruct (Hok eq_refl) as (-> & _). vm_compute. reflexivity.
  - apply Hbad. reflexivity.
  - apply Hm.
Defined.

(** ** X3: a receiver that is invoked has an entry that resolves to it *)

(** Whatever the sender, the resolution yields the live matching
    receivers of a sender that is equal to it. *)
Lemma resolution_any sender w :
  cache_consistent w →
  cache_key_ok (sig w) sender = true →
  ∃ s', key_of s' = key_of sender
        ∧ result (resolution sender w) = Ok (matching_live w s').
Proof.
  intros H K. unfold resolution, bind. rewrite nothing_to_send_run.
  destruct (receivers (sig w)) eqn:R.
  { exists sender. split; [done|]. cbn. unfold matching_live. by rewrite R. }
  rewrite K. case_bool_decide as N.
  { destruct (cache_consistent_lookup w sender _ H N) as (s' & Hk & E).
    exists s'. split; [done|]. unfold result. cbn. f_equal.
    unfold matching_live. symmetry.
    rewrite <- non_weak_receivers_live, <- E. done. }
  rewrite _live_receivers_run. rewrite K. cbn [negb].
  rewrite andb_false_r, orb_true_r.
  unfold cache_hit.
  destruct (use_caching (sig w) && negb (_dead_receivers (sig w))) eqn:C.
  - destruct (cache_lookup (sender_receivers_cache (sig w)) sender)
      as [[|handles]|] eqn:L.
    + done.
    + destruct (cache_consistent_lookup w sender _ H L) as (s' & Hk & E).
      exists s'. split; [done|]. unfold result. cbn. f_equal.
      unfold matching_live. by apply live_handles_resolve.
    + exists sender. split; [done|]. unfold result. cbn. f_equal.
      apply matching_live_compacted.
  - exists sender. split; [done|]. unfold result. cbn. f_equal.
    apply matching_live_compacted.
Qed.

(** Whatever the sender, the receivers [send] and [send_robust] call are
    among the live matching ones of a sender that is equal to it. *)
Lemma dispatch_calls_among call sender named w :
  cache_consistent w →
  ∃ s', key_of s' = key_of sender
        ∧ calls (trace (send call sender named w))
            `prefix_of` matching_live w s'
        ∧ calls (trace (send_robust call sender named w))
            `prefix_of` matching_live w s'.
Proof.
  intros H. destruct (cache_key_ok (sig w) sender) eqn:K.
  - destruct (resolution_any sender w H K) as (s' & Hk & Hr).
    exists s'. split; [done|].
    rewrite send_resolution, send_robust_resolution.
    pose proof (resolution_resolved sender w) as [_ Hc].
    unfold bind. destruct (resolution sender w) as [[r w1] t1].
    unfold result in Hr. cbn in Hr, Hc. subst r.
    pose proof (send_loop_dispatch call sender named
                  (matching_live w s') w1) as [Hs _].
    pose proof (send_robust_loop_dispatch call sender named
                  (matching_live w s') w1) as [Hd _].
    cbn zeta in Hs, Hd.
    destruct (send_loop call sender named (matching_live w s') [] w1)
      as [[r w2] t2].
    destruct (send_robust_loop call sender named (matching_live w s') [] w1)
      as [[r' w2'] t2'].
    unfold trace in *. cbn [snd] in *. unfold calls in *.
    rewrite !omap_app, Hc. cbn [app].
    split; by eapply dispatch_called_prefix.
  - exists sender. split; [done|].
    rewrite send_bad_key, send_robust_bad_key by done.
    destruct (receivers (sig w)); split; apply prefix_nil.
Qed.

Lemma deref_cases d h o :
  deref d h = Some o ↔ h = Strong o ∨ (h = Weak o ∧ obj_alive d o = true).
Proof.
  destruct h as [o'|o']; cbn.
  - split; [intros [= ->]; by left|]. by intros [[= ->]|[[=] _]].
  - destruct (obj_alive d o') eqn:A.
    + split; [intros [= ->]; by right|]. by intros [[=]|[[= ->] _]].
    + split; [done|]. intros [[=]|[[= ->] ?]]. congruence.
Qed.

(** X3.  In a world whose cache is consistent, whatever the sender,
    every receiver that [send] or [send_robust] invokes has an entry in
    the table that holds it strongly or through a weak reference that is
    still alive; the entry is registered for every sender or for a
    sender that is equal to the dispatched one, which is the dispatched
    one itself when it is compared by identity.  So a receiver that is
    held only weakly and has been collected is never invoked, whether or
    not the table has been compacted since. *)
Theorem dispatch_skips_collected call sender named w o :
  cache_consistent w →
  o ∈ calls (trace (send call sender named w))
  ∨ o ∈ calls (trace (send_robust call sender named w)) →
  ∃ key h s',
    (key, h) ∈ receivers (sig w)
    ∧ key_of s' = key_of sender
    ∧ (compared_by_identity sender = true → s' = sender)
    ∧ (key.2 = NONE_ID ∨ key.2 = _make_id s')
    ∧ (h = Strong o ∨ (h = Weak o ∧ obj_alive (dead w) o = true)).
Proof.
  intros H Hin.
  destruct (dispatch_calls_among call sender named w H) as (s' & Hk & Hs & Hr).
  assert (o ∈ matching_live w s') as Hm.
  { destruct Hin as [Hin|Hin]; eapply elem_of_prefix; done. }
  apply matching_live_elem in Hm as ([key h] & He & Hm & Hd).
  exists key, h, s'. split_and!; [done|done| |exact Hm|by apply deref_cases].
  intros I. by apply key_of_identity.
Qed.

Lemma dispatch_skips_collected_witness :
  cache_consistent (run call_ok [Collect 1] (world_ABC true))
  ∧ rB ∈ calls (trace (send call_ok S1 [] (run call_ok [Collect 1] (world_ABC true))))
  ∧ (rA ∉ calls (trace (send call_ok S1 []
                          (run call_ok [Collect 1] (world_ABC true)))))
  ∧ ∃ key h s',
      (key, h) ∈ receivers (sig (run call_ok [Collect 1] (world_ABC true)))
      ∧ key_of s' = key_of S1
      ∧ (compared_by_identity S1 = true → s' = S1)
      ∧ (key.2 = NONE_ID ∨ key.2 = _make_id s')
      ∧ (h = Strong rB
         ∨ (h = Weak rB
            ∧ obj_alive (dead (run call_ok [Collect 1] (world_ABC true))) rB
              = true)).
Proof.
  assert (cache_consistent (run call_ok [Collect 1] (world_ABC true))) as H.
  { unfold world_ABC. apply run_invariant.
    - apply cache_consistent_invariant. intros receiver s n w Hw. exact Hw.
    - apply run_invariant; [|apply boot_cache_consistent].
      apply cache_consistent_invariant. intros receiver s n w Hw. exact Hw. }
  assert (calls (trace (send call_ok S1 []
                          (run call_ok [Collect 1] (world_ABC true))))
          = [rB; rC]) as Ec by (vm_compute; reflexivity).
  split; [exact H|]. split; [rewrite Ec; by left|]. split.
  - rewrite Ec. intros Hin.
    apply elem_of_cons in Hin as [Hin|Hin]; [discriminate Hin|].
    apply elem_of_cons in Hin as [Hin|Hin]; [discriminate Hin|].
    by apply elem_of_nil in Hin.
  - apply (dispatch_skips_collected call_ok S1 []
             (run call_ok [Collect 1] (world_ABC true)) rB H).
    left. rewrite Ec. by left.
Defined.

(** ** X4: [send] and [send_robust] agree when no receiver raises *)

Lemma send_loop_robust call sender named l w responses w' t :
  send_loop call sender named l [] w = (Ok responses, w', t) →
  send_robust_loop call sender named l [] w
  = (Ok (map (fun p => (p.1, Returned p.2)) responses), w', t).
Proof.
  revert w responses w' t.
  induction l as [|r rest IH]; intros w responses w' t.
  - cbn. unfold ret. by intros [= <- <- <-].
  - cbn [send_loop send_robust_loop]. unfold bind, try_invoke, invoke.
    destruct (call r sender named w) as [[v|err tb] w1]; [|done].
    rewrite send_loop_acc, send_robust_loop_acc.
    destruct (send_loop call sender named rest [] w1) as [[[rs|err tb] w2] t2]
      eqn:E; cbn; [|done].
    intros [= <- <- <-]. rewrite (IH _ _ _ _ E). done.
Qed.

(** X4.  When [send] returns, [send_robust] on the same world returns
    the same responses, each marked as a returned value, leaves the same
    world and has made the same lock acquisitions and calls. *)
Theorem send_robust_agrees call sender named w responses :
  result (send call sender named w) = Ok responses →
  send_robust call sender named w
  = (Ok (map (fun p => (p.1, Returned p.2)) responses),
     final (send call sender named w), trace (send call sender named w)).
Proof.
  rewrite send_resolution, send_robust_resolution. unfold bind.
  destruct (resolution sender w) as [[[l|err tb] w1] t1]; [|done].
  destruct (send_loop call sender named l [] w1) as [[[rs|err tb] w2] t2] eqn:E;
    unfold result, final, trace; cbn [fst snd]; [|done].
  intros [= <-]. by rewrite (send_loop_robust _ _ _ _ _ _ _ _ E).
Qed.

Lemma send_robust_agrees_witness :
  result (send call_ok S1 [] (world_ABC true))
  = Ok [(rA, PInt 1); (rB, PInt 2); (rC, PInt 3)]
  ∧ result (send_robust call_ok S1 [] (world_ABC true))
    = Ok [(rA, Returned (PInt 1)); (rB, Returned (PInt 2));
          (rC, Returned (PInt 3))].
Proof.
  assert (result (send call_ok S1 [] (world_ABC true))
          = Ok [(rA, PInt 1); (rB, PInt 2); (rC, PInt 3)]) as E
    by (vm_compute; reflexivity).
  split; [exact E|].
  rewrite (send_robust_agrees call_ok S1 [] (world_ABC true) _ E).
  reflexivity.
Defined.

(** ** X5 and X6: the order of registration is the order of dispatch *)

Lemma matches_connected_key receiver sender dispatch_uid sender' :
  bool_decide ((make_lookup_key receiver sender dispatch_uid).2 = NONE_ID)
  || bool_decide ((make_lookup_key receiver sender dispatch_uid).2
                  = _make_id sender')
  = bool_decide (sender = ONone ∨ sender' = sender).
Proof.
  rewrite make_lookup_key_snd.
  destruct (decide (sender = ONone ∨ sender' = sender)) as [Hs|Hs].
  - rewrite (bool_decide_eq_true_2 _ Hs). destruct Hs as [->| ->].
    + by rewrite bool_decide_eq_true_2.
    + rewrite (bool_decide_eq_true_2 (_ = _make_id sender)) by done.
      by rewrite orb_true_r.
  - rewrite (bool_decide_eq_false_2 _ Hs). apply orb_false_iff.
    split; apply bool_decide_eq_false_2; intros E; apply Hs.
    + left. by apply _make_id_NONE_ID.
    + right. symmetry. by apply _make_id_inj.
Qed.

Lemma matching_live_connected receiver sender weak dispatch_uid w sender' :
  make_lookup_key receiver sender dispatch_uid ∉ (receivers (compacted w)).*1 →
  (weak = true → obj_alive (dead w) receiver = true) →
  matching_live (connected receiver sender weak dispatch_uid w) sender'
  = matching_live w sender'
    ++ (if bool_decide (sender = ONone ∨ sender' = sender)
        then [receiver] else []).
Proof.
  intros Hk Ha. unfold matching_live at 1.
  rewrite connected_receivers, connected_dead.
  rewrite connect_table_fresh by done.
  rewrite scan_app, non_weak_receivers_app, matching_live_compacted.
  f_equal. rewrite scan_singleton, matches_connected_key.
  destruct (bool_decide (sender = ONone ∨ sender' = sender)); [|done].
  destruct weak; cbn; [by rewrite Ha|done].
Qed.

Lemma matching_live_reconnected receiver sender weak dispatch_uid w sender' :
  make_lookup_key receiver sender dispatch_uid ∈ (receivers (compacted w)).*1 →
  matching_live (connected receiver sender weak dispatch_uid w) sender'
  = matching_live w sender'.
Proof.
  intros Hk. unfold matching_live at 1.
  rewrite connected_receivers, connected_dead. unfold connect_table.
  rewrite (proj2 (key_connected_elem _ _) Hk).
  apply matching_live_compacted.
Qed.

(** X5.  A [connect] that returns, for a receiver that is alive, either
    finds its key in the compacted table, and then every sender resolves
    to the same receivers as before, or appends: then a sender the
    receiver is connected for resolves to the receivers it resolved to
    before, in their order, followed by the new receiver, and any other
    sender to the same receivers as before.  A [send] that returns has
    invoked exactly those, the new receiver last. *)
Theorem connect_extends_dispatch call receiver sender weak dispatch_uid w :
  weak = false ∨ weakly_referenceable receiver = true →
  (weak = true → obj_alive (dead w) receiver = true) →
  let key := make_lookup_key receiver sender dispatch_uid in
  let w1 := final (connect receiver sender weak dispatch_uid w) in
  let added sender' :=
    if bool_decide (sender = ONone ∨ sender' = sender)
    then [receiver] else [] in
  (key ∈ (receivers (compacted w)).*1 →
     ∀ sender', matching_live w1 sender' = matching_live w sender')
  ∧ (key ∉ (receivers (compacted w)).*1 →
     ∀ sender',
       matching_live w1 sender' = matching_live w sender' ++ added sender'
       ∧ (cache_key_ok (sig w) sender' = true →
          ∀ named responses,
            result (send call sender' named w1) = Ok responses →
            calls (trace (send call sender' named w1))
            = matching_live w sender' ++ added sender'
            ∧ responses.*1 = matching_live w sender' ++ added sender')).
Proof.
  intros Hw Ha key w1 added.
  assert (w1 = connected receiver sender weak dispatch_uid w) as E1.
  { subst w1. by rewrite connect_returns. }
  split.
  - intros Hk sender'. rewrite E1. by apply matching_live_reconnected.
  - intros Hk sender'.
    assert (matching_live w1 sender' = matching_live w sender' ++ added sender')
      as Em.
    { rewrite E1. by apply matching_live_connected. }
    split; [done|]. intros K named responses Hr.
    assert (cache_agrees w1 sender') as Hcc.
    { apply cache_agrees_empty. by rewrite E1, connected_cache. }
    assert (cache_key_ok (sig w1) sender' = true) as K1.
    { unfold cache_key_ok in *. by rewrite E1, connected_use_caching. }
    destruct (send_dispatches call sender' named w1 Hcc K1) as (w2 & _ & D).
    rewrite Hr in D. apply dispatch_ok_all in D as [-> ->]. by rewrite Em.
Qed.

Lemma connect_extends_dispatch_witness :
  obj_alive (dead (world_scoped true)) rC = true
  ∧ (let w1 := final (connect rC S2 true PNone (world_scoped true)) in
     matching_live (world_scoped true) S2 = [rB]
     ∧ matching_live w1 S2 = [rB; rC]
     ∧ matching_live w1 S1 = [rA; rB]).
Proof.
  split; [reflexivity|].
  destruct (connect_extends_dispatch call_ok rC S2 true PNone (world_scoped true)
              (or_intror eq_refl) (fun _ => eq_refl)) as [_ Hnew].
  cbn zeta in *.
  assert (make_lookup_key rC S2 PNone
            ∉ (receivers (compacted (world_scoped true))).*1) as Hk.
  { vm_compute. intros Hin.
    apply elem_of_cons in Hin as [Hin|Hin]; [discriminate Hin|].
    apply elem_of_cons in Hin as [Hin|Hin]; [discriminate Hin|].
    by apply elem_of_nil in Hin. }
  assert (matching_live (world_scoped true) S2 = [rB]) as E2
    by (vm_compute; reflexivity).
  assert (matching_live (world_scoped true) S1 = [rA; rB]) as E1
    by (vm_compute; reflexivity).
  split; [exact E2|]. split.
  - destruct (Hnew Hk S2) as [-> _]. rewrite E2. reflexivity.
  - destruct (Hnew Hk S1) as [-> _]. rewrite E1. reflexivity.
Defined.

Lemma connected_keys_sub receiver sender weak dispatch_uid w key :
  key ∈ (receivers (sig (connected receiver sender weak dispatch_uid w))).*1 →
  key ∈ (receivers (sig w)).*1
  ∨ key = make_lookup_key receiver sender dispatch_uid.
Proof.
  rewrite connected_receivers. unfold connect_table.
  assert (key ∈ (receivers (compacted w)).*1 → key ∈ (receivers (sig w)).*1)
    as Hsub.
  { intros (e & -> & He)%list_elem_of_fmap. apply list_elem_of_fmap.
    exists e. split; [done|].
    eapply elem_of_sublist; [done|apply compacted_sublist]. }
  destruct (key_connected _ _); [by left; apply Hsub|].
  rewrite fmap_app. intros [Hin|Hin]%elem_of_app; [by left; apply Hsub|].
  right. cbn in Hin. by apply list_elem_of_singleton in Hin.
Qed.

Lemma run_cons call o ops w : run call (o :: ops) w = run call ops (step call w o).
Proof. done. Qed.

Lemma matching_live_connect_all call weak rs w sender :
  NoDup rs →
  (∀ r, r ∈ rs → weak = false ∨ weakly_referenceable r = true) →
  (∀ r, r ∈ rs → obj_alive (dead w) r = true) →
  (∀ r, r ∈ rs → (_make_id r, NONE_ID) ∉ (receivers (sig w)).*1) →
  matching_live
    (run call (map (fun r => Connect r ONone weak PNone) rs) w) sender
  = matching_live w sender ++ rs.
Proof.
  revert w. induction rs as [|r rs IH]; intros w N Hw Ha Hk.
  - cbn. by rewrite app_nil_r.
  - apply NoDup_cons in N as [Hr N].
    cbn [map]. rewrite run_cons. cbn [step].
    rewrite connect_returns by (apply Hw; by left).
    unfold final. cbn [fst snd]. rewrite IH.
    + rewrite matching_live_connected.
      * rewrite bool_decide_eq_true_2 by by left. by rewrite <- app_assoc.
      * intros (e & Ee & He)%list_elem_of_fmap.
        apply (Hk r); [by left|]. apply list_elem_of_fmap. exists e.
        split; [done|]. eapply elem_of_sublist; [done|apply compacted_sublist].
      * intros _. apply Ha. by left.
    + done.
    + intros r' Hr'. apply Hw. by right.
    + intros r' Hr'. rewrite connected_dead. apply Ha. by right.
    + intros r' Hr' [Hin|Hin]%connected_keys_sub.
      * apply (Hk r'); [by right|done].
      * inversion Hin as [E]. apply _make_id_inj in E. by subst.
Qed.

Lemma obj_alive_empty o : obj_alive ∅ o = true.
Proof.
  destruct o as [|a|s f|a c]; cbn; [done| | |].
  - apply bool_decide_eq_true_2, not_elem_of_empty.
  - apply andb_true_iff.
    split; apply bool_decide_eq_true_2, not_elem_of_empty.
  - apply bool_decide_eq_true_2, not_elem_of_empty.
Qed.

Lemma cache_empty_connect_all call weak rs w :
  (∀ r, r ∈ rs → weak = false ∨ weakly_referenceable r = true) →
  sender_receivers_cache (sig w) = ∅ →
  sender_receivers_cache
    (sig (run call (map (fun r => Connect r ONone weak PNone) rs) w)) = ∅.
Proof.
  revert w. induction rs as [|r rs IH]; intros w Hw Hc; [done|].
  cbn [map]. rewrite run_cons. cbn [step].
  rewrite connect_returns by (apply Hw; by left).
  unfold final. cbn [fst snd]. apply IH.
  - intros r' Hr'. apply Hw. by right.
  - apply connected_cache.
Qed.

(** X6.  Receivers that are pairwise distinct, connected one after the
    other to a new signal for every sender and without [dispatch_uid]
    (not weakly, or each of them can be weakly referenced), are resolved
    in the order of their registration, for every sender; a [send] that
    returns, whatever its sender, has invoked them in that order and is
    a dispatch over them that pairs each, in that order, with what it
    returned. *)
Theorem dispatch_in_registration_order call weak rs args caching sender named :
  NoDup rs →
  (∀ r, r ∈ rs → weak = false ∨ weakly_referenceable r = true) →
  let w := run call (map (fun r => Connect r ONone weak PNone) rs)
             (boot args caching) in
  let x := send call sender named w in
  matching_live w sender = rs
  ∧ (∀ responses,
       result x = Ok responses →
       calls (trace x) = rs
       ∧ responses.*1 = rs
       ∧ ∃ w1, resolved w w1
           ∧ dispatch call sender named propagate w1 rs rs (Ok responses)
               (final x)).
Proof.
  intros N Hw w x.
  assert (matching_live w sender = rs) as Em.
  { subst w. rewrite matching_live_connect_all.
    - done.
    - done.
    - done.
    - intros r _. apply obj_alive_empty.
    - intros r _ Hin. cbn in Hin. by apply elem_of_nil in Hin. }
  split; [done|]. intros responses Hr.
  assert (cache_agrees w sender) as Hcc.
  { apply cache_agrees_empty. subst w.
    by apply cache_empty_connect_all. }
  destruct (cache_key_ok (sig w) sender) eqn:K.
  - destruct (send_dispatches call sender named w Hcc K) as (w1 & Hres & D).
    fold x in D. rewrite Hr, Em in D.
    pose proof D as D'. apply dispatch_ok_all in D' as [Hc Hp].
    rewrite Hc in D. split_and!; [done|done|]. by exists w1.
  - subst x. rewrite send_bad_key in Hr |- * by done.
    unfold matching_live in Em.
    destruct (receivers (sig w)); [|done]. cbn in Em. subst rs.
    unfold result in Hr. cbn in Hr. injection Hr as <-.
    unfold trace, final. cbn. split_and!; [done|done|].
    exists w. split; [by left|]. constructor.
Qed.

Lemma dispatch_in_registration_order_witness :
  NoDup [rC; rA; rB]
  ∧ (let w := run call_ok (map (fun r => Connect r ONone true PNone) [rC; rA; rB])
                (boot [] false) in
     matching_live w ONone = [rC; rA; rB]
     ∧ calls (trace (send call_ok ONone [] w)) = [rC; rA; rB]
     ∧ result (send call_ok ONone [] w)
       = Ok [(rC, PInt 3); (rA, PInt 1); (rB, PInt 2)]).
Proof.
  assert (NoDup [rC; rA; rB]) as N.
  { apply NoDup_cons. split.
    - intros Hin. apply elem_of_cons in Hin as [Hin|Hin]; [discriminate Hin|].
      apply elem_of_cons in Hin as [Hin|Hin]; [discriminate Hin|].
      by apply elem_of_nil in Hin.
    - apply NoDup_cons. split.
      + intros Hin. apply elem_of_cons in Hin as [Hin|Hin]; [discriminate Hin|].
        by apply elem_of_nil in Hin.
      + apply NoDup_singleton. }
  split; [exact N|].
  assert (∀ r, r ∈ [rC; rA; rB] → true = false ∨ weakly_referenceable r = true)
    as Hw.
  { intros r Hin. right.
    apply elem_of_cons in Hin as [->|Hin]; [reflexivity|].
    apply elem_of_cons in Hin as [->|Hin]; [reflexivity|].
    apply elem_of_cons in Hin as [->|Hin]; [reflexivity|].
    by apply elem_of_nil in Hin. }
  destruct (dispatch_in_registration_order call_ok true [rC; rA; rB] [] false
              ONone [] N Hw) as [Hm Hs].
  cbn zeta in *. split; [exact Hm|].
  assert (result (send call_ok ONone []
            (run call_ok
               (map (fun r => Connect r ONone true PNone) [rC; rA; rB])
               (boot [] false)))
          = Ok [(rC, PInt 3); (rA, PInt 1); (rB, PInt 2)]) as E
    by (vm_compute; reflexivity).
  destruct (Hs _ E) as (Hc & _). split; [exact Hc|exact E].
Defined.

(** ** X7: the first receiver of a [dispatch_uid] wins *)

Lemma make_lookup_key_truthy receiver sender dispatch_uid :
  truthy dispatch_uid = true →
  make_lookup_key receiver sender dispatch_uid = (dispatch_uid, _make_id sender).
Proof. unfold make_lookup_key. by intros ->. Qed.

Lemma connected_entries receiver sender weak dispatch_uid w e :
  e ∈ receivers (sig (connected receiver sender weak dispatch_uid w)) →
  e ∈ receivers (sig w)
  ∨ e = (make_lookup_key receiver sender dispatch_uid,
         connect_handle receiver weak).
Proof.
  rewrite connected_receivers. unfold connect_table.
  assert (e ∈ receivers (compacted w) → e ∈ receivers (sig w)) as Hsub.
  { intros He. eapply elem_of_sublist; [done|apply compacted_sublist]. }
  destruct (key_connected _ _); [by left; apply Hsub|].
  intros [Hin|Hin]%elem_of_app; [by left; apply Hsub|].
  right. by apply list_elem_of_singleton in Hin.
Qed.

Lemma connect_handle_obj receiver weak :
  handle_obj (connect_handle receiver weak) = receiver.
Proof. by destruct weak. Qed.

(** X7.  With a [dispatch_uid] that is truthy, a second [connect] for
    the same sender and [dispatch_uid] but another receiver returns
    without adding it: the table and what every sender resolves to are
    as the first [connect] left them, and a [send] that follows never
    invokes the second receiver, unless it was connected before. *)
Theorem dispatch_uid_first_wins call r1 r2 sender weak weak' dispatch_uid w :
  truthy dispatch_uid = true →
  weak = false ∨ weakly_referenceable r1 = true →
  weak' = false ∨ weakly_referenceable r2 = true →
  let w1 := final (connect r1 sender weak dispatch_uid w) in
  let x2 := connect r2 sender weak' dispatch_uid w1 in
  result x2 = Ok tt
  ∧ receivers (sig (final x2)) = receivers (sig w1)
  ∧ (∀ s, matching_live (final x2) s = matching_live w1 s)
  ∧ (r2 ≠ r1 →
     (∀ e, e ∈ receivers (sig w) → handle_obj e.2 ≠ r2) →
     ∀ sender' named,
       r2 ∉ calls (trace (send call sender' named (final x2)))).
Proof.
  intros T H1 H2 w1 x2.
  assert (w1 = connected r1 sender weak dispatch_uid w) as E1.
  { subst w1. by rewrite connect_returns. }
  assert (x2 = (Ok tt, connected r2 sender weak' dispatch_uid w1, [EvLock]))
    as E2.
  { subst x2. by rewrite connect_returns. }
  assert (receivers (sig (connected r2 sender weak' dispatch_uid w1))
          = receivers (sig w1)) as Et.
  { rewrite connected_receivers.
    rewrite compacted_settled by (rewrite E1; apply connected_flag).
    rewrite E1, connected_receivers.
    rewrite (make_lookup_key_truthy r2), <- (make_lookup_key_truthy r1) by done.
    apply connect_table_again. }
  rewrite E2. unfold result, final. cbn [fst snd].
  split_and!; [done|done| |].
  - intros s. unfold matching_live. by rewrite Et, connected_dead.
  - intros Hne Hfresh sender' named Hin.
    set (w2 := connected r2 sender weak' dispatch_uid w1) in *.
    assert (cache_agrees w2 sender') as Hcc.
    { apply cache_agrees_empty. apply connected_cache. }
    pose proof (send_calls_prefix call sender' named w2 Hcc) as Hp.
    eapply elem_of_prefix in Hin; [|exact Hp].
    apply matching_live_elem in Hin as (e & He & _ & Hd).
    apply deref_handle_obj in Hd. rewrite Et, E1 in He.
    apply connected_entries in He as [He| ->].
    + by apply (Hfresh e He).
    + cbn in Hd. rewrite connect_handle_obj in Hd. by subst.
Qed.

Lemma dispatch_uid_first_wins_witness :
  truthy (PStr "once") = true
  ∧ (let w1 := final (connect rA ONone true (PStr "once") (boot [] false)) in
     let x2 := connect rB ONone true (PStr "once") w1 in
     result x2 = Ok tt
     ∧ receivers (sig (final x2)) = [((PStr "once", PInt 0), Weak rA)]
     ∧ (rB ∉ calls (trace (send call_ok S1 [] (final x2))))).
Proof.
  split; [reflexivity|].
  destruct (dispatch_uid_first_wins call_ok rA rB ONone true true (PStr "once")
              (boot [] false) eq_refl (or_intror eq_refl) (or_intror eq_refl))
    as (Hr & Ht & _ & Hn).
  cbn zeta in *. split; [exact Hr|]. split.
  - rewrite Ht. vm_compute. reflexivity.
  - apply Hn; [discriminate|].
    intros e He. cbn in He. by apply elem_of_nil in He.
Defined.

(** ** X8: connecting and disconnecting again *)

(** X8.  A [connect] that adds an entry is undone by a [disconnect] for
    the same sender and [dispatch_uid] that passes the same receiver or,
    when the [dispatch_uid] is truthy, any receiver or none, whatever the
    [weak] arguments: it returns true, the table is the one [connect]
    started from after its compaction, the cache is empty, and every
    sender resolves to the receivers it resolved to before the
    [connect]. *)
Theorem connect_disconnect_round_trip
    receiver sender weak dispatch_uid w receiver' weak' :
  weak = false ∨ weakly_referenceable receiver = true →
  make_lookup_key receiver sender dispatch_uid ∉ (receivers (compacted w)).*1 →
  truthy dispatch_uid = true ∨ receiver' = receiver →
  let w1 := final (connect receiver sender weak dispatch_uid w) in
  let x := disconnect receiver' sender weak' dispatch_uid w1 in
  result x = Ok true
  ∧ receivers (sig (final x)) = receivers (compacted w)
  ∧ sender_receivers_cache (sig (final x)) = ∅
  ∧ dead (final x) = dead w
  ∧ (∀ s, matching_live (final x) s = matching_live w s).
Proof.
  intros Hw Hk Hr w1 x.
  assert (w1 = connected receiver sender weak dispatch_uid w) as E1.
  { subst w1. by rewrite connect_returns. }
  assert (make_lookup_key receiver' sender dispatch_uid
          = make_lookup_key receiver sender dispatch_uid) as Ek.
  { destruct Hr as [T| ->]; [|done]. by rewrite !make_lookup_key_truthy. }
  assert (receivers (compacted w1)
          = receivers (compacted w)
            ++ [(make_lookup_key receiver sender dispatch_uid,
                 connect_handle receiver weak)]) as Et.
  { rewrite compacted_settled by (rewrite E1; apply connected_flag).
    rewrite E1, connected_receivers. by apply connect_table_fresh. }
  subst x. rewrite disconnect_run. unfold result, final. cbn [fst snd].
  assert (receivers (sig (disconnected receiver' sender dispatch_uid w1))
          = receivers (compacted w)) as Ef.
  { rewrite disconnected_receivers, Ek, Et.
    rewrite remove_first_split by done. apply app_nil_r. }
  split_and!.
  - f_equal. rewrite Ek, Et. apply key_connected_elem.
    rewrite fmap_app, elem_of_app. right. cbn. by left.
  - done.
  - done.
  - cbn. by rewrite E1, connected_dead.
  - intros s. unfold matching_live. rewrite Ef.
    assert (dead (disconnected receiver' sender dispatch_uid w1) = dead w) as ->.
    { cbn. by rewrite E1, connected_dead. }
    apply matching_live_compacted.
Qed.

Lemma connect_disconnect_round_trip_witness :
  (make_lookup_key rC S2 (PStr "uid")
     ∉ (receivers (compacted (world_scoped true))).*1)
  ∧ (let w1 := final (connect rC S2 false (PStr "uid") (world_scoped true)) in
     let x := disconnect ONone S2 true (PStr "uid") w1 in
     receivers (sig w1)
     = [((PInt 1, PInt 10), Weak rA); ((PInt 2, PInt 0), Weak rB);
        ((PStr "uid", PInt 11), Strong rC)]
     ∧ result x = Ok true
     ∧ receivers (sig (final x)) = receivers (sig (world_scoped true))).
Proof.
  assert (make_lookup_key rC S2 (PStr "uid")
            ∉ (receivers (compacted (world_scoped true))).*1) as Hk.
  { vm_compute. intros Hin.
    apply elem_of_cons in Hin as [Hin|Hin]; [discriminate Hin|].
    apply elem_of_cons in Hin as [Hin|Hin]; [discriminate Hin|].
    by apply elem_of_nil in Hin. }
  split; [exact Hk|].
  destruct (connect_disconnect_round_trip rC S2 false (PStr "uid")
              (world_scoped true) ONone true (or_introl eq_refl) Hk
              (or_introl eq_refl)) as (Hr & Ht & _).
  cbn zeta in *. split; [vm_compute; reflexivity|]. split; [exact Hr|].
  rewrite Ht. vm_compute. reflexivity.
Defined.

(** ** X9: [disconnect] is scoped by sender *)

(** X9.  A [disconnect] that names another sender than the one a
    receiver was connected with does not remove that entry, with or
    without [dispatch_uid]: the entry's key stays in the table, and the
    call returns false when no entry has the key it looked for. *)
Theorem disconnect_is_scoped_by_sender
    receiver receiver' sender sender' weak weak' dispatch_uid dispatch_uid' w :
  weak = false ∨ weakly_referenceable receiver = true →
  sender' ≠ sender →
  let key := make_lookup_key receiver sender dispatch_uid in
  let key' := make_lookup_key receiver' sender' dispatch_uid' in
  let w1 := final (connect receiver sender weak dispatch_uid w) in
  let x := disconnect receiver' sender' weak' dispatch_uid' w1 in
  key ∈ (receivers (sig w1)).*1
  ∧ key ∈ (receivers (sig (final x))).*1
  ∧ (key' ∉ (receivers (sig w)).*1 →
     result x = Ok false ∧ receivers (sig (final x)) = receivers (sig w1)).
Proof.
  intros Hw Hs key key' w1 x.
  assert (w1 = connected receiver sender weak dispatch_uid w) as E1.
  { subst w1. by rewrite connect_returns. }
  assert (key' ≠ key) as Hne.
  { intros E. apply (f_equal snd) in E. subst key key'.
    rewrite !make_lookup_key_snd in E. by apply _make_id_inj in E. }
  assert (key ∈ (receivers (sig w1)).*1) as Hin.
  { rewrite E1, connected_receivers.
    apply key_connected_elem, connect_table_connected. }
  assert (compacted w1 = sig w1) as Ec.
  { apply compacted_settled. rewrite E1. apply connected_flag. }
  subst x. rewrite disconnect_run. unfold result, final. cbn [fst snd].
  rewrite disconnected_receivers, Ec. fold key'.
  split_and!; [done|by apply remove_first_other|].
  intros Hout.
  assert (key' ∉ (receivers (sig w1)).*1) as Hout1.
  { rewrite E1. intros [?|?]%connected_keys_sub; [done|]. by apply Hne. }
  split; [f_equal; by apply key_connected_false|by apply remove_first_absent].
Qed.

Lemma disconnect_is_scoped_by_sender_witness :
  S2 ≠ S1
  ∧ (let w1 := final (connect rA S1 true PNone (boot [] false)) in
     let x := disconnect rA S2 true PNone w1 in
     result x = Ok false
     ∧ receivers (sig (final x)) = [((PInt 1, PInt 10), Weak rA)]).
Proof.
  assert (S2 ≠ S1) as Hne by discriminate.
  split; [exact Hne|].
  destruct (disconnect_is_scoped_by_sender rA rA S1 S2 true true PNone PNone
              (boot [] false) (or_intror eq_refl) Hne) as (_ & _ & Hf).
  cbn zeta in *. destruct Hf as [Hr Ht].
  - cbn. apply not_elem_of_nil.
  - split; [exact Hr|]. rewrite Ht. vm_compute. reflexivity.
Defined.

(** ** X10: when two lookup keys are the same *)

(** X10.  The keys that [connect] and [disconnect] build for two calls
    are equal exactly when the senders are the same object and either
    both calls give the same truthy [dispatch_uid], or neither gives one
    and the receivers are the same object, or one call gives as
    [dispatch_uid] the very value [_make_id] yields for the receiver of
    the other call, which gives none. *)
Theorem lookup_keys_collide r s u r' s' u' :
  make_lookup_key r s u = make_lookup_key r' s' u'
  ↔ s = s'
    ∧ ((truthy u = true ∧ truthy u' = true ∧ u = u')
       ∨ (truthy u = false ∧ truthy u' = false ∧ r = r')
       ∨ (truthy u = true ∧ truthy u' = false ∧ u = _make_id r')
       ∨ (truthy u = false ∧ truthy u' = true ∧ _make_id r = u')).
Proof.
  unfold make_lookup_key.
  destruct (truthy u) eqn:T, (truthy u') eqn:T'; split.
  - intros [= -> E]. apply _make_id_inj in E. split; [done|]. by left.
  - intros [-> [(_ & _ & ->)|[(? & _)|[(_ & ? & _)|(? & _)]]]]; done.
  - intros [= -> E]. apply _make_id_inj in E. split; [done|].
    right. right. by left.
  - intros [-> [(_ & ? & _)|[(? & _)|[(_ & _ & ->)|(? & _)]]]]; done.
  - intros [= E1 E]. apply _make_id_inj in E. split; [done|].
    right. right. by right.
  - intros [-> [(? & _)|[(_ & ? & _)|[(? & _)|(_ & _ & <-)]]]]; done.
  - intros [= E1 E]. apply _make_id_inj in E1. apply _make_id_inj in E.
    split; [done|]. right. by left.
  - intros [-> [(? & _)|[(_ & _ & ->)|[(? & _)|(_ & ? & _)]]]]; done.
Qed.

(** ** X11: a repeated [send] on a caching signal *)

Lemma resolution_cases sender w :
  (∃ r, resolution sender w = (r, w, []))
  ∨ (cache_key_ok (sig w) sender = true
     ∧ resolution sender w
       = (Ok (non_weak_receivers (dead w)
                (scan (_make_id sender) (receivers (compacted w)))),
          rescanned sender w, [EvLock])).
Proof.
  unfold resolution, bind. rewrite nothing_to_send_run.
  destruct (receivers (sig w)) eqn:R; [left; by eexists|].
  destruct (cache_key_ok (sig w) sender) eqn:K; [|left; by eexists].
  case_bool_decide as N; [left; by eexists|].
  rewrite _live_receivers_run.
  destruct (_ && _ && _); [left; by eexists|].
  destruct (cache_hit w sender) as [[|handles]|];
    [left; by eexists|left; by eexists|].
  rewrite K, orb_true_r. by right.
Qed.

Lemma cache_lookup_store sender value (c : cache) :
  hashable sender = true →
  cache_lookup (cache_store sender value c) sender = Some value.
Proof.
  unfold hashable, cache_lookup, cache_store.
  destruct (key_of sender) as [k|]; [|done]. intros _.
  by rewrite lookup_insert_eq.
Qed.

Lemma rescanned_again sender w :
  use_caching (sig w) = true →
  cache_key_ok (sig w) sender = true →
  resolution sender (rescanned sender w)
  = (Ok (non_weak_receivers (dead w)
           (scan (_make_id sender) (receivers (compacted w)))),
     rescanned sender w, []).
Proof.
  intros C K.
  assert (hashable sender = true) as Hh.
  { unfold cache_key_ok in K. by apply andb_true_iff in K as [_ ?]. }
  set (hs := scan (_make_id sender) (receivers (compacted w))).
  assert (sig (rescanned sender w)
          = with_cache (cache_store sender (cached_value hs)
                          (sender_receivers_cache (compacted w)))
              (compacted w)) as E.
  { unfold rescanned. by rewrite compacted_use_caching, C. }
  assert (dead (rescanned sender w) = dead w) as Ed.
  { unfold rescanned. by rewrite compacted_use_caching, C. }
  assert (cache_key_ok (sig (rescanned sender w)) sender = true) as K'.
  { rewrite E. unfold cache_key_ok in *. cbn [use_caching with_cache].
    by rewrite compacted_use_caching. }
  unfold resolution, bind. rewrite nothing_to_send_run, K'.
  rewrite E. cbn [receivers with_cache use_caching sender_receivers_cache].
  rewrite cache_lookup_store by done.
  destruct (receivers (compacted w)) as [|e l] eqn:R; [done|].
  destruct hs as [|h hs'] eqn:H; cbn [cached_value].
  { rewrite bool_decide_eq_true_2 by done. done. }
  rewrite bool_decide_eq_false_2 by done.
  rewrite _live_receivers_run, K'. unfold cache_hit. rewrite E.
  cbn [use_caching with_cache _dead_receivers sender_receivers_cache].
  rewrite compacted_use_caching, C, compacted_flag. cbn [negb andb].
  rewrite cache_lookup_store by done. cbn [cached_value]. by rewrite Ed.
Qed.

(** Looking the receivers up a second time, on a caching signal, gives
    the same answer without taking the lock or changing anything. *)
Lemma resolution_again sender w :
  use_caching (sig w) = true →
  resolution sender (final (resolution sender w))
  = (result (resolution sender w), final (resolution sender w), []).
Proof.
  intros C. destruct (resolution_cases sender w) as [[r E]|[K E]].
  - rewrite E. unfold final, result. cbn [fst snd]. exact E.
  - rewrite E. unfold final, result. cbn [fst snd].
    by apply rescanned_again.
Qed.

Section PureReceivers.

Variable call : pyobj → pyobj → kwargs → World → Res pyval * World.
Hypothesis call_pure : ∀ r s n w, (call r s n w).2 = w.

Lemma send_loop_pure sender named l acc w :
  ∃ r t, send_loop call sender named l acc w = (r, w, t) ∧ locks t = 0%nat.
Proof.
  revert acc. induction l as [|receiver rest IH]; intros acc.
  - by exists (Ok acc), [].
  - cbn [send_loop]. unfold bind, invoke.
    pose proof (call_pure receiver sender named w) as Hc.
    destruct (call receiver sender named w) as [[v|err tb] w1];
      cbn in Hc; subst w1.
    + destruct (IH (acc ++ [(receiver, v)])) as (r & t & -> & Ht).
      exists r, (EvCall receiver :: t). split; [done|].
      unfold locks in *. rewrite filter_cons_False by done. done.
    + exists (Raise err tb), [EvCall receiver]. done.
Qed.

Lemma send_robust_loop_pure sender named l acc w :
  ∃ r t, send_robust_loop call sender named l acc w = (r, w, t) ∧ locks t = 0%nat.
Proof.
  revert acc. induction l as [|receiver rest IH]; intros acc.
  - by exists (Ok acc), [].
  - cbn [send_robust_loop]. unfold bind, try_invoke, invoke.
    pose proof (call_pure receiver sender named w) as Hc.
    destruct (call receiver sender named w) as [[v|err tb] w1];
      cbn in Hc; subst w1.
    + destruct (IH (acc ++ [(receiver, Returned v)])) as (r & t & -> & Ht).
      exists r, (EvCall receiver :: t). split; [done|].
      unfold locks in *. rewrite filter_cons_False by done. done.
    + destruct (exc_is_Exception err).
      * destruct (IH (acc ++ [(receiver, Caught (attach_traceback err tb))]))
          as (r & t & -> & Ht).
        exists r, (EvCall receiver :: t). split; [done|].
        unfold locks in *. rewrite filter_cons_False by done. done.
      * exists (Raise err tb), [EvCall receiver]. done.
Qed.

(** What a dispatch that is a resolution followed by a loop does when it
    is repeated. *)
Lemma repeated_dispatch {R} (loop : list pyobj → M R) sender w :
  use_caching (sig w) = true →
  (∀ l w, ∃ r t, loop l w = (r, w, t) ∧ locks t = 0%nat) →
  let x1 := (l <- resolution sender ;; loop l) w in
  let x2 := (l <- resolution sender ;; loop l) (final x1) in
  result x2 = result x1
  ∧ calls (trace x2) = calls (trace x1)
  ∧ locks (trace x2) = 0%nat
  ∧ final x2 = final x1.
Proof.
  intros C Hloop.
  pose proof (resolution_again sender w C) as Ha.
  pose proof (resolution_resolved sender w) as [_ Hc].
  destruct (resolution sender w) as [[[l|err tb] w1] t1] eqn:E;
    unfold final, result, trace in Ha, Hc; cbn [fst snd] in Ha, Hc.
  - destruct (Hloop l w1) as (r & t & El & Ht).
    assert ((l <- resolution sender ;; loop l) w = (r, w1, t1 ++ t)) as E1.
    { unfold bind. by rewrite E, El. }
    assert ((l <- resolution sender ;; loop l) w1 = (r, w1, t)) as E2.
    { unfold bind. by rewrite Ha, El. }
    cbn zeta. rewrite E1. unfold final, result, trace. cbn [fst snd].
    rewrite E2. cbn [fst snd]. split_and!; [done| |done|done].
    unfold calls in *. by rewrite omap_app, Hc.
  - assert ((l <- resolution sender ;; loop l) w = (Raise err tb, w1, t1))
      as E1.
    { unfold bind. by rewrite E. }
    assert ((l <- resolution sender ;; loop l) w1 = (Raise err tb, w1, []))
      as E2.
    { unfold bind. by rewrite Ha. }
    cbn zeta. rewrite E1. unfold final, result, trace. cbn [fst snd].
    rewrite E2. cbn [fst snd]. split_and!; [done| |done|done].
    by rewrite Hc.
Qed.

End PureReceivers.

(** X11.  On a signal created with [use_caching=True], whose receivers
    leave the signal and the heap as they are, sending again for the
    same sender right after a [send] does not take the lock: the second
    [send] returns or raises what the first did, invokes the same
    receivers in the same order, and leaves the signal as the first left
    it.  The same holds of [send_robust]. *)
Theorem repeated_send_takes_no_lock call sender named w :
  (∀ r s n w, (call r s n w).2 = w) →
  use_caching (sig w) = true →
  (let x1 := send call sender named w in
   let x2 := send call sender named (final x1) in
   result x2 = result x1
   ∧ calls (trace x2) = calls (trace x1)
   ∧ locks (trace x2) = 0%nat
   ∧ final x2 = final x1)
  ∧ (let x1 := send_robust call sender named w in
     let x2 := send_robust call sender named (final x1) in
     result x2 = result x1
     ∧ calls (trace x2) = calls (trace x1)
     ∧ locks (trace x2) = 0%nat
     ∧ final x2 = final x1).
Proof.
  intros Hpure C. split.
  - cbn zeta. rewrite !send_resolution.
    apply (repeated_dispatch
             (fun l => send_loop call sender named l []) sender w C).
    intros l w0. by apply send_loop_pure.
  - cbn zeta. rewrite !send_robust_resolution.
    apply (repeated_dispatch
             (fun l => send_robust_loop call sender named l []) sender w C).
    intros l w0. by apply send_robust_loop_pure.
Qed.

Lemma repeated_send_takes_no_lock_witness :
  use_caching (sig (world_ABC true)) = true
  ∧ (let x1 := send call_ok S1 [] (world_ABC true) in
     let x2 := send call_ok S1 [] (final x1) in
     locks (trace x1) = 1%nat
     ∧ result x2 = result x1
     ∧ calls (trace x2) = [rA; rB; rC]
     ∧ locks (trace x2) = 0%nat).
Proof.
  split; [reflexivity|].
  destruct (repeated_send_takes_no_lock call_ok S1 [] (world_ABC true))
    as [(Hr & Hc & Hl & _) _].
  - intros r s n w. reflexivity.
  - reflexivity.
  - cbn zeta in *. split; [vm_compute; reflexivity|].
    split; [exact Hr|]. split; [|exact Hl].
    rewrite Hc. vm_compute. reflexivity.
Defined.

(** ** X12: weakly held receivers, from [connect] to compaction *)

Lemma owner_collected_dead_ref d h :
  owner_collected d h = true → is_dead_ref d h = true.
Proof.
  destruct h as [o|o]; [done|]. cbn.
  destruct o as [|a|s f|a c]; cbn; [done| | |]; intros H%bool_decide_eq_true.
  - rewrite bool_decide_eq_false_2; [done|]. intros Hn. by apply Hn.
  - rewrite (bool_decide_eq_false_2 (s ∉ d)); [done|]. intros Hn. by apply Hn.
  - rewrite bool_decide_eq_false_2; [done|]. intros Hn. by apply Hn.
Qed.

Lemma compacted_clean w e :
  deaths_flagged w →
  e ∈ receivers (compacted w) →
  owner_collected (dead w) e.2 = false.
Proof.
  intros [_ D] He. rewrite compacted_receivers in He.
  destruct (owner_collected (dead w) e.2) eqn:O; [|done].
  destruct (_dead_receivers (sig w)) eqn:F.
  - rewrite new_receivers_filter in He.
    apply list_elem_of_filter in He as [Hp _].
    apply owner_collected_dead_ref in O. congruence.
  - specialize (D e He O). congruence.
Qed.

Lemma connect_table_entries key h l (e : entry) :
  e ∈ connect_table key h l → e ∈ l ∨ e = (key, h).
Proof.
  unfold connect_table. destruct (key_connected key l); [by left|].
  intros [Hin|Hin]%elem_of_app; [by left|].
  right. by apply list_elem_of_singleton in Hin.
Qed.

Lemma compacted_entries w e :
  e ∈ receivers (compacted w) → e ∈ receivers (sig w).
Proof. intros He. eapply elem_of_sublist; [done|apply compacted_sublist]. Qed.

Lemma connected_finalizers receiver sender weak dispatch_uid w :
  finalizers (connected receiver sender weak dispatch_uid w)
  = if weak
    then match receiver_object receiver with
         | Some a => {[a]} ∪ finalizers w
         | None => finalizers w
         end
    else finalizers w.
Proof.
  unfold connected, with_finalizer. destruct weak; [|done].
  by destruct (receiver_object receiver).
Qed.

Lemma deaths_flagged_connected receiver sender weak dispatch_uid w :
  deaths_flagged w →
  obj_alive (dead w) receiver = true →
  deaths_flagged (connected receiver sender weak dispatch_uid w).
Proof.
  intros H A. pose proof H as [F D]. split.
  - intros e a He Hw Ho. rewrite connected_receivers in He.
    rewrite connected_finalizers.
    apply connect_table_entries in He as [He| ->].
    + apply compacted_entries in He. specialize (F e a He Hw Ho).
      destruct weak; [|done].
      destruct (receiver_object receiver); [|done]. set_solver.
    + cbn [snd] in Hw, Ho. destruct weak; [|done].
      cbn in Ho. rewrite Ho. set_solver.
  - intros e He Ho. rewrite connected_receivers in He.
    rewrite connected_dead in Ho.
    apply connect_table_entries in He as [He| ->].
    + rewrite (compacted_clean w e H He) in Ho. done.
    + cbn [snd] in Ho. destruct weak; [|done].
      apply owner_collected_dead_ref in Ho. cbn in Ho. by rewrite A in Ho.
Qed.

(** A world whose table is taken from the compacted one. *)
Lemma deaths_flagged_of_compacted w w' :
  (∀ e, e ∈ receivers (sig w') → e ∈ receivers (compacted w)) →
  dead w' = dead w →
  finalizers w' = finalizers w →
  deaths_flagged w → deaths_flagged w'.
Proof.
  intros Hsub Hd Hf H. pose proof H as [F D]. split.
  - intros e a He Hw Ho. rewrite Hf.
    apply (F e a); [|done|done]. by apply compacted_entries, Hsub.
  - intros e He Ho. rewrite Hd in Ho.
    rewrite (compacted_clean w e H (Hsub e He)) in Ho. done.
Qed.

Lemma rescanned_receivers sender w :
  receivers (sig (rescanned sender w)) = receivers (compacted w).
Proof. unfold rescanned. by destruct (use_caching (compacted w)). Qed.

Lemma rescanned_dead sender w : dead (rescanned sender w) = dead w.
Proof. unfold rescanned. by destruct (use_caching (compacted w)). Qed.

Lemma rescanned_finalizers sender w :
  finalizers (rescanned sender w) = finalizers w.
Proof. unfold rescanned. by destruct (use_caching (compacted w)). Qed.

Lemma deaths_flagged_disconnected receiver sender dispatch_uid w :
  deaths_flagged w → deaths_flagged (disconnected receiver sender dispatch_uid w).
Proof.
  apply deaths_flagged_of_compacted; [|done|done].
  intros e He. rewrite disconnected_receivers in He.
  eapply elem_of_sublist; [done|apply remove_first_sublist].
Qed.

Lemma deaths_flagged_resolved w w1 :
  resolved w w1 → deaths_flagged w → deaths_flagged w1.
Proof.
  intros [->|[->|[sender ->]]]; [done| |].
  - by apply deaths_flagged_of_compacted.
  - apply deaths_flagged_of_compacted.
    + intros e. by rewrite rescanned_receivers.
    + apply rescanned_dead.
    + apply rescanned_finalizers.
Qed.

Lemma deaths_flagged_collect a w :
  deaths_flagged w → deaths_flagged (collect a w).
Proof.
  intros [F D]. split.
  - intros e a' He Hw Ho. rewrite collect_receivers in He.
    rewrite collect_finalizers. by apply (F e a').
  - intros e He Ho. rewrite collect_receivers in He.
    rewrite collect_dead in Ho. rewrite collect_flag.
    destruct (owner_collected (dead w) e.2) eqn:O.
    { by rewrite (D e He O). }
    destruct e as [key [o|o]]; [done|]. cbn in *.
    destruct (receiver_object o) as [a'|] eqn:Ro; [|done].
    apply bool_decide_eq_true in Ho. apply bool_decide_eq_false in O.
    assert (a' = a) as ->.
    { apply elem_of_union in Ho as [Ho|Ho]; [|done].
      by apply elem_of_singleton in Ho. }
    rewrite (bool_decide_eq_true_2 (a ∈ finalizers w)).
    + apply orb_true_r.
    + by apply (F (key, Weak o) a He).
Qed.

Lemma deaths_flagged_expire sender w :
  deaths_flagged w → deaths_flagged (expire sender w).
Proof. unfold expire. by destruct (use_caching (sig w)). Qed.

Lemma deaths_flagged_boot args caching : deaths_flagged (boot args caching).
Proof. split; intros e; cbn; intros; by apply elem_of_nil in H. Qed.

Section Lifecycle.

Variable call : pyobj → pyobj → kwargs → World → Res pyval * World.
Hypothesis call_keeps :
  ∀ r s n w, deaths_flagged w → deaths_flagged (call r s n w).2.

Lemma send_loop_deaths_flagged sender named l acc w :
  deaths_flagged w →
  deaths_flagged (final (send_loop call sender named l acc w)).
Proof.
  revert acc w. induction l as [|receiver rest IH]; intros acc w H; [done|].
  cbn [send_loop]. rewrite final_bind. unfold invoke, result, final.
  pose proof (call_keeps receiver sender named w H) as Hc.
  destruct (call receiver sender named w) as [[v|err tb] w1]; cbn in *;
    [by apply IH|done].
Qed.

Lemma send_robust_loop_deaths_flagged sender named l acc w :
  deaths_flagged w →
  deaths_flagged (final (send_robust_loop call sender named l acc w)).
Proof.
  revert acc w. induction l as [|receiver rest IH]; intros acc w H; [done|].
  cbn [send_robust_loop]. rewrite final_bind.
  unfold try_invoke, invoke, result, final.
  pose proof (call_keeps receiver sender named w H) as Hc.
  destruct (call receiver sender named w) as [[v|err tb] w1]; cbn in *.
  - by apply IH.
  - destruct (exc_is_Exception err); cbn; [by apply IH|done].
Qed.

Lemma deaths_flagged_step w o :
  deaths_flagged w → op_live w o → deaths_flagged (step call w o).
Proof.
  intros H A. destruct o as [r s weak uid|r s weak uid|s|s n|s n|a|s]; cbn.
  - rewrite connect_run. destruct (_ && _); [done|].
    by apply deaths_flagged_connected.
  - rewrite disconnect_run. by apply deaths_flagged_disconnected.
  - unfold has_listeners. rewrite final_bind.
    pose proof (_live_receivers_resolved s w) as R.
    destruct (result (_live_receivers s w));
      by eapply deaths_flagged_resolved.
  - rewrite send_resolution, final_bind.
    pose proof (resolution_resolved s w) as [R _].
    destruct (result (resolution s w)).
    + apply send_loop_deaths_flagged. by eapply deaths_flagged_resolved.
    + by eapply deaths_flagged_resolved.
  - rewrite send_robust_resolution, final_bind.
    pose proof (resolution_resolved s w) as [R _].
    destruct (result (resolution s w)).
    + apply send_robust_loop_deaths_flagged. by eapply deaths_flagged_resolved.
    + by eapply deaths_flagged_resolved.
  - by apply deaths_flagged_collect.
  - by apply deaths_flagged_expire.
Qed.

Lemma deaths_flagged_run ops w :
  deaths_flagged w → run_live call ops w → deaths_flagged (run call ops w).
Proof.
  revert w. induction ops as [|o ops IH]; intros w H L; [done|].
  destruct L as [A L]. cbn. apply IH; [|done]. by apply deaths_flagged_step.
Qed.

End Lifecycle.

(** X12.  Take a new signal and any sequence of [connect], [disconnect],
    [has_listeners], [send] and [send_robust] calls, collections of
    objects and releases of senders, in which every object handed to
    [connect] is alive at that moment and the receivers keep what
    follows.  Then every weakly held receiver in the table carries the
    finalizer [connect] registered on it (on the owner, for a bound
    method); whenever such an object has been collected the flag
    [_dead_receivers] is up; after [_clear_dead_receivers] no entry of a
    collected object is left; and collecting the object of a weakly held
    entry runs its finalizer, [_remove_receiver], which raises the flag,
    so that the next [disconnect] drops the entry. *)
Theorem weak_receivers_are_flagged call ops args caching :
  (∀ r s n w, deaths_flagged w → deaths_flagged (call r s n w).2) →
  run_live call ops (boot args caching) →
  let w := run call ops (boot args caching) in
  (∀ e a, e ∈ receivers (sig w) → is_weak e.2 = true →
          receiver_object (handle_obj e.2) = Some a → a ∈ finalizers w)
  ∧ (∀ e, e ∈ receivers (sig w) → owner_collected (dead w) e.2 = true →
          _dead_receivers (sig w) = true)
  ∧ (∀ e, e ∈ receivers (sig (final (_clear_dead_receivers w))) →
          owner_collected (dead w) e.2 = false)
  ∧ (∀ e a, e ∈ receivers (sig w) → is_weak e.2 = true →
            receiver_object (handle_obj e.2) = Some a →
            let w' := collect a w in
            w' = final (_remove_receiver (reclaimed a w))
            ∧ _dead_receivers (sig w') = true
            ∧ ∀ r s weak uid,
                e ∉ receivers (sig (final (disconnect r s weak uid w')))).
Proof.
  intros Hc L w.
  assert (deaths_flagged w) as H.
  { apply deaths_flagged_run; [done|apply deaths_flagged_boot|done]. }
  pose proof H as [F D]. split_and!; [done|done| |].
  - intros e He. rewrite _clear_dead_receivers_run in He.
    by apply compacted_clean.
  - intros e a He Hw Ho w'.
    pose proof (deaths_flagged_collect a w H) as H'. fold w' in H'.
    assert (e ∈ receivers (sig w')) as He'.
    { subst w'. by rewrite collect_receivers. }
    assert (owner_collected (dead w') e.2 = true) as O.
    { subst w'. rewrite collect_dead.
      destruct e as [key [o|o]]; [done|]. cbn in *. rewrite Ho.
      apply bool_decide_eq_true_2, elem_of_union_l. by apply elem_of_singleton. }
    split.
    { subst w'. unfold collect.
      by rewrite (bool_decide_eq_true_2 _ (F e a He Hw Ho)). }
    split; [by apply (proj2 H' e)|].
    intros r s weak uid Hin. rewrite disconnect_run in Hin.
    unfold final in Hin. cbn [fst snd] in Hin.
    rewrite disconnected_receivers in Hin.
    assert (e ∈ receivers (compacted w')) as Hcm.
    { eapply elem_of_sublist; [done|apply remove_first_sublist]. }
    rewrite (compacted_clean w' e H' Hcm) in O. done.
Qed.

Lemma weak_receivers_are_flagged_witness :
  let ops := [Connect rA ONone true PNone; Connect rB S1 true PNone;
              Collect 1; Send S1 []] in
  run_live call_ok ops (boot [] false)
  ∧ receivers (sig (run call_ok ops (boot [] false)))
    = [((PInt 2, PInt 10), Weak rB)]
  ∧ (∀ e, e ∈ receivers (sig (run call_ok ops (boot [] false))) →
          owner_collected (dead (run call_ok ops (boot [] false))) e.2 = true →
          _dead_receivers (sig (run call_ok ops (boot [] false))) = true).
Proof.
  cbn zeta.
  assert (run_live call_ok
            [Connect rA ONone true PNone; Connect rB S1 true PNone;
             Collect 1; Send S1 []] (boot [] false)) as L.
  { vm_compute. tauto. }
  split; [exact L|]. split; [vm_compute; reflexivity|].
  apply (weak_receivers_are_flagged call_ok _ [] false
           (fun r s n w H => H) L).
Defined.

(** ** X13: a key whose receiver was collected can be used again *)




(** ** X14: [_remove_receiver] *)

(** X14.  [_remove_receiver] only raises the flag: it never raises, takes
    no lock, and leaves the table, the cache and what every sender
    resolves to as they are.  The [_live_receivers] call that follows
    does not read the cache, whatever it holds: it takes the lock,
    compacts the table and lowers the flag; for a sender the cache can
    look up, and for every sender when the signal does not cache, it
    returns the live matching receivers of the table; for another it
    raises [TypeError].  A collection of an object that carries a
    finalizer of [connect] runs [_remove_receiver], and so leaves the
    table with the flag up. *)
Theorem remove_receiver_forces_rescan w :
  let x := _remove_receiver w in
  result x = Ok tt
  ∧ trace x = []
  ∧ _dead_receivers (sig (final x)) = true
  ∧ receivers (sig (final x)) = receivers (sig w)
  ∧ sender_receivers_cache (sig (final x)) = sender_receivers_cache (sig w)
  ∧ (∀ sender, matching_live (final x) sender = matching_live w sender)
  ∧ (∀ sender,
       let y := _live_receivers sender (final x) in
       trace y = [EvLock]
       ∧ _dead_receivers (sig (final y)) = false
       ∧ receivers (sig (final y))
         = new_receivers (dead w) (receivers (sig w))
       ∧ result y
         = if negb (use_caching (sig w)) || cache_key_ok (sig w) sender
           then Ok (matching_live w sender)
           else Raise TypeError [])
  ∧ (∀ a, a ∈ finalizers w →
       collect a w = final (_remove_receiver (reclaimed a w))
       ∧ _dead_receivers (sig (collect a w)) = true
       ∧ receivers (sig (collect a w)) = receivers (sig (final x))).
Proof.
  cbn zeta.
  assert (_remove_receiver w = (Ok tt, set_sig (with_flag true (sig w)) w, []))
    as E by done.
  rewrite E. unfold result, final, trace. cbn [fst snd].
  split_and!; [done|done|done|done|done|done| |].
  - intros sender. rewrite _live_receivers_run. unfold cache_hit.
    cbn [sig set_sig with_flag _dead_receivers use_caching].
    rewrite andb_false_r. cbn [andb negb].
    assert (cache_key_ok (with_flag true (sig w)) sender
            = cache_key_ok (sig w) sender) as -> by done.
    assert (receivers (compacted (set_sig (with_flag true (sig w)) w))
            = new_receivers (dead w) (receivers (sig w))) as Er by done.
    assert (matching_live w sender
            = non_weak_receivers (dead w)
                (scan (_make_id sender)
                   (new_receivers (dead w) (receivers (sig w))))) as Em.
    { unfold matching_live. by rewrite non_weak_scan_new_receivers. }
    destruct (negb (use_caching (sig w)) || cache_key_ok (sig w) sender);
      cbn [fst snd].
    + rewrite rescanned_receivers, Er, Em.
      split_and!; [done| |done|done].
      unfold rescanned. destruct (use_caching _); cbn; done.
    + done.
  - intros a Fa. rewrite collect_flag, collect_receivers.
    rewrite (bool_decide_eq_true_2 (a ∈ finalizers w)) by done.
    rewrite orb_true_r. split_and!; [|done|done].
    unfold collect. by rewrite bool_decide_eq_true_2.
Qed.

(** ** X15: the [receiver] decorator *)

Section Decorator.

Variable func : pyobj.
Variable kw : connect_kwargs.

Lemma on_signal_connect s st :
  kw_weak kw = false ∨ weakly_referenceable func = true →
  on_signal s (connect func (kw_sender kw) (kw_weak kw) (kw_dispatch_uid kw)) st
  = (Ok tt,
     store_put s
       (connected func (kw_sender kw) (kw_weak kw) (kw_dispatch_uid kw)
          (world_of st s)) st,
     [EvLock]).
Proof. intros Hw. unfold on_signal. by rewrite connect_returns. Qed.

Lemma on_signal_connect_raises s st :
  kw_weak kw = true → weakly_referenceable func = false →
  on_signal s (connect func (kw_sender kw) (kw_weak kw) (kw_dispatch_uid kw)) st
  = (Raise TypeError [], store_put s (world_of st s) st, []).
Proof.
  intros Hw Hf. unfold on_signal. rewrite connect_run, Hw, Hf. done.
Qed.

Lemma store_put_same s w st : signal_at (store_put s w st) s = sig w.
Proof. cbn. by rewrite decide_True. Qed.

Lemma store_put_other s w st i :
  i ≠ s →
  signal_at (store_put s w st) i = signal_at st i
  ∧ finalizers_at (store_put s w st) i = finalizers_at st i.
Proof. intros Hi. cbn. by rewrite !decide_False. Qed.

Lemma connect_each_spec l st :
  kw_weak kw = false ∨ weakly_referenceable func = true →
  ∃ st',
    connect_each l func kw st = (Ok tt, st', replicate (length l) EvLock)
    ∧ collected st' = collected st
    ∧ (∀ s, s ∉ l →
         signal_at st' s = signal_at st s
         ∧ finalizers_at st' s = finalizers_at st s)
    ∧ (∀ s, s ∈ l ∨ decorated func kw st s → decorated func kw st' s)
    ∧ (∀ s, (s ∈ l ∧ receivers (signal_at st s) = []) ∨ only_func func kw st s →
         only_func func kw st' s).
Proof.
  intros Hw. revert st. induction l as [|s rest IH]; intros st.
  - exists st. split_and!; [done|done|done| |].
    + intros s [Hs|Hs]; [by apply elem_of_nil in Hs|done].
    + intros s [[Hs _]|Hs]; [by apply elem_of_nil in Hs|done].
  - cbn [connect_each]. rewrite on_signal_connect by done.
    set (w1 := connected func (kw_sender kw) (kw_weak kw) (kw_dispatch_uid kw)
                 (world_of st s)).
    set (st1 := store_put s w1 st).
    destruct (IH st1) as (st' & E & Hc & Ho & Hd & Hf). rewrite E.
    subst st1.
    exists st'. split_and!.
    + done.
    + rewrite Hc. subst w1. cbn [collected store_put].
      by rewrite connected_dead.
    + intros i Hi. apply not_elem_of_cons in Hi as [Hne Hi].
      destruct (Ho i Hi) as [-> ->]. by apply store_put_other.
    + intros i Hi. apply Hd.
      destruct (decide (i = s)) as [->|Hne].
      * right. unfold decorated. rewrite store_put_same.
        subst w1. rewrite connected_receivers, connected_cache, connected_flag.
        split_and!; [|done|done].
        apply key_connected_elem, connect_table_connected.
      * destruct Hi as [Hi|Hi].
        -- apply elem_of_cons in Hi as [Hi|Hi]; [done|by left].
        -- right. unfold decorated in *.
           by destruct (store_put_other s w1 st i Hne) as [-> _].
    + intros i Hi. apply Hf.
      destruct (decide (i = s)) as [->|Hne].
      * right. unfold only_func. rewrite store_put_same.
        subst w1. rewrite connected_receivers, connected_flag.
        split; [|done].
        destruct Hi as [[_ Hi]|[Hi Hfl]].
        -- rewrite compacted_receivers. cbn [sig world_of]. rewrite Hi.
           by destruct (_dead_receivers (signal_at st s)).
        -- rewrite compacted_settled by done. cbn [sig world_of].
           rewrite Hi. unfold connect_table, key_connected. cbn.
           by rewrite bool_decide_eq_true_2.
      * destruct Hi as [[Hi He]|Hi].
        -- apply elem_of_cons in Hi as [Hi|Hi]; [done|]. left.
           split; [done|].
           by destruct (store_put_other s w1 st i Hne) as [-> _].
        -- right. unfold only_func in *.
           by destruct (store_put_other s w1 st i Hne) as [-> _].
Qed.

End Decorator.

(** X15.  [receiver(signals, **kwargs)(func)] for a list of signals,
    when [func] can be connected (not weakly, or it can be weakly
    referenced): it returns [func] itself and takes the lock of each
    listed signal once, in turn.  Afterwards every listed signal holds
    an entry under the key of [func], with an empty cache and the flag
    down; a listed signal whose table was empty holds the entry of
    [func] and nothing else, also when it is listed twice; the signals
    that are not listed are as they were.  A signal passed alone is
    treated as the list holding only it. *)
Theorem receiver_decorator_connects l kw func st :
  kw_weak kw = false ∨ weakly_referenceable func = true →
  let key := make_lookup_key func (kw_sender kw) (kw_dispatch_uid kw) in
  (∃ st',
     receiver_decorator (SignalList l) kw func st
     = (Ok func, st', replicate (length l) EvLock)
     ∧ collected st' = collected st
     ∧ (∀ s, s ∈ l →
          key ∈ (receivers (signal_at st' s)).*1
          ∧ sender_receivers_cache (signal_at st' s) = ∅
          ∧ _dead_receivers (signal_at st' s) = false)
     ∧ (∀ s, s ∈ l → receivers (signal_at st s) = [] →
          receivers (signal_at st' s)
          = [(key, connect_handle func (kw_weak kw))])
     ∧ (∀ s, s ∉ l →
          signal_at st' s = signal_at st s
          ∧ finalizers_at st' s = finalizers_at st s))
  ∧ (∀ s, receiver_decorator (OneSignal s) kw func st
          = receiver_decorator (SignalList [s]) kw func st).
Proof.
  intros Hw key. split.
  - destruct (connect_each_spec func kw l st Hw)
      as (st' & E & Hc & Ho & Hd & Hf).
    exists st'. unfold receiver_decorator. rewrite E.
    split_and!; [done|done| | |done].
    + intros s Hs. apply Hd. by left.
    + intros s Hs He. apply Hf. left. by split.
  - intros s. unfold receiver_decorator. cbn [connect_each].
    rewrite on_signal_connect by done. done.
Qed.

Lemma receiver_decorator_connects_witness :
  let x := receiver_decorator (SignalList [0; 2; 0]%nat) default_kwargs rA
             (new_store (fun _ => false)) in
  x.1.1 = Ok rA
  ∧ x.2 = [EvLock; EvLock; EvLock]
  ∧ receivers (signal_at x.1.2 0) = [((PInt 1, PInt 0), Weak rA)]
  ∧ receivers (signal_at x.1.2 1) = []
  ∧ receivers (signal_at x.1.2 2) = [((PInt 1, PInt 0), Weak rA)].
Proof.
  cbn zeta.
  destruct (receiver_decorator_connects [0; 2; 0]%nat default_kwargs rA
              (new_store (fun _ => false)) (or_intror eq_refl))
    as [(st' & E & _ & _ & Hf & Ho) _].
  rewrite E. cbn [fst snd].
  split; [done|]. split; [done|]. split_and!.
  - rewrite (Hf 0%nat); [done| |done]. apply list_elem_of_here.
  - destruct (Ho 1%nat) as [-> _]; [|done].
    intros Hin. apply elem_of_cons in Hin as [Hin|Hin]; [discriminate Hin|].
    apply elem_of_cons in Hin as [Hin|Hin]; [discriminate Hin|].
    apply elem_of_cons in Hin as [Hin|Hin]; [discriminate Hin|].
    by apply elem_of_nil in Hin.
  - rewrite (Hf 2%nat); [done| |done].
    apply list_elem_of_further, list_elem_of_here.
Defined.

(** X16.  [receiver(signals, weak=True)(func)] for a [func] that cannot
    be weakly referenced: with no signal listed it returns [func] and
    does nothing; otherwise the [connect] of the first listed signal
    raises [TypeError] before taking the lock, no later signal is
    touched, and every signal is as it was. *)
Theorem receiver_decorator_raises l kw func st :
  kw_weak kw = true →
  weakly_referenceable func = false →
  ∃ st',
    receiver_decorator (SignalList l) kw func st
    = (match l with [] => Ok func | _ => Raise TypeError [] end, st', [])
    ∧ collected st' = collected st
    ∧ (∀ s, signal_at st' s = signal_at st s
            ∧ finalizers_at st' s = finalizers_at st s).
Proof.
  intros Hw Hf. unfold receiver_decorator. destruct l as [|s rest].
  - by exists st.
  - cbn [connect_each]. rewrite on_signal_connect_raises by done.
    exists (store_put s (world_of st s) st). split_and!; [done|done|].
    intros i. cbn. by destruct (decide (i = s)) as [->|].
Qed.

Lemma receiver_decorator_raises_witness :
  let x := receiver_decorator (SignalList [3; 4]%nat) default_kwargs ONone
             (new_store (fun _ => true)) in
  x.1.1 = Raise TypeError []
  ∧ x.2 = []
  ∧ receivers (signal_at x.1.2 3) = []
  ∧ receivers (signal_at x.1.2 4) = [].
Proof.
  cbn zeta.
  destruct (receiver_decorator_raises [3; 4]%nat default_kwargs ONone
              (new_store (fun _ => true)) eq_refl eq_refl)
    as (st' & E & _ & Hs).
  rewrite E. cbn [fst snd]. split; [done|]. split; [done|].
  split; [by destruct (Hs 3%nat) as [-> _]|by destruct (Hs 4%nat) as [-> _]].
Defined.
